(** * OrderFlow: the tick aggregation engine, embedded and verified

    A shallow embedding of the order-flow backend:
    - [backend/src/engine/aggregation.js]: [inferSide], [DomBuilder],
      [FootprintAggregator], [CvdCalculator], [MetricsCalculator],
      [AlertEvaluator];
    - [backend/src/utils/ringBuffer.js]: [RingBuffer];
    - [backend/src/storage/storage.js]: its [ReplayEngine];
    - [backend/src/engine/AggregationEngine.js] and
      [backend/src/engine/ReplayEngine.js]: the event-emitter engine and the
      replay engine wired into the server.

    Conventions of the embedding.
    - A JavaScript number that carries a price, a size or a ratio is a
      rational ([Qc]).  The modules named after the classes compute with
      exact rationals, which is what the code does where it compares, copies
      and counts.  Where a statement is about the sums, differences and
      quotients the code computes, the rounding of doubles decides:
      [Binary64] defines the rounding to the nearest double, and the modules
      [FootprintAggregator64], [CvdCalculator64] and [AlertEvaluator64]
      give the arithmetic of the classes with it (Part IV).  NaN and the
      infinities are outside the model.  Timestamps ([Date.now()],
      [tick.ts]) and durations in milliseconds are integers ([Z]).
    - An optional value that is [undefined] is [None].  Where the code
      tests [!== undefined], a [null] would pass the test; the calls in the
      repository pass [undefined] only, and the model has no [null].
    - A JavaScript [Map] is a [gmap]; its insertion order is not modelled, so
      lists obtained by iterating a [Map] without sorting are meant up to
      order.
    - Mutable objects become records threaded through the functions; a method
      returns its result together with the new state.
    - [Date.now()] is read once per method call and passed as [now].

    Part I holds the definitions, Part II the lemmas and theorems on the
    claims of the specification, Part III further properties of the code,
    Part IV the properties that depend on the arithmetic of doubles. *)

From Stdlib Require Import QArith Qcanon Qround Qpower Qabs Lqa.
From Stdlib Require Floats.
From stdpp Require Import gmap strings list fin_maps sorting numbers.

Local Open Scope Qc_scope.

(* ===================================================================== *)
(** * Part I: the program *)
(* ===================================================================== *)

(** ** Numbers *)

(** The rational [n/d], for literals such as [100.5 = num 201 2]. *)
Definition num (n : Z) (d : positive) : Qc := Q2Qc (n # d).

(** [a >= b], [a <= b], [a > b], [a < b] on numbers, as booleans. *)
Definition geb (a b : Qc) : bool := bool_decide (b ≤ a).
Definition leb (a b : Qc) : bool := bool_decide (a ≤ b).
Definition gtb (a b : Qc) : bool := bool_decide (b < a).
Definition ltb (a b : Qc) : bool := bool_decide (a < b).

(** [Math.max(...l)] and [Math.min(...l)].  On the empty list JavaScript
    answers with an infinity; every call site below is behind a length guard,
    and the model answers [0] there. *)
Definition Math_max (l : list Qc) : Qc :=
  match l with
  | [] => 0
  | x :: l' => foldl (λ m y, if gtb y m then y else m) x l'
  end.

Definition Math_min (l : list Qc) : Qc :=
  match l with
  | [] => 0
  | x :: l' => foldl (λ m y, if ltb y m then y else m) x l'
  end.

(** [l.reduce((a, b) => a + b, 0)]. *)
Definition sum_list (l : list Qc) : Qc := foldl Qcplus 0 l.

(** [Math.abs]. *)
Definition Math_abs (x : Qc) : Qc := if ltb x 0 then - x else x.

(** [Math.round(x)]: the nearest integer, halves going up. *)
Definition Math_round (x : Qc) : Z := Qfloor (x + 1 / 2).

(** [l.slice(-n)] for [n > 0]: the last [n] elements.  ([l.slice(-0)] is
    [l.slice(0)], the whole list.) *)
Definition slice_last {A} (n : nat) (l : list A) : list A :=
  drop (length l - n) l.

(** [l.push(x); if (l.length > cap) l.shift()]: a push onto a history capped
    at [cap] entries, the oldest one leaving first. *)
Definition push_capped {A} (cap : nat) (l : list A) (x : A) : list A :=
  let l' := l ++ [x] in
  if bool_decide (cap < length l')%nat then tail l' else l'.

(** [Math.floor(ts / d) * d] on integer milliseconds.  [Z.div] is the floor
    of the quotient for a divisor of either sign; for [d = 0] JavaScript
    yields NaN, which the model does not have: [bucket ts 0] is [0].  The
    modules on doubles, [FootprintAggregator64] and [CvdCalculator64], treat
    a duration of 0 apart. *)
Definition bucket (ts d : Z) : Z := (ts / d * d)%Z.

(** ** Ticks *)

Inductive Side := buy | sell | unknown.

Global Instance Side_eq_dec : EqDecision Side.
Proof. solve_decision. Defined.

Record Tick := mkTick {
  ts : Z;
  price : Qc;
  size : Qc;
  side : Side
}.

(** ** Aggressor side inference ([aggregation.js], [inferSide]) *)

Definition inferSide (price : Qc) (prevPrice bidPrice askPrice : option Qc)
  : Side :=
  let book :=
    match bidPrice, askPrice with
    | Some bid, Some ask =>
        if geb price ask then Some buy
        else if leb price bid then Some sell
        else None
    | _, _ => None
    end in
  match book with
  | Some s => s
  | None =>
      (* Tick rule fallback *)
      let tickRule :=
        match prevPrice with
        | Some prev =>
            if gtb price prev then Some buy
            else if ltb price prev then Some sell
            else None
        | None => None
        end in
      match tickRule with
      | Some s => s
      | None => unknown
      end
  end.

(** The documented rule order, as a relation between the inputs and the
    answer.  The book is silent when a side is unknown or the price lies
    strictly inside the spread. *)
Inductive book_silent (p : Qc) (bidP askP : option Qc) : Prop :=
| silent_no_bid : bidP = None → book_silent p bidP askP
| silent_no_ask : askP = None → book_silent p bidP askP
| silent_inside b a :
    bidP = Some b → askP = Some a → b < p → p < a → book_silent p bidP askP.

Inductive infer_rule (p : Qc) (prev bidP askP : option Qc) : Side → Prop :=
| rule_book_buy b a :
    bidP = Some b → askP = Some a → a ≤ p →
    infer_rule p prev bidP askP buy
| rule_book_sell b a :
    bidP = Some b → askP = Some a → p < a → p ≤ b →
    infer_rule p prev bidP askP sell
| rule_tick_buy pr :
    book_silent p bidP askP → prev = Some pr → pr < p →
    infer_rule p prev bidP askP buy
| rule_tick_sell pr :
    book_silent p bidP askP → prev = Some pr → p < pr →
    infer_rule p prev bidP askP sell
| rule_unknown :
    book_silent p bidP askP → (prev = None ∨ prev = Some p) →
    infer_rule p prev bidP askP unknown.

(** ** The event-emitter engine ([AggregationEngine.js]) *)

Module AggregationEngine.

(** An entry of [metrics.recentPrices]. *)
Record Recent := mkRecent {
  r_price : Qc;
  r_ts : Z;
  r_size : Qc;
  r_side : Side
}.

(** The fields of the engine that side inference, absorption detection and
    [resetSession] read or write.  [lastBid] and [lastAsk] start at [0],
    which JavaScript treats as "not set" in a condition. *)
Record t := mk {
  trades : list Tick;
  cvd : Qc;
  sessionCvd : Qc;
  recentPrices : list Recent;
  lastBid : Qc;
  lastAsk : Qc
}.

(** [new AggregationEngine()]. *)
Definition create : t :=
  {| trades := []; cvd := 0; sessionCvd := 0; recentPrices := [];
     lastBid := 0; lastAsk := 0 |}.

(** A number used as a condition: [0] is false. *)
Definition truthy (x : Qc) : bool := negb (bool_decide (x = 0)).

(** [_inferSide(price)].  [random] is the value [Math.random()] returns
    when the last line is reached. *)
Definition _inferSide (e : t) (p : Qc) (random : Qc) : Side :=
  if truthy (lastAsk e) && geb p (lastAsk e) then buy
  else if truthy (lastBid e) && leb p (lastBid e) then sell
  else
    (* Tick rule: compare to last trade *)
    match trades e !! (length (trades e) - 1)%nat with
    | Some lastTrade => if geb p (price lastTrade) then buy else sell
    | None => if ltb random (1 / 2) then buy else sell
    end.

(** A trade as a feed hands it to [onTrade]: the side may be missing. *)
Record RawTick := mkRawTick {
  rt_ts : Z;
  rt_price : Qc;
  rt_size : Qc;
  rt_side : option Side
}.

(** [RING_BUFFER_SIZE]. *)
Definition RING_BUFFER_SIZE : nat := 500.

(** [onTrade(tick)], as far as the modelled fields go: the side is taken
    from the tick or inferred ([tick.side || this._inferSide(tick.price)]),
    the enriched tick is pushed on the capped [trades], the two CVD counters
    move by its delta, and the print is recorded for the metrics.  The bar
    update, the emitted events and the alert checks are left out. *)
Definition onTrade (e : t) (tick : RawTick) (random : Qc) : t :=
  let sd := match rt_side tick with
            | Some s => s
            | None => _inferSide e (rt_price tick) random
            end in
  let delta := if bool_decide (sd = buy) then rt_size tick else - rt_size tick in
  let enriched := {| ts := rt_ts tick; price := rt_price tick;
                     size := rt_size tick; side := sd |} in
  {| trades := push_capped RING_BUFFER_SIZE (trades e) enriched;
     cvd := cvd e + delta;
     sessionCvd := sessionCvd e + delta;
     recentPrices := recentPrices e
                     ++ [ {| r_price := rt_price tick; r_ts := rt_ts tick;
                             r_size := rt_size tick; r_side := sd |} ];
     lastBid := lastBid e;
     lastAsk := lastAsk e |}.

(** [onQuote(quote)]. *)
Definition onQuote (e : t) (bidP askP : Qc) : t :=
  {| trades := trades e; cvd := cvd e; sessionCvd := sessionCvd e;
     recentPrices := recentPrices e; lastBid := bidP; lastAsk := askP |}.

(** [resetSession()]: the quotes and the prints kept for the metrics are
    not among the fields it clears. *)
Definition resetSession (e : t) : t :=
  {| trades := []; cvd := 0; sessionCvd := 0;
     recentPrices := recentPrices e; lastBid := lastBid e;
     lastAsk := lastAsk e |}.

(** A recorded trade, whose side is known, as [onTrade] receives it. *)
Definition recorded (tick : Tick) : RawTick :=
  {| rt_ts := ts tick; rt_price := price tick; rt_size := size tick;
     rt_side := Some (side tick) |}.

(** The [delta] [onTrade] gives a trade of a given side: a side that is not
    ['buy'] counts as a sell. *)
Definition signed (tick : Tick) : Qc :=
  if bool_decide (side tick = buy) then size tick else - size tick.

(** A call of one of the methods above, and a run of such calls. *)
Inductive Call :=
| CallTrade (tick : RawTick) (random : Qc)
| CallQuote (bidP askP : Qc)
| CallReset.

Definition call (e : t) (c : Call) : t :=
  match c with
  | CallTrade tick random => onTrade e tick random
  | CallQuote bidP askP => onQuote e bidP askP
  | CallReset => resetSession e
  end.

Definition calls (e : t) (cs : list Call) : t := foldl call e cs.

(** What [_detectAbsorption()] returns when it does not return [null]. *)
Inductive AbsorptionReport :=
| Detected (priceRange totalVolume buyVol sellVol : Qc) (bias : Side)
| NotDetected.

Global Instance AbsorptionReport_eq_dec : EqDecision AbsorptionReport.
Proof. solve_decision. Defined.

Definition _detectAbsorption (e : t) : option AbsorptionReport :=
  let window := recentPrices e in
  if bool_decide (length window < 5)%nat then None
  else
    let prices := r_price <$> window in
    let priceRange := Math_max prices - Math_min prices in
    let totalVol := sum_list (r_size <$> window) in
    (* High volume but tiny price movement = absorption *)
    if leb priceRange 2 && gtb totalVol (num 200 1) then
      let sellVol :=
        sum_list (r_size <$> filter (λ w, r_side w = sell) window) in
      let buyVol := totalVol - sellVol in
      Some (Detected priceRange totalVol buyVol sellVol
                     (if gtb buyVol sellVol then buy else sell))
    else Some NotDetected.

End AggregationEngine.

(** ** The bounded event history ([utils/ringBuffer.js]) *)

Module RingBuffer.

(** A slot of [buffer] is [None] while it still holds [undefined].  The
    capacity is positive in every use ([(head + 1) % 0] is NaN). *)
Record t (A : Type) := mk {
  capacity : nat;
  buffer : list (option A);
  head : nat;   (* next write position *)
  size : nat
}.
Global Arguments mk {A}.
Global Arguments capacity {A}.
Global Arguments buffer {A}.
Global Arguments head {A}.
Global Arguments size {A}.

Section ops.
Context {A : Type}.

(** [new RingBuffer(capacity)]. *)
Definition create (capacity : nat) : t A :=
  {| capacity := capacity; buffer := replicate capacity None;
     head := 0; size := 0 |}.

Definition push (rb : t A) (item : A) : t A :=
  {| capacity := capacity rb;
     buffer := <[head rb := Some item]> (buffer rb);
     head := (head rb + 1) mod capacity rb;
     size := if bool_decide (size rb < capacity rb)%nat
             then S (size rb) else size rb |}.

(** [last(n, reverse)]: the slot read at step [i] is
    [(head - i + capacity) % capacity], for [i] from 1 to [count]. *)
Definition last (rb : t A) (n : nat) (reverse_ : bool) : list (option A) :=
  let count := n `min` size rb in
  let result :=
    (λ i, mjoin (buffer rb !! ((head rb + capacity rb - i) mod capacity rb)))
      <$> seq 1 count in
  if reverse_ then result else reverse result.

(** The [while (pos !== this.head)] loop of [drainSince].  [fuel] bounds
    the number of iterations; [None] means the bound was reached with the
    loop still running. *)
Fixpoint drainSince_loop (rb : t A) (fuel pos : nat) : option (list A) :=
  if bool_decide (pos = head rb) then Some []
  else
    match fuel with
    | O => None
    | S fuel' =>
        rest ← drainSince_loop rb fuel' ((pos + 1) mod capacity rb);
        Some (match mjoin (buffer rb !! pos) with
              | Some item => item :: rest
              | None => rest
              end)
    end.

(** [drainSince(lastHead)].  A cursor and a head inside the buffer are at
    most [capacity - 1] steps apart, so [capacity] iterations are
    enough. *)
Definition drainSince (rb : t A) (lastHead : nat) : option (list A) :=
  if bool_decide (lastHead = head rb) then Some []
  else drainSince_loop rb (capacity rb) lastHead.

Definition getHead (rb : t A) : nat := head rb.
Definition getSize (rb : t A) : nat := size rb.

(** [clear()] resets the indices and leaves the slots as they are. *)
Definition clear (rb : t A) : t A :=
  {| capacity := capacity rb; buffer := buffer rb; head := 0; size := 0 |}.

(** The shape every buffer built by [create] with a positive capacity
    keeps under [push] and [clear]. *)
Definition wf (rb : t A) : Prop :=
  (0 < capacity rb)%nat ∧ length (buffer rb) = capacity rb
  ∧ (head rb < capacity rb)%nat.

End ops.

End RingBuffer.

(** ** The order book ([aggregation.js], [DomBuilder]) *)

Inductive BookSide := bid | ask.

Global Instance BookSide_eq_dec : EqDecision BookSide.
Proof. solve_decision. Defined.

Module DomBuilder.

Inductive Change := added | removed | modified | unchanged.

Global Instance Change_eq_dec : EqDecision Change.
Proof. solve_decision. Defined.

(** An entry of a snapshot.  The entries of [pulledBids] and [pulledAsks]
    have no [prevSize] field; they carry [None] here. *)
Record DomLevel := mkLevel {
  dl_price : Qc;
  dl_size : Qc;
  dl_side : BookSide;
  change : Change;
  prevSize : option Qc
}.

Global Instance DomLevel_eq_dec : EqDecision DomLevel.
Proof. solve_decision. Defined.

Record Snapshot := mkSnapshot {
  s_bids : list DomLevel;
  s_asks : list DomLevel;
  stackedBids : list DomLevel;
  stackedAsks : list DomLevel;
  pulledBids : list DomLevel;
  pulledAsks : list DomLevel;
  bestBid : option Qc;
  bestAsk : option Qc;
  spread : option Qc
}.

Record t := mk {
  maxLevels : nat;
  bids : gmap Qc Qc;   (* price -> size *)
  asks : gmap Qc Qc;
  prevBids : gmap Qc Qc;
  prevAsks : gmap Qc Qc
}.

(** [new DomBuilder(levels)]. *)
Definition create (levels : nat) : t :=
  {| maxLevels := levels; bids := ∅; asks := ∅; prevBids := ∅; prevAsks := ∅ |}.

(** [for (const [price, size] of input) if (size > 0) book.set(price, size)],
    starting from the cleared map. *)
Definition fill (input : list (Qc * Qc)) : gmap Qc Qc :=
  foldl (λ book e, if gtb e.2 0 then <[e.1 := e.2]> book else book) ∅ input.

Definition update (d : t) (bidsIn asksIn : list (Qc * Qc)) : t :=
  {| maxLevels := maxLevels d;
     prevBids := bids d;
     prevAsks := asks d;
     bids := fill bidsIn;
     asks := fill asksIn |}.

(** The comparator of [buildLevels]: bids by descending price, asks by
    ascending price.  [before sd a b] says that [a] may stand before [b]. *)
Definition before (sd : BookSide) (a b : Qc * Qc) : Prop :=
  match sd with
  | bid => b.1 ≤ a.1
  | ask => a.1 ≤ b.1
  end.

Global Instance before_dec sd a b : Decision (before sd a b).
Proof. destruct sd; simpl; apply _. Defined.

Definition classify (size : Qc) (prevSize : option Qc) : Change :=
  match prevSize with
  | None => added
  | Some ps =>
      if gtb size ps then modified
      else if ltb size ps then modified
      else unchanged
  end.

Definition buildLevels (maxLevels : nat) (cur prev : gmap Qc Qc)
    (sd : BookSide) : list DomLevel :=
  let entries := take maxLevels (merge_sort (before sd) (map_to_list cur)) in
  (λ e, let prevSize := prev !! e.1 in
        {| dl_price := e.1; dl_size := e.2; dl_side := sd;
           change := classify e.2 prevSize; prevSize := prevSize |})
    <$> entries.

(** Three times the mean size over both sides; [100] on an empty book. *)
Definition _calcLargeThreshold (d : t) : Qc :=
  let allSizes := (snd <$> map_to_list (bids d)) ++ (snd <$> map_to_list (asks d)) in
  if bool_decide (length allSizes = 0%nat) then num 100 1
  else
    let mean := sum_list allSizes / Qc_of_Z (Z.of_nat (length allSizes)) in
    mean * num 3 1.

Definition stacked (largeThreshold : Qc) (ls : list DomLevel) : list DomLevel :=
  filter (λ l, largeThreshold ≤ dl_size l ∧ change l ≠ removed) ls.

Definition pulled (largeThreshold : Qc) (prev cur : gmap Qc Qc)
    (sd : BookSide) : list DomLevel :=
  (λ e, {| dl_price := e.1; dl_size := e.2; dl_side := sd;
           change := removed; prevSize := None |})
    <$> filter (λ e, largeThreshold ≤ e.2 ∧ cur !! e.1 = None) (map_to_list prev).

Definition snapshot (d : t) : Snapshot :=
  let bs := buildLevels (maxLevels d) (bids d) (prevBids d) bid in
  let as_ := buildLevels (maxLevels d) (asks d) (prevAsks d) ask in
  (* Stacked/pulled heuristics *)
  let largeThreshold := _calcLargeThreshold d in
  {| s_bids := bs;
     s_asks := as_;
     stackedBids := stacked largeThreshold bs;
     stackedAsks := stacked largeThreshold as_;
     pulledBids := pulled largeThreshold (prevBids d) (bids d) bid;
     pulledAsks := pulled largeThreshold (prevAsks d) (asks d) ask;
     bestBid := dl_price <$> head bs;
     bestAsk := dl_price <$> head as_;
     spread := match head bs, head as_ with
               | Some b, Some a => Some (dl_price a - dl_price b)
               | _, _ => None
               end |}.

(** The maps and the snapshot lists of one side of the book. *)
Definition book (sd : BookSide) (d : t) : gmap Qc Qc :=
  match sd with bid => bids d | ask => asks d end.

Definition prevBook (sd : BookSide) (d : t) : gmap Qc Qc :=
  match sd with bid => prevBids d | ask => prevAsks d end.

Definition view (sd : BookSide) (s : Snapshot) : list DomLevel :=
  match sd with bid => s_bids s | ask => s_asks s end.

Definition pulledOf (sd : BookSide) (s : Snapshot) : list DomLevel :=
  match sd with bid => pulledBids s | ask => pulledAsks s end.


(** The input of one side of an update. *)
Definition input (sd : BookSide) (bidsIn asksIn : list (Qc * Qc))
  : list (Qc * Qc) :=
  match sd with bid => bidsIn | ask => asksIn end.

(** The rank order of a view: a better price stands strictly before a worse
    one, bids from the highest price down, asks from the lowest price up. *)
Definition better (sd : BookSide) (a b : DomLevel) : Prop :=
  match sd with
  | bid => dl_price b < dl_price a
  | ask => dl_price a < dl_price b
  end.

(** [p] is the best price of a book side: present, and no price of the side
    is better. *)
Definition best_of (sd : BookSide) (m : gmap Qc Qc) (p : Qc) : Prop :=
  is_Some (m !! p)
  ∧ ∀ q, is_Some (m !! q) →
         match sd with bid => q ≤ p | ask => p ≤ q end.

(** The best prices of a snapshot, by side. *)
Definition bestOf (sd : BookSide) (s : Snapshot) : option Qc :=
  match sd with bid => bestBid s | ask => bestAsk s end.

End DomBuilder.

(** ** Footprint bars ([aggregation.js], [FootprintAggregator]) *)

Module FootprintAggregator.

Record Level := mkLevel {
  bidVol : Qc;
  askVol : Qc;
  delta : Qc
}.

Record Imbalance := mkImbalance {
  i_price : Qc;
  ratio : Qc;
  i_side : BookSide
}.

Global Instance Level_eq_dec : EqDecision Level.
Proof. solve_decision. Defined.

Global Instance Imbalance_eq_dec : EqDecision Imbalance.
Proof. solve_decision. Defined.

Record Bar := mkBar {
  openTs : Z;
  closeTs : Z;
  open : Qc;
  high : Qc;
  low : Qc;
  close : Qc;
  totalVolume : Qc;
  totalDelta : Qc;
  totalBidVol : Qc;
  totalAskVol : Qc;
  levels : gmap Qc Level;   (* price -> {bidVol, askVol, delta} *)
  imbalances : list Imbalance
}.

Record t := mk {
  barDurationMs : Z;
  tickSize : Qc;
  imbalanceRatio : Qc;
  currentBar : option Bar;
  completedBars : list Bar;
  maxBars : nat
}.

(** [new FootprintAggregator(barDurationMs, tickSize, imbalanceRatio)]. *)
Definition create (barDurationMs : Z) (tickSize imbalanceRatio : Qc) : t :=
  {| barDurationMs := barDurationMs; tickSize := tickSize;
     imbalanceRatio := imbalanceRatio; currentBar := None;
     completedBars := []; maxBars := 100 |}.

Definition _newBar (fa : t) (ts : Z) (price : Qc) : Bar :=
  let barOpen := bucket ts (barDurationMs fa) in
  {| openTs := barOpen;
     closeTs := (barOpen + barDurationMs fa)%Z;
     open := price; high := price; low := price; close := price;
     totalVolume := 0; totalDelta := 0; totalBidVol := 0; totalAskVol := 0;
     levels := ∅;
     imbalances := [] |}.

Definition _roundToTick (fa : t) (price : Qc) : Qc :=
  Qc_of_Z (Math_round (price / tickSize fa)) * tickSize fa.

(** A quotient [a / b] as the machine computes it, made partial: a zero
    divisor is a fault ([None]).  Every division of [_finalizeBar] goes
    through it, so a [_finalizeBar] that answers [Some] has divided by
    non-zero numbers only. *)
Definition divide (a b : Qc) : option Qc :=
  if bool_decide (b = 0) then None else Some (a / b).

(** The body of the [for] loop of [_finalizeBar] for one adjacent pair:
    the imbalances it pushes, in order. *)
Definition pair_imbalances (fa : t) (lowerPrice upperPrice : Qc)
    (lower upper : Level) : option (list Imbalance) :=
  first ←
    (if gtb (bidVol upper) 0 then
       r ← divide (askVol lower) (bidVol upper);
       if geb r (imbalanceRatio fa) then
         r' ← divide (askVol lower) (bidVol upper);
         Some [ {| i_price := lowerPrice; ratio := r'; i_side := ask |} ]
       else Some []
     else Some []);
  second ←
    (if gtb (askVol lower) 0 then
       r ← divide (bidVol upper) (askVol lower);
       if geb r (imbalanceRatio fa) then
         r' ← divide (bidVol upper) (askVol lower);
         Some [ {| i_price := upperPrice; ratio := r'; i_side := bid |} ]
       else Some []
     else Some []);
  Some (first ++ second).

(** The loop over [i = 0 .. prices.length - 2], on the sorted prices. *)
Fixpoint scan (fa : t) (lv : gmap Qc Level) (prices : list Qc)
    : option (list Imbalance) :=
  match prices with
  | p :: ((p' :: _) as rest) =>
      here ←
        match lv !! p, lv !! p' with
        | Some lower, Some upper => pair_imbalances fa p p' lower upper
        | _, _ => Some []   (* if (!lower || !upper) continue *)
        end;
      later ← scan fa lv rest;
      Some (here ++ later)
  | _ => Some []
  end.

(** [[...bar.levels.keys()].sort((a, b) => a - b)]. *)
Definition sorted_prices (lv : gmap Qc Level) : list Qc :=
  merge_sort Qcle (fst <$> map_to_list lv).

Definition with_imbalances (bar : Bar) (imbs : list Imbalance) : Bar :=
  {| openTs := openTs bar; closeTs := closeTs bar; open := open bar;
     high := high bar; low := low bar; close := close bar;
     totalVolume := totalVolume bar; totalDelta := totalDelta bar;
     totalBidVol := totalBidVol bar; totalAskVol := totalAskVol bar;
     levels := levels bar; imbalances := imbs |}.

Definition _finalizeBar (fa : t) (bar : Bar) : option Bar :=
  imbs ← scan fa (levels bar) (sorted_prices (levels bar));
  Some (with_imbalances bar imbs).

(** [_serializeBar] copies the bar and turns the [levels] map into a plain
    object with the same entries; on the model it is the identity. *)
Definition _serializeBar (bar : Bar) : Bar := bar.

(** The bar rotation at the head of [ingest]. *)
Definition rotate (fa : t) (ts : Z) (price : Qc) : option t :=
  let barTs := bucket ts (barDurationMs fa) in
  match currentBar fa with
  | Some cb =>
      if bool_decide (openTs cb ≠ barTs) then
        fin ← _finalizeBar fa cb;
        Some {| barDurationMs := barDurationMs fa; tickSize := tickSize fa;
                imbalanceRatio := imbalanceRatio fa;
                currentBar := Some (_newBar fa ts price);
                completedBars :=
                  push_capped (maxBars fa) (completedBars fa) (_serializeBar fin);
                maxBars := maxBars fa |}
      else Some fa
  | None =>
      Some {| barDurationMs := barDurationMs fa; tickSize := tickSize fa;
              imbalanceRatio := imbalanceRatio fa;
              currentBar := Some (_newBar fa ts price);
              completedBars := completedBars fa;
              maxBars := maxBars fa |}
  end.

(** The update of one level by a trade of the given side and size. *)
Definition add_to_level (level : Level) (sd : Side) (size : Qc) : Level :=
  match sd with
  | buy => {| bidVol := bidVol level; askVol := askVol level + size;
              delta := delta level + size |}
  | sell => {| bidVol := bidVol level + size; askVol := askVol level;
               delta := delta level - size |}
  | unknown =>
      (* Unknown: split evenly *)
      {| bidVol := bidVol level + size / 2; askVol := askVol level + size / 2;
         delta := delta level |}
  end.

(** The part of [ingest] after the rotation: the tick lands in [bar]. *)
Definition add_to_bar (fa : t) (bar : Bar) (tick : Tick) : Bar :=
  let roundedPrice := _roundToTick fa (price tick) in
  let level := default {| bidVol := 0; askVol := 0; delta := 0 |}
                       (levels bar !! roundedPrice) in
  let sz := size tick in
  {| openTs := openTs bar; closeTs := closeTs bar; open := open bar;
     high := if gtb (price tick) (high bar) then price tick else high bar;
     low := if ltb (price tick) (low bar) then price tick else low bar;
     close := price tick;
     totalVolume := totalVolume bar + sz;
     totalDelta := match side tick with
                   | buy => totalDelta bar + sz
                   | sell => totalDelta bar - sz
                   | unknown => totalDelta bar
                   end;
     totalBidVol := match side tick with
                    | buy => totalBidVol bar
                    | sell => totalBidVol bar + sz
                    | unknown => totalBidVol bar + sz / 2
                    end;
     totalAskVol := match side tick with
                    | buy => totalAskVol bar + sz
                    | sell => totalAskVol bar
                    | unknown => totalAskVol bar + sz / 2
                    end;
     levels := <[roundedPrice := add_to_level level (side tick) sz]> (levels bar);
     imbalances := imbalances bar |}.

Definition ingest (fa : t) (tick : Tick) : option t :=
  fa' ← rotate fa (ts tick) (price tick);
  bar ← currentBar fa';
  Some {| barDurationMs := barDurationMs fa'; tickSize := tickSize fa';
          imbalanceRatio := imbalanceRatio fa';
          currentBar := Some (add_to_bar fa' bar tick);
          completedBars := completedBars fa';
          maxBars := maxBars fa' |}.

(** [getCurrentBar()]: finalizes the current bar in place and returns its
    serialization. *)
Definition getCurrentBar (fa : t) : option (option Bar * t) :=
  match currentBar fa with
  | None => Some (None, fa)
  | Some cb =>
      fin ← _finalizeBar fa cb;
      Some (Some (_serializeBar fin),
            {| barDurationMs := barDurationMs fa; tickSize := tickSize fa;
               imbalanceRatio := imbalanceRatio fa; currentBar := Some fin;
               completedBars := completedBars fa; maxBars := maxBars fa |})
  end.

Definition getCompletedBars (fa : t) (n : nat) : list Bar :=
  match n with
  | O => completedBars fa   (* slice(-0) *)
  | _ => slice_last n (completedBars fa)
  end.

Definition setBarDuration (fa : t) (ms : Z) : t :=
  {| barDurationMs := ms; tickSize := tickSize fa;
     imbalanceRatio := imbalanceRatio fa; currentBar := None;
     completedBars := completedBars fa; maxBars := maxBars fa |}.

(** Ingesting a sequence of ticks, one after the other. *)
Definition ingest_all (fa : t) (ticks : list Tick) : option t :=
  foldl (λ st tick, st ≫= λ fa', ingest fa' tick) (Some fa) ticks.





(** The bar [_finalizeBar] makes of a bar (the bar itself, should
    [_finalizeBar] fault). *)
Definition finalized (fa : t) (bar : Bar) : Bar :=
  default bar (_finalizeBar fa bar).

(** The completed bars after a tick: unchanged while the tick stays in the
    bucket of the current bar, one more (the current bar, finalized) when it
    leaves it. *)
Definition completed_after (fa : t) (tick : Tick) : list Bar :=
  match currentBar fa with
  | Some cb =>
      if bool_decide (openTs cb = bucket (ts tick) (barDurationMs fa))
      then completedBars fa
      else push_capped (maxBars fa) (completedBars fa) (finalized fa cb)
  | None => completedBars fa
  end.

(** Two aggregators that differ at most in the imbalances stored in their
    current bar, the field [_finalizeBar] recomputes. *)
Definition similar (fa fa' : t) : Prop :=
  (barDurationMs fa, tickSize fa, imbalanceRatio fa, maxBars fa,
   completedBars fa)
  = (barDurationMs fa', tickSize fa', imbalanceRatio fa', maxBars fa',
     completedBars fa')
  ∧ (λ b, with_imbalances b []) <$> currentBar fa
    = (λ b, with_imbalances b []) <$> currentBar fa'.

(** The sum of one volume over the levels of a bar. *)
Definition sum_levels (f : Level → Qc) (lv : gmap Qc Level) : Qc :=
  map_fold (λ _ level acc, acc + f level) 0 lv.

(** What [getCurrentBar()] returns after the given ticks were ingested. *)
Definition bar_after (fa : t) (ticks : list Tick) : option Bar :=
  fa' ← ingest_all fa ticks;
  out ← getCurrentBar fa';
  out.1.

(** The bar invariants.  A level is consistent when its delta is the ask
    volume minus the bid volume. *)
Definition level_ok (l : Level) : Prop := delta l = askVol l - bidVol l.

(** The prices of a bar are all inside its range. *)
Definition ohlc_ok (b : Bar) : Prop :=
  low b ≤ open b ∧ open b ≤ high b ∧ low b ≤ close b ∧ close b ≤ high b.

(** The bars an aggregator holds: the current one and the completed
    ones. *)
Definition bar_of (fa : t) (b : Bar) : Prop :=
  currentBar fa = Some b ∨ b ∈ completedBars fa.

(** The invariant carried through [ingest]. *)
Definition bar_inv (b : Bar) : Prop :=
  map_Forall (λ _ l, level_ok l) (levels b)
  ∧ totalDelta b = totalAskVol b - totalBidVol b
  ∧ ohlc_ok b.

Definition inv (fa : t) : Prop := ∀ b, bar_of fa b → bar_inv b.

(** The bar a tick lands in: the current bar when the tick belongs to its
    bucket, a new bar opened by the tick otherwise. *)
Definition landing_bar (fa : t) (tick : Tick) : Bar :=
  match currentBar fa with
  | Some cb =>
      if bool_decide (openTs cb = bucket (ts tick) (barDurationMs fa))
      then cb else _newBar fa (ts tick) (price tick)
  | None => _newBar fa (ts tick) (price tick)
  end.


End FootprintAggregator.

(** ** Cumulative volume delta ([aggregation.js], [CvdCalculator]) *)

Module CvdCalculator.

Record Point := mkPoint {
  p_ts : Z;
  p_cvd : Qc;
  barDelta : Qc
}.

Global Instance Point_eq_dec : EqDecision Point.
Proof. solve_decision. Defined.

Record t := mk {
  sessionCvd : Qc;
  barCvd : Qc;
  history : list Point;   (* last 500 points *)
  maxHistory : nat;
  sessionStart : Z;
  currentBarTs : option Z;
  barDurationMs : Z
}.

(** [new CvdCalculator()], built at time [now]. *)
Definition create (now : Z) : t :=
  {| sessionCvd := 0; barCvd := 0; history := []; maxHistory := 500;
     sessionStart := now; currentBarTs := None; barDurationMs := 60000 |}.

(** The signed size of a tick: the [delta] of [ingest]. *)
Definition tick_delta (tick : Tick) : Qc :=
  match side tick with
  | buy => size tick
  | sell => - size tick
  | unknown => 0
  end.

Definition ingest (c : t) (tick : Tick) : Point * t :=
  let delta := tick_delta tick in
  let sessionCvd' := sessionCvd c + delta in
  let barTs := bucket (ts tick) (barDurationMs c) in
  let rolled := bool_decide (currentBarTs c ≠ Some barTs) in
  let currentBarTs' := if rolled then Some barTs else currentBarTs c in
  let barCvd' := (if rolled then 0 else barCvd c) + delta in
  let point := {| p_ts := ts tick; p_cvd := sessionCvd'; barDelta := barCvd' |} in
  (point,
   {| sessionCvd := sessionCvd';
      barCvd := barCvd';
      history := push_capped (maxHistory c) (history c) point;
      maxHistory := maxHistory c;
      sessionStart := sessionStart c;
      currentBarTs := currentBarTs';
      barDurationMs := barDurationMs c |}).

(** [resetSession()], called at time [now]. *)
Definition resetSession (c : t) (now : Z) : t :=
  {| sessionCvd := 0;
     barCvd := barCvd c;
     history := [];
     maxHistory := maxHistory c;
     sessionStart := now;
     currentBarTs := currentBarTs c;
     barDurationMs := barDurationMs c |}.

Definition getHistory (c : t) (n : nat) : list Point :=
  match n with
  | O => history c   (* slice(-0) *)
  | _ => slice_last n (history c)
  end.

(** Ingesting a sequence of ticks, one after the other. *)
Definition ingest_all (c : t) (ticks : list Tick) : t :=
  foldl (λ c' tick, (ingest c' tick).2) c ticks.

(** The points a run of [ingest] calls returns, one per tick. *)
Fixpoint ingest_points (c : t) (ticks : list Tick) : list Point :=
  match ticks with
  | [] => []
  | tick :: rest => (ingest c tick).1 :: ingest_points (ingest c tick).2 rest
  end.

End CvdCalculator.

(** ** Tape metrics ([aggregation.js], [MetricsCalculator]) *)

Module MetricsCalculator.

Record Absorption := mkAbsorption {
  totalVol : Qc;
  priceRange : Qc;
  a_ts : Z
}.

Record Result := mkResult {
  r_tapeSpeed : nat;
  isLarge : bool;
  absorption : option Absorption
}.

Record t := mk {
  largePrintThreshold : Qc;
  absorptionWindow : Z;   (* ms *)
  speedWindow : Z;        (* 1 second for prints/sec *)
  recentTrades : list Tick;
  tapeSpeed : nat;
  absorptionEvents : list Absorption
}.

(** [new MetricsCalculator(config)]; an absent field of [config] is [None]. *)
Definition create (largePrintThreshold : option Qc) (absorptionWindow : option Z) : t :=
  {| largePrintThreshold := default (num 50 1) largePrintThreshold;
     absorptionWindow := default 5000%Z absorptionWindow;
     speedWindow := 1000;
     recentTrades := [];
     tapeSpeed := 0;
     absorptionEvents := [] |}.

(** The absorption proxy of [ingest], on the buffer as it is after the
    push. *)
Definition detect (m : t) (recent : list Tick) (now : Z) : option Absorption :=
  if bool_decide (10 ≤ length recent)%nat then
    let window := slice_last 20 recent in
    let totalVol := sum_list (size <$> window) in
    let priceRange := Math_max (price <$> window) - Math_min (price <$> window) in
    if ltb priceRange (2 * num 1 4) && gtb totalVol (largePrintThreshold m * num 5 1)
    then Some {| totalVol := totalVol; priceRange := priceRange; a_ts := now |}
    else None
  else None.

Definition ingest (m : t) (tick : Tick) : Result * t :=
  let now := ts tick in
  (* Clean old entries *)
  let speedCutoff := (now - speedWindow m)%Z in
  let absCutoff := (now - absorptionWindow m)%Z in
  let recent :=
    filter (λ t, (absCutoff < ts t)%Z) (recentTrades m)
    ++ [ {| ts := now; price := price tick; size := size tick; side := side tick |} ] in
  (* Tape speed: prints in last second *)
  let speed := length (filter (λ t, (speedCutoff < ts t)%Z) recent) in
  (* Large print detection *)
  let large := geb (size tick) (largePrintThreshold m) in
  ({| r_tapeSpeed := speed; isLarge := large; absorption := detect m recent now |},
   {| largePrintThreshold := largePrintThreshold m;
      absorptionWindow := absorptionWindow m;
      speedWindow := speedWindow m;
      recentTrades := recent;
      tapeSpeed := speed;
      absorptionEvents := absorptionEvents m |}).

(** Ingesting a sequence of ticks; the result is that of the last one. *)
Definition ingest_all (m : t) (ticks : list Tick) : option Result * t :=
  foldl (λ acc tick, let '(r, m') := ingest acc.2 tick in (Some r, m'))
        (None, m) ticks.

End MetricsCalculator.

(** Ten prints of size 30 within one second, alternating between 100 and
    100.5: a price range of exactly two ticks of 0.25 and a volume of 300,
    above five times the default large-print threshold of 50. *)
Definition boundary_tape : list Tick :=
  (λ i : nat, {| ts := 1000 + Z.of_nat i;
                 price := if Nat.even i then num 100 1 else num 201 2;
                 size := num 30 1; side := buy |})
    <$> seq 0 10.

(** ** Alerts ([aggregation.js], [AlertEvaluator]) *)

Module AlertEvaluator.

Record Config := mkConfig {
  deltaThreshold : Qc;
  largePrintSize : Qc;
  tapeSpeedThreshold : Qc;
  domImbalanceRatio : Qc
}.

Inductive Severity := low | medium | high.

Inductive AlertData :=
| LargePrint (price size : Qc) (side : Side)
| Delta (cvd : Qc)
| Speed (speed : nat)
| DomImbalance (ratio : Qc) (side : BookSide).

(** An alert.  Its [id] (a fresh uuid) and its [message] (a formatted
    string) are left out. *)
Record Alert := mkAlert {
  a_type : string;
  a_ts : Z;
  severity : Severity;
  data : AlertData
}.

Record t := mk {
  config : Config;
  recentAlerts : gmap string Z;   (* type -> last ts (throttle) *)
  throttleMs : Z
}.

(** [new AlertEvaluator(config)] with every field of [config] given or
    defaulted. *)
Definition create (deltaThreshold largePrintSize tapeSpeedThreshold
    domImbalanceRatio : option Qc) : t :=
  {| config :=
       {| deltaThreshold := default (num 500 1) deltaThreshold;
          largePrintSize := default (num 50 1) largePrintSize;
          tapeSpeedThreshold := default (num 30 1) tapeSpeedThreshold;
          domImbalanceRatio := default (num 5 1) domImbalanceRatio |};
     recentAlerts := ∅;
     throttleMs := 3000 |}.

(** The argument of [evaluate]. *)
Record Context := mkContext {
  c_tick : Tick;
  cvdPoint : option CvdCalculator.Point;
  metrics : option MetricsCalculator.Result;
  dom : option DomBuilder.Snapshot
}.

(** [!last]: no entry, or the entry [0]. *)
Definition no_last (last : option Z) : bool :=
  match last with
  | None => true
  | Some l => bool_decide (l = 0%Z)
  end.

Definition _canAlert (ae : t) (type : string) (now : Z) : bool * t :=
  let last := recentAlerts ae !! type in
  if no_last last || bool_decide (throttleMs ae < now - default 0%Z last)%Z then
    (true, {| config := config ae;
              recentAlerts := <[type := now]> (recentAlerts ae);
              throttleMs := throttleMs ae |})
  else (false, ae).

Definition _makeAlert (type : string) (sev : Severity) (d : AlertData)
    (now : Z) : Alert :=
  {| a_type := type; a_ts := now; severity := sev; data := d |}.

(** [dom.bids[0]?.size ?? 0]. *)
Definition bestSize (ls : list DomBuilder.DomLevel) : Qc :=
  default 0 (DomBuilder.dl_size <$> head ls).

Definition domRatio (d : DomBuilder.Snapshot) : Qc :=
  let b := bestSize (DomBuilder.s_bids d) in
  let a := bestSize (DomBuilder.s_asks d) in
  if gtb (b / a) (a / b) then b / a else a / b.

(** The condition that stands before [this._canAlert(type)] in each of the
    four checks of [evaluate]: whether the evaluation qualifies for an
    alert of that type. *)
Definition qualifies (ae : t) (ctx : Context) (type : string) : bool :=
  if bool_decide (type = "large_print") then
    default false (MetricsCalculator.isLarge <$> metrics ctx)
  else if bool_decide (type = "delta_threshold") then
    match cvdPoint ctx with
    | Some p => geb (Math_abs (CvdCalculator.p_cvd p)) (deltaThreshold (config ae))
    | None => false
    end
  else if bool_decide (type = "tape_speed") then
    match metrics ctx with
    | Some m => geb (Qc_of_Z (Z.of_nat (MetricsCalculator.r_tapeSpeed m)))
                    (tapeSpeedThreshold (config ae))
    | None => false
    end
  else if bool_decide (type = "dom_imbalance") then
    match dom ctx with
    | Some d =>
        gtb (bestSize (DomBuilder.s_bids d)) 0
        && gtb (bestSize (DomBuilder.s_asks d)) 0
        && geb (domRatio d) (domImbalanceRatio (config ae))
    | None => false
    end
  else false.

(** The alert each check pushes when it fires. *)
Definition alert_of (ctx : Context) (type : string) (now : Z) : Alert :=
  let tick := c_tick ctx in
  if bool_decide (type = "large_print") then
    _makeAlert type high (LargePrint (price tick) (size tick) (side tick)) now
  else if bool_decide (type = "delta_threshold") then
    _makeAlert type medium
      (Delta (default 0 (CvdCalculator.p_cvd <$> cvdPoint ctx))) now
  else if bool_decide (type = "tape_speed") then
    _makeAlert type medium
      (Speed (default 0%nat (MetricsCalculator.r_tapeSpeed <$> metrics ctx))) now
  else
    let ratio := default 0 (domRatio <$> dom ctx) in
    let bidHeavy :=
      match dom ctx with
      | Some d => gtb (bestSize (DomBuilder.s_bids d)) (bestSize (DomBuilder.s_asks d))
      | None => false
      end in
    _makeAlert type low (DomImbalance ratio (if bidHeavy then bid else ask)) now.

(** One check: [if (<qualifies> && this._canAlert(type)) alerts.push(...)].
    [_canAlert] is not called when the condition before it is false. *)
Definition check (ctx : Context) (now : Z) (type : string)
    (acc : list Alert * t) : list Alert * t :=
  let '(alerts, ae) := acc in
  if qualifies ae ctx type then
    let '(ok, ae') := _canAlert ae type now in
    if ok then (alerts ++ [alert_of ctx type now], ae') else (alerts, ae')
  else (alerts, ae).

(** The four checks, in the order of the source. *)
Definition alert_types : list string :=
  ["large_print"; "delta_threshold"; "tape_speed"; "dom_imbalance"].

Definition evaluate (ae : t) (ctx : Context) (now : Z) : list Alert * t :=
  check ctx now "dom_imbalance"
    (check ctx now "tape_speed"
      (check ctx now "delta_threshold"
        (check ctx now "large_print" ([], ae)))).

Definition updateConfig (ae : t) (cfg : Config) : t :=
  {| config := cfg; recentAlerts := recentAlerts ae; throttleMs := throttleMs ae |}.

(** A run of evaluations, each at its own time; the alerts of each call
    are collected call by call. *)
Fixpoint run (ae : t) (calls : list (Context * Z)) : list (list Alert) * t :=
  match calls with
  | [] => ([], ae)
  | (ctx, now) :: rest =>
      let '(alerts, ae') := evaluate ae ctx now in
      let '(outs, ae'') := run ae' rest in
      (alerts :: outs, ae'')
  end.

(** Whether a list of alerts holds one of the given type. *)
Definition fired (type : string) (alerts : list Alert) : bool :=
  bool_decide (Exists (λ a, a_type a = type) alerts).

(** Whether [_canAlert(type)] would answer [true] at time [now]. *)
Definition window_open (ae : t) (type : string) (now : Z) : bool :=
  no_last (recentAlerts ae !! type)
  || bool_decide (throttleMs ae < now - default 0%Z (recentAlerts ae !! type))%Z.

(** A sequence of checks, one after the other. *)
Definition checks (ctx : Context) (now : Z) (types : list string)
    (acc : list Alert * t) : list Alert * t :=
  foldl (λ acc type, check ctx now type acc) acc types.

End AlertEvaluator.

(** ** Replay *)

(** How a method call ends: it returns a value, or it throws an [Error] with
    a message. *)
Inductive Outcome (A : Type) :=
| Returned (a : A)
| Thrown (message : string).
Global Arguments Returned {A}.
Global Arguments Thrown {A}.

(** *** The replay engine of [storage/storage.js] *)

Module StorageReplayEngine.

Record t := mk {
  _timer : option Qc;   (* the delay of the pending timeout, if any *)
  _ticks : list Tick;
  _pos : nat;
  _speed : Qc;
  _playing : bool;
  _startRealTs : Z;
  _startTickTs : Z
}.

Section methods.
(** The collaborators handed to the constructor: the range query of the
    storage and the [onTick] callback, which acts on the consumer's
    state [W]. *)
Context {W : Type}.
Variable getTicksInRange : string → Z → Z → list Tick.
Variable onTick : Tick → W → W.

(** [new ReplayEngine(storage, onTick)]. *)
Definition create : t :=
  {| _timer := None; _ticks := []; _pos := 0; _speed := 1;
     _playing := false; _startRealTs := 0; _startTickTs := 0 |}.

(** [load(symbol, startTs, endTs)] returns the number of ticks loaded. *)
Definition load (r : t) (symbol : string) (startTs endTs : Z) : nat * t :=
  let ticks := getTicksInRange symbol startTs endTs in
  (length ticks,
   {| _timer := _timer r; _ticks := ticks; _pos := 0; _speed := _speed r;
      _playing := false; _startRealTs := _startRealTs r;
      _startTickTs := _startTickTs r |}).

Definition set_playing (r : t) (b : bool) : t :=
  {| _timer := _timer r; _ticks := _ticks r; _pos := _pos r;
     _speed := _speed r; _playing := b; _startRealTs := _startRealTs r;
     _startTickTs := _startTickTs r |}.

(** [_scheduleNext()]: delivers the tick under the cursor and arms the
    timer for the next one. *)
Definition _scheduleNext (r : t) (w : W) : t * W :=
  if negb (_playing r) || bool_decide (length (_ticks r) ≤ _pos r)%nat then
    if bool_decide (length (_ticks r) ≤ _pos r)%nat
    then (set_playing r false, w)
    else (r, w)
  else
    match _ticks r !! _pos r with
    | None => (r, w)   (* not reached: the cursor is inside the list *)
    | Some tick =>
        match _ticks r !! (_pos r + 1)%nat with
        | None =>
            ({| _timer := _timer r; _ticks := _ticks r; _pos := S (_pos r);
                _speed := _speed r; _playing := false;
                _startRealTs := _startRealTs r;
                _startTickTs := _startTickTs r |},
             onTick tick w)
        | Some nextTick =>
            let d := Qc_of_Z (ts nextTick - ts tick) / _speed r in
            let delay := if gtb d 0 then d else 0 in
            ({| _timer := Some (if ltb delay (num 5000 1) then delay
                                else num 5000 1);
                _ticks := _ticks r; _pos := S (_pos r);
                _speed := _speed r; _playing := _playing r;
                _startRealTs := _startRealTs r;
                _startTickTs := _startTickTs r |},
             onTick tick w)
        end
    end.

(** [play(speed)] at time [now]; the method has no [return] value and no
    [throw]. *)
Definition play (r : t) (speed : Qc) (now : Z) (w : W)
    : Outcome unit * t * W :=
  if bool_decide (length (_ticks r) = 0%nat) then (Returned (), r, w)
  else
    let r1 :=
      {| _timer := _timer r; _ticks := _ticks r; _pos := _pos r;
         _speed := speed; _playing := true; _startRealTs := now;
         _startTickTs := default now (ts <$> _ticks r !! _pos r) |} in
    let '(r2, w') := _scheduleNext r1 w in
    (Returned (), r2, w').

Definition pause (r : t) : t :=
  {| _timer := None; _ticks := _ticks r; _pos := _pos r;
     _speed := _speed r; _playing := false;
     _startRealTs := _startRealTs r; _startTickTs := _startTickTs r |}.

Definition stop (r : t) : t :=
  let r' := pause r in
  {| _timer := _timer r'; _ticks := _ticks r'; _pos := 0;
     _speed := _speed r'; _playing := _playing r';
     _startRealTs := _startRealTs r'; _startTickTs := _startTickTs r' |}.

Definition setSpeed (r : t) (speed : Qc) : t :=
  {| _timer := _timer r; _ticks := _ticks r; _pos := _pos r;
     _speed := speed; _playing := _playing r;
     _startRealTs := _startRealTs r; _startTickTs := _startTickTs r |}.

(** The pending timeout elapses: the timer is spent and its callback,
    [() => this._scheduleNext()], runs.  Without a pending timeout nothing
    happens. *)
Definition timer_fires (r : t) (w : W) : t * W :=
  match _timer r with
  | Some _ =>
      _scheduleNext
        {| _timer := None; _ticks := _ticks r; _pos := _pos r;
           _speed := _speed r; _playing := _playing r;
           _startRealTs := _startRealTs r; _startTickTs := _startTickTs r |} w
  | None => (r, w)
  end.

(** The timeouts elapse one after the other, [n] times. *)
Fixpoint timers_fire (n : nat) (r : t) (w : W) : t * W :=
  match n with
  | O => (r, w)
  | S n' => let '(r', w') := timer_fires r w in timers_fire n' r' w'
  end.

(** [play(speed)] at time [now], and then [n] timeouts elapse. *)
Definition replay (r : t) (speed : Qc) (now : Z) (w : W) (n : nat) : t * W :=
  let '(_, r1, w1) := play r speed now w in timers_fire n r1 w1.

(** The consumer after the given ticks were handed to [onTick], in order. *)
Definition delivered (ticks : list Tick) (w : W) : W :=
  foldl (λ w' tick, onTick tick w') w ticks.

(** A replay that is under way or over: it plays, and waits on a timeout,
    exactly while ticks remain. *)
Definition armed (r : t) : Prop :=
  _playing r = bool_decide (_pos r < length (_ticks r))%nat
  ∧ (is_Some (_timer r) ↔ (_pos r < length (_ticks r))%nat).

End methods.

End StorageReplayEngine.

(** *** The replay engine of [engine/ReplayEngine.js] *)

Module ReplayEngine.

Record t := mk {
  running : bool;
  speed : Qc;
  _timer : option Qc;   (* the delay of the pending timeout, if any *)
  _ticks : list Tick;
  _idx : nat
}.

Record PlayResult := mkPlayResult {
  status : string;
  count : nat
}.

Section methods.
(** The collaborators handed to the constructor: the aggregation engine,
    with state [E], and the tick query of the database. *)
Context {E : Type}.
Variable resetSession : E → E.
Variable onTrade : Tick → E → E.
Variable getTicks : string → Z → Z → list Tick.

(** [new ReplayEngine(aggregationEngine, db)]. *)
Definition create : t :=
  {| running := false; speed := 1; _timer := None; _ticks := []; _idx := 0 |}.

(** [load(symbol, fromTs, toTs)]; of the object it resolves to, the
    [count] is kept. *)
Definition load (r : t) (symbol : string) (fromTs toTs : Z) : nat * t :=
  let ticks := getTicks symbol fromTs toTs in
  (length ticks,
   {| running := running r; speed := speed r; _timer := _timer r;
      _ticks := ticks; _idx := 0 |}).

Definition _playNext (r : t) (e : E) : t * E :=
  if negb (running r) || bool_decide (length (_ticks r) ≤ _idx r)%nat then
    ({| running := false; speed := speed r; _timer := _timer r;
        _ticks := _ticks r; _idx := _idx r |}, e)
  else
    match _ticks r !! _idx r with
    | None => (r, e)   (* not reached: the index is inside the list *)
    | Some tick =>
        match _ticks r !! S (_idx r) with
        | Some nextTick =>
            let d := Qc_of_Z (ts nextTick - ts tick) / speed r in
            ({| running := running r; speed := speed r;
                _timer := Some (if gtb d 0 then d else 0);
                _ticks := _ticks r; _idx := S (_idx r) |},
             onTrade tick e)
        | None =>
            ({| running := false; speed := speed r; _timer := _timer r;
                _ticks := _ticks r; _idx := S (_idx r) |},
             onTrade tick e)
        end
    end.

(** [play(speed)]; [speed || 1.0] takes [1] for a missing or zero
    speed. *)
Definition play (r : t) (speed_ : option Qc) (e : E)
    : Outcome PlayResult * t * E :=
  let sp := match speed_ with
            | Some s => if bool_decide (s = 0) then 1 else s
            | None => 1
            end in
  let r0 := {| running := running r; speed := sp; _timer := _timer r;
               _ticks := _ticks r; _idx := _idx r |} in
  if bool_decide (length (_ticks r) = 0%nat)
  then (Thrown "No ticks loaded. Call load() first.", r0, e)
  else
    let r1 := {| running := true; speed := sp; _timer := _timer r;
                 _ticks := _ticks r; _idx := _idx r |} in
    let '(r2, e') := _playNext r1 (resetSession e) in
    (Returned {| status := "playing"; count := length (_ticks r) |}, r2, e').

(** [pause()]; of the object returned, the [idx] is kept. *)
Definition pause (r : t) : nat * t :=
  (_idx r,
   {| running := false; speed := speed r; _timer := None;
      _ticks := _ticks r; _idx := _idx r |}).

(** [stop()]. *)
Definition stop (r : t) : t :=
  {| running := false; speed := speed r; _timer := None;
     _ticks := _ticks r; _idx := 0 |}.

(** The pending timeout elapses: the timer is spent and its callback,
    [() => this._playNext()], runs.  Without a pending timeout nothing
    happens. *)
Definition timer_fires (r : t) (e : E) : t * E :=
  match _timer r with
  | Some _ =>
      _playNext {| running := running r; speed := speed r; _timer := None;
                   _ticks := _ticks r; _idx := _idx r |} e
  | None => (r, e)
  end.

(** The timeouts elapse one after the other, [n] times. *)
Fixpoint timers_fire (n : nat) (r : t) (e : E) : t * E :=
  match n with
  | O => (r, e)
  | S n' => let '(r', e') := timer_fires r e in timers_fire n' r' e'
  end.

(** [play(speed)], and then [n] timeouts elapse. *)
Definition replay (r : t) (speed_ : option Qc) (e : E) (n : nat) : t * E :=
  let '(_, r1, e1) := play r speed_ e in timers_fire n r1 e1.

(** The engine after the given ticks were handed to [onTrade], in order. *)
Definition delivered (ticks : list Tick) (e : E) : E :=
  foldl (λ e' tick, onTrade tick e') e ticks.

(** A replay that is under way or over: it runs, and waits on a timeout,
    exactly while ticks remain. *)
Definition armed (r : t) : Prop :=
  running r = bool_decide (_idx r < length (_ticks r))%nat
  ∧ (is_Some (_timer r) ↔ (_idx r < length (_ticks r))%nat).

End methods.

End ReplayEngine.

(** ** The arithmetic of doubles

    The sums and quotients of the code are IEEE 754 binary64 operations:
    each [+], [-], [*] and [/] yields the double nearest to the exact
    result, a tie going to the even significand.  [Binary64] gives this
    rounding on the rationals, with the subnormal range; a result beyond the
    largest double, where the machine answers with an infinity, is not
    modelled.  The quotients compared with a threshold stand under a guard
    that excludes the zero divisor.  Comparisons are exact. *)

Module Binary64.

(** [floor(log2 a)] for a positive rational [a]. *)
Definition ilog2 (a : Q) : Z :=
  let l := (Z.log2 (Qnum a) - Z.log2 (Zpos (Qden a)))%Z in
  if Qle_bool (2 ^ l)%Q a then l else (l - 1)%Z.

(** The nearest integer, a tie going to the even one. *)
Definition nearest_even (q : Q) : Z :=
  let f := Qfloor q in
  match Qcompare (q - inject_Z f)%Q (1 # 2)%Q with
  | Lt => f
  | Gt => (f + 1)%Z
  | Eq => if Z.even f then f else (f + 1)%Z
  end.

(** The exponent of the last place of a double near [x]: 52 binary places
    below the leading one, and never below [2^-1074]. *)
Definition scale (x : Q) : Z := Z.max (ilog2 (Qabs x) - 52) (-1074).

(** The double nearest to the rational [x]. *)
Definition round (x : Q) : Q :=
  if Qeq_bool x 0 then 0%Q
  else (inject_Z (nearest_even (x / 2 ^ scale x)%Q) * 2 ^ scale x)%Q.

Definition rnd (x : Qc) : Qc := Q2Qc (round x).

(** A rational that is a double. *)
Definition is_double (x : Qc) : Prop := rnd x = x.

(** The four operations of the machine. *)
Definition fadd (a b : Qc) : Qc := rnd (a + b).
Definition fsub (a b : Qc) : Qc := rnd (a - b).
Definition fmul (a b : Qc) : Qc := rnd (a * b).
Definition fdiv (a b : Qc) : Qc := rnd (a / b).

(** The value of a decimal literal such as [0.1 = lit 1 10]: the nearest
    double. *)
Definition lit (n : Z) (d : positive) : Qc := rnd (num n d).

(** [2^52]: below it every multiple of one half is a double. *)
Definition two52 : Qc := Qc_of_Z (2 ^ 52).

(** The rational value of a finite primitive float of Rocq, which is a
    binary64 number as a JavaScript number is. *)
Definition of_float (f : PrimFloat.float) : Qc :=
  match FloatOps.Prim2SF f with
  | SpecFloat.S754_finite s m e =>
      Q2Qc ((if s then inject_Z (Zneg m) else inject_Z (Zpos m)) * 2 ^ e)%Q
  | _ => 0
  end.

(** A whole, non-negative number, and a multiple of one half. *)
Definition whole (x : Qc) : Prop := 0 ≤ x ∧ x = Qc_of_Z (Qfloor x).

Definition half_integer (x : Qc) : Prop := ∃ n : Z, x = Qc_of_Z n / 2.

End Binary64.

(** ** The footprint aggregator on doubles ([aggregation.js],
    [FootprintAggregator])

    The records and the functions without arithmetic are those of
    [FootprintAggregator]; the functions below are the ones that add,
    subtract, multiply or divide, with the operations of the machine. *)

Module FootprintAggregator64.
Import Binary64.
Import FootprintAggregator.

(** [Math.round(price / this.tickSize) * this.tickSize].  [Math.round]
    itself is exact.  With a tick size of 0 the code keys every trade by
    NaN, one key for all of them; so does the model, by the key 0. *)
Definition _roundToTick (fa : t) (price : Qc) : Qc :=
  fmul (Qc_of_Z (Math_round (fdiv price (tickSize fa)))) (tickSize fa).

(** The body of the [for] loop of [_finalizeBar] for one adjacent pair.
    [&&] evaluates the quotient only after the guard. *)
Definition pair_imbalances (fa : t) (lowerPrice upperPrice : Qc)
    (lower upper : Level) : list Imbalance :=
  (if gtb (bidVol upper) 0
      && geb (fdiv (askVol lower) (bidVol upper)) (imbalanceRatio fa)
   then [ {| i_price := lowerPrice;
             ratio := fdiv (askVol lower) (bidVol upper); i_side := ask |} ]
   else [])
  ++ (if gtb (askVol lower) 0
         && geb (fdiv (bidVol upper) (askVol lower)) (imbalanceRatio fa)
      then [ {| i_price := upperPrice;
                ratio := fdiv (bidVol upper) (askVol lower); i_side := bid |} ]
      else []).

Fixpoint scan (fa : t) (lv : gmap Qc Level) (prices : list Qc)
    : list Imbalance :=
  match prices with
  | p :: ((p' :: _) as rest) =>
      match lv !! p, lv !! p' with
      | Some lower, Some upper => pair_imbalances fa p p' lower upper
      | _, _ => []   (* if (!lower || !upper) continue *)
      end ++ scan fa lv rest
  | _ => []
  end.

Definition _finalizeBar (fa : t) (bar : Bar) : Bar :=
  with_imbalances bar (scan fa (levels bar) (sorted_prices (levels bar))).

(** The bar rotation at the head of [ingest].  With a bar duration of 0 the
    bar key [Math.floor(ts / 0) * 0] is NaN, which differs from every key, NaN
    included: every tick rotates.  The [openTs] and [closeTs] of the bars
    opened then stand for NaN. *)
Definition rotate (fa : t) (ts : Z) (price : Qc) : t :=
  let barTs := bucket ts (barDurationMs fa) in
  match currentBar fa with
  | Some cb =>
      if bool_decide (barDurationMs fa = 0%Z) || bool_decide (openTs cb ≠ barTs)
      then
        {| barDurationMs := barDurationMs fa; tickSize := tickSize fa;
           imbalanceRatio := imbalanceRatio fa;
           currentBar := Some (_newBar fa ts price);
           completedBars :=
             push_capped (maxBars fa) (completedBars fa)
                         (_serializeBar (_finalizeBar fa cb));
           maxBars := maxBars fa |}
      else fa
  | None =>
      {| barDurationMs := barDurationMs fa; tickSize := tickSize fa;
         imbalanceRatio := imbalanceRatio fa;
         currentBar := Some (_newBar fa ts price);
         completedBars := completedBars fa;
         maxBars := maxBars fa |}
  end.

(** The update of one level by a trade of the given side and size. *)
Definition add_to_level (level : Level) (sd : Side) (size : Qc) : Level :=
  match sd with
  | buy => {| bidVol := bidVol level; askVol := fadd (askVol level) size;
              delta := fadd (delta level) size |}
  | sell => {| bidVol := fadd (bidVol level) size; askVol := askVol level;
               delta := fsub (delta level) size |}
  | unknown =>
      (* Unknown: split evenly *)
      {| bidVol := fadd (bidVol level) (fdiv size 2);
         askVol := fadd (askVol level) (fdiv size 2);
         delta := delta level |}
  end.

(** The part of [ingest] after the rotation: the tick lands in [bar]. *)
Definition add_to_bar (fa : t) (bar : Bar) (tick : Tick) : Bar :=
  let roundedPrice := _roundToTick fa (price tick) in
  let level := default {| bidVol := 0; askVol := 0; delta := 0 |}
                       (levels bar !! roundedPrice) in
  let sz := size tick in
  {| openTs := openTs bar; closeTs := closeTs bar; open := open bar;
     high := if gtb (price tick) (high bar) then price tick else high bar;
     low := if ltb (price tick) (low bar) then price tick else low bar;
     close := price tick;
     totalVolume := fadd (totalVolume bar) sz;
     totalDelta := match side tick with
                   | buy => fadd (totalDelta bar) sz
                   | sell => fsub (totalDelta bar) sz
                   | unknown => totalDelta bar
                   end;
     totalBidVol := match side tick with
                    | buy => totalBidVol bar
                    | sell => fadd (totalBidVol bar) sz
                    | unknown => fadd (totalBidVol bar) (fdiv sz 2)
                    end;
     totalAskVol := match side tick with
                    | buy => fadd (totalAskVol bar) sz
                    | sell => totalAskVol bar
                    | unknown => fadd (totalAskVol bar) (fdiv sz 2)
                    end;
     levels := <[roundedPrice := add_to_level level (side tick) sz]> (levels bar);
     imbalances := imbalances bar |}.

Definition ingest (fa : t) (tick : Tick) : t :=
  let fa' := rotate fa (ts tick) (price tick) in
  match currentBar fa' with
  | Some bar =>
      {| barDurationMs := barDurationMs fa'; tickSize := tickSize fa';
         imbalanceRatio := imbalanceRatio fa';
         currentBar := Some (add_to_bar fa' bar tick);
         completedBars := completedBars fa';
         maxBars := maxBars fa' |}
  | None => fa'   (* not reached: [rotate] leaves a current bar *)
  end.

(** Ingesting a sequence of ticks, one after the other. *)
Definition ingest_all (fa : t) (ticks : list Tick) : t := foldl ingest fa ticks.

(** The claimed invariants of a bar, the differences taken exactly and as
    the machine takes them. *)
Definition delta_ok (b : Bar) : Prop :=
  (∀ p level, levels b !! p = Some level →
              delta level = askVol level - bidVol level
              ∧ delta level = fsub (askVol level) (bidVol level))
  ∧ totalDelta b = totalAskVol b - totalBidVol b
  ∧ totalDelta b = fsub (totalAskVol b) (totalBidVol b).

(** A level and a bar whose volumes are multiples of one half within a
    budget: on such values the operations of the machine are exact. *)
Definition level_exact (cap : Qc) (l : Level) : Prop :=
  half_integer (bidVol l) ∧ half_integer (askVol l)
  ∧ 0 ≤ bidVol l ∧ 0 ≤ askVol l
  ∧ bidVol l + askVol l ≤ cap
  ∧ delta l = askVol l - bidVol l.

Definition bar_exact (budget : Qc) (b : Bar) : Prop :=
  map_Forall (λ _ l, level_exact (totalVolume b) l) (levels b)
  ∧ half_integer (totalBidVol b) ∧ half_integer (totalAskVol b)
  ∧ 0 ≤ totalBidVol b ∧ 0 ≤ totalAskVol b
  ∧ totalVolume b = totalBidVol b + totalAskVol b
  ∧ totalDelta b = totalAskVol b - totalBidVol b
  ∧ totalBidVol b = sum_levels bidVol (levels b)
  ∧ totalAskVol b = sum_levels askVol (levels b)
  ∧ totalVolume b ≤ budget.

End FootprintAggregator64.

(** ** The CVD calculator on doubles ([aggregation.js], [CvdCalculator]) *)

Module CvdCalculator64.
Import Binary64.
Import CvdCalculator.

(** [ingest], its two running sums taken by the machine.  With a bar
    duration of 0 the bar key is NaN, which differs from every key: the bar
    sum starts again at every tick. *)
Definition ingest (c : t) (tick : Tick) : Point * t :=
  let delta := tick_delta tick in
  let sessionCvd' := fadd (sessionCvd c) delta in
  let barTs := bucket (ts tick) (barDurationMs c) in
  let rolled := bool_decide (barDurationMs c = 0%Z)
                || bool_decide (currentBarTs c ≠ Some barTs) in
  let currentBarTs' := if rolled then Some barTs else currentBarTs c in
  let barCvd' := fadd (if rolled then 0 else barCvd c) delta in
  let point := {| p_ts := ts tick; p_cvd := sessionCvd'; barDelta := barCvd' |} in
  (point,
   {| sessionCvd := sessionCvd';
      barCvd := barCvd';
      history := push_capped (maxHistory c) (history c) point;
      maxHistory := maxHistory c;
      sessionStart := sessionStart c;
      currentBarTs := currentBarTs';
      barDurationMs := barDurationMs c |}).

(** Ingesting a sequence of ticks, one after the other. *)
Definition ingest_all (c : t) (ticks : list Tick) : t :=
  foldl (λ c' tick, (ingest c' tick).2) c ticks.

(** The points a run of [ingest] calls returns, one per tick. *)
Fixpoint ingest_points (c : t) (ticks : list Tick) : list Point :=
  match ticks with
  | [] => []
  | tick :: rest => (ingest c tick).1 :: ingest_points (ingest c tick).2 rest
  end.

End CvdCalculator64.

(** ** The DOM imbalance alert on doubles ([aggregation.js],
    [AlertEvaluator.evaluate]) *)

Module AlertEvaluator64.
Import Binary64.
Import AlertEvaluator.

(** [Math.max(bestBidSize / bestAskSize, bestAskSize / bestBidSize)]. *)
Definition domRatio (d : DomBuilder.Snapshot) : Qc :=
  let b := bestSize (DomBuilder.s_bids d) in
  let a := bestSize (DomBuilder.s_asks d) in
  if gtb (fdiv b a) (fdiv a b) then fdiv b a else fdiv a b.

(** The condition that stands before [this._canAlert('dom_imbalance')]. *)
Definition qualifies_dom (ae : t) (ctx : Context) : bool :=
  match dom ctx with
  | Some d =>
      gtb (bestSize (DomBuilder.s_bids d)) 0
      && gtb (bestSize (DomBuilder.s_asks d)) 0
      && geb (domRatio d) (domImbalanceRatio (config ae))
  | None => false
  end.

(** The [data] of the alert pushed when the check fires. *)
Definition dom_alert_data (d : DomBuilder.Snapshot) : AlertData :=
  DomImbalance (domRatio d)
    (if gtb (bestSize (DomBuilder.s_bids d)) (bestSize (DomBuilder.s_asks d))
     then bid else ask).

End AlertEvaluator64.

(* ===================================================================== *)
(** * Part II: lemmas and theorems *)
(* ===================================================================== *)





(** ** Numbers *)

Lemma geb_true a b : geb a b = true ↔ b ≤ a.
Proof. unfold geb. apply bool_decide_eq_true. Qed.

Lemma leb_true a b : leb a b = true ↔ a ≤ b.
Proof. unfold leb. apply bool_decide_eq_true. Qed.

Lemma gtb_true a b : gtb a b = true ↔ b < a.
Proof. unfold gtb. apply bool_decide_eq_true. Qed.

Lemma ltb_true a b : ltb a b = true ↔ a < b.
Proof. unfold ltb. apply bool_decide_eq_true. Qed.

Lemma geb_false a b : geb a b = false ↔ a < b.
Proof. unfold geb. rewrite bool_decide_eq_false. symmetry. apply Qclt_nge. Qed.

Lemma leb_false a b : leb a b = false ↔ b < a.
Proof. unfold leb. rewrite bool_decide_eq_false. symmetry. apply Qclt_nge. Qed.

Lemma gtb_false a b : gtb a b = false ↔ a ≤ b.
Proof. unfold gtb. rewrite bool_decide_eq_false. symmetry. apply Qcle_ngt. Qed.

Lemma ltb_false a b : ltb a b = false ↔ b ≤ a.
Proof. unfold ltb. rewrite bool_decide_eq_false. symmetry. apply Qcle_ngt. Qed.

(** An equation between closed rationals, by computation. *)
Ltac qc_compute := apply Qc_is_canon; vm_compute; reflexivity.

(** A closed proposition that has a decision procedure, by running it. *)
Ltac by_decide := apply (bool_decide_unpack _); vm_compute; exact I.

(** Order facts between rational atoms, by linear arithmetic on [Q]. *)
Ltac qc_order := unfold Qcle, Qclt in *; lra.

(** Case analysis on every comparison of the goal, keeping its meaning. *)
Ltac cmp_cases :=
  repeat match goal with
  | |- context [geb ?a ?b] =>
      let E := fresh "E" in
      destruct (geb a b) eqn:E; [apply geb_true in E | apply geb_false in E]
  | |- context [leb ?a ?b] =>
      let E := fresh "E" in
      destruct (leb a b) eqn:E; [apply leb_true in E | apply leb_false in E]
  | |- context [gtb ?a ?b] =>
      let E := fresh "E" in
      destruct (gtb a b) eqn:E; [apply gtb_true in E | apply gtb_false in E]
  | |- context [ltb ?a ?b] =>
      let E := fresh "E" in
      destruct (ltb a b) eqn:E; [apply ltb_true in E | apply ltb_false in E]
  end.

(** ** Side inference *)

(** [inferSide] follows the documented rule order on every input: the book
    rule when both sides are known, then the tick rule, then [unknown]. *)
Lemma inferSide_rules p prev bidP askP :
  infer_rule p prev bidP askP (inferSide p prev bidP askP).
Proof.
  unfold inferSide.
  destruct bidP as [b|], askP as [a|]; cmp_cases;
    try (by eapply rule_book_buy); try (by eapply rule_book_sell);
    destruct prev as [pr|]; cmp_cases;
    first [ by eapply rule_tick_buy; eauto using book_silent
          | by eapply rule_tick_sell; eauto using book_silent
          | eapply rule_unknown; eauto using book_silent ].
  all: right; f_equal; apply Qcle_antisym; assumption.
Qed.

(** The five documented samples of [inferSide]. *)
Lemma inferSide_samples :
  inferSide (num 201 2) None (Some (num 100 1)) (Some (num 201 2)) = buy
  ∧ inferSide (num 100 1) None (Some (num 100 1)) (Some (num 201 2)) = sell
  ∧ inferSide (num 101 1) (Some (num 100 1)) None None = buy
  ∧ inferSide (num 99 1) (Some (num 100 1)) None None = sell
  ∧ inferSide (num 100 1) None None None = unknown.
Proof. repeat split; vm_compute; reflexivity. Qed.

(** C1 (code defect).  The side inference the engine runs on its ingestion
    path, [AggregationEngine._inferSide], is not a function of its inputs and
    never answers [unknown].  On a fresh engine (no quote, no trade yet) a
    trade at 100 that comes without a side is a buy for one value of
    [Math.random()] and a sell for another, and [onTrade] records it so and
    moves the CVD by its size, up or down; [inferSide] answers [unknown] on
    the same absence of context.  With only a previous trade at the same
    price the engine answers [buy], where the tick rule lets an equal price
    fall through. *)
Theorem C1_engine_inferSide_is_a_coin_flip :
  let fresh := AggregationEngine.create in
  let print := AggregationEngine.mkRawTick 0 (num 100 1) 1 None in
  AggregationEngine._inferSide fresh (num 100 1) (num 1 4) = buy
  ∧ AggregationEngine._inferSide fresh (num 100 1) (num 3 4) = sell
  ∧ (side <$> AggregationEngine.trades
                (AggregationEngine.onTrade fresh print (num 1 4))) = [buy]
  ∧ (side <$> AggregationEngine.trades
                (AggregationEngine.onTrade fresh print (num 3 4))) = [sell]
  ∧ AggregationEngine.cvd (AggregationEngine.onTrade fresh print (num 1 4)) = 1
  ∧ AggregationEngine.cvd (AggregationEngine.onTrade fresh print (num 3 4)) = - 1
  ∧ inferSide (num 100 1) None None None = unknown
  ∧ AggregationEngine._inferSide
      (AggregationEngine.onTrade fresh print (num 1 4)) (num 100 1) (num 3 4)
    = buy
  ∧ inferSide (num 100 1) (Some (num 100 1)) None None = unknown.
Proof. intros fresh print. repeat split; by_decide. Qed.

(** [AggregationEngine._inferSide] never answers [unknown]. *)
Lemma engine_inferSide_never_unknown e p random :
  AggregationEngine._inferSide e p random ≠ unknown.
Proof.
  unfold AggregationEngine._inferSide.
  repeat case_match; discriminate.
Qed.

(** ** Replay *)

(** The replay engine of [engine/ReplayEngine.js] refuses to play an empty
    tick set: [play] throws, playback is not started, and the aggregation
    engine is neither reset nor fed. *)
Lemma ReplayEngine_play_empty_throws
    {E : Type} (resetSession : E → E) (onTrade : Tick → E → E)
    (r : ReplayEngine.t) (speed : option Qc) (e : E) :
  ReplayEngine._ticks r = [] →
  ∃ r', ReplayEngine.play resetSession onTrade r speed e
        = (Thrown "No ticks loaded. Call load() first.", r', e)
        ∧ ReplayEngine.running r' = ReplayEngine.running r
        ∧ ReplayEngine._idx r' = ReplayEngine._idx r
        ∧ ReplayEngine._timer r' = ReplayEngine._timer r.
Proof.
  intros Hempty. unfold ReplayEngine.play. rewrite Hempty. simpl.
  eexists. split; [reflexivity|]. simpl. auto.
Qed.

(** On a loaded, non-empty tick set [ReplayEngine.play] returns normally
    with the status [playing] and the number of ticks. *)
Lemma ReplayEngine_play_loaded_returns
    {E : Type} (resetSession : E → E) (onTrade : Tick → E → E)
    (r : ReplayEngine.t) (speed : option Qc) (e : E) :
  ReplayEngine._ticks r ≠ [] →
  ∃ r' e', ReplayEngine.play resetSession onTrade r speed e
           = (Returned {| ReplayEngine.status := "playing";
                          ReplayEngine.count := length (ReplayEngine._ticks r) |},
              r', e').
Proof.
  intros Hne. unfold ReplayEngine.play.
  rewrite bool_decide_eq_false_2 by (by destruct (ReplayEngine._ticks r)).
  destruct (ReplayEngine._playNext _ _ _) as [r2 e']. eauto.
Qed.

(** C2 (code defect).  The replay engine of [storage/storage.js] does not
    fail when asked to play with nothing loaded, nor after a load that
    matched no tick: [play] returns normally, without a value, and leaves the
    engine and the consumer exactly as they were, a silent no-op.  The
    sibling engine of [engine/ReplayEngine.js] throws on the same call. *)
Theorem C2_storage_replay_play_empty_is_silent :
  ∀ (W : Type) (onTick : Tick → W → W) (w : W) (speed : Qc) (now : Z)
    (symbol : string) (startTs endTs : Z),
    let nothing : string → Z → Z → list Tick := λ _ _ _, [] in
    let fresh := StorageReplayEngine.create in
    let loaded := StorageReplayEngine.load nothing fresh symbol startTs endTs in
    StorageReplayEngine.play onTick fresh speed now w = (Returned (), fresh, w)
    ∧ loaded.1 = 0%nat
    ∧ StorageReplayEngine._playing loaded.2 = false
    ∧ StorageReplayEngine.play onTick loaded.2 speed now w
      = (Returned (), loaded.2, w)
    ∧ (∀ (E : Type) (resetSession : E → E) (onTrade : Tick → E → E) (e : E),
         (ReplayEngine.play resetSession onTrade ReplayEngine.create (Some speed) e).1.1
         = Thrown "No ticks loaded. Call load() first.").
Proof. intros. repeat split. Qed.

(** The no-op of the storage replay engine is not tied to the fresh state:
    whatever the engine has been through, [play] on an empty tick set answers
    as a successful call. *)
Lemma StorageReplayEngine_play_empty_noop
    {W : Type} (onTick : Tick → W → W)
    (r : StorageReplayEngine.t) (speed : Qc) (now : Z) (w : W) :
  StorageReplayEngine._ticks r = [] →
  StorageReplayEngine.play onTick r speed now w = (Returned (), r, w).
Proof. intros Hempty. unfold StorageReplayEngine.play. by rewrite Hempty. Qed.

(** ** Tape metrics *)

(** When [MetricsCalculator.ingest] reports an absorption: at least ten
    trades buffered, a price range of the last twenty strictly below
    [2 * 0.25], and their volume above five large prints.  The event holds
    the volume, the range and the time of the tick. *)
Lemma MetricsCalculator_detect_spec m recent now :
  let window := slice_last 20 recent in
  let vol := sum_list (size <$> window) in
  let range := Math_max (price <$> window) - Math_min (price <$> window) in
  (is_Some (MetricsCalculator.detect m recent now)
   ↔ (10 ≤ length recent)%nat ∧ range < 2 * num 1 4
     ∧ MetricsCalculator.largePrintThreshold m * num 5 1 < vol)
  ∧ (∀ a, MetricsCalculator.detect m recent now = Some a →
          a = {| MetricsCalculator.totalVol := vol;
                 MetricsCalculator.priceRange := range;
                 MetricsCalculator.a_ts := now |}).
Proof.
  intros window vol range. unfold MetricsCalculator.detect.
  fold window; fold vol; fold range.
  case_bool_decide as Hlen.
  - destruct (ltb range _) eqn:E1; destruct (gtb vol _) eqn:E2; simpl;
      try apply ltb_true in E1; try apply ltb_false in E1;
      try apply gtb_true in E2; try apply gtb_false in E2.
    + split; [split; [auto|eauto]|congruence].
    + split; [split; [intros []; discriminate|]|discriminate].
      intros (_ & _ & H). exfalso. by apply Qclt_not_le in H.
    + split; [split; [intros []; discriminate|]|discriminate].
      intros (_ & H & _). exfalso. by apply Qclt_not_le in H.
    + split; [split; [intros []; discriminate|]|discriminate].
      intros (_ & H & _). exfalso. by apply Qclt_not_le in H.
  - split; [split; [intros []; discriminate|]|discriminate].
    intros (H & _). lia.
Qed.

(** C7 (code defect).  On [boundary_tape] the price range of the buffered
    trades equals [2 * 0.25] and their volume exceeds
    [largePrintThreshold * 5], so the documented test ([<=]) holds; yet
    [MetricsCalculator.ingest] reports no absorption after the tenth print,
    because it compares with [<].  The sibling detector
    [AggregationEngine._detectAbsorption] compares with [<=] and reports a
    bias; the event of [MetricsCalculator] has no bias. *)
Theorem C7_absorption_boundary_is_missed :
  let m := MetricsCalculator.create None None in
  let out := MetricsCalculator.ingest_all m boundary_tape in
  let window := slice_last 20 (MetricsCalculator.recentTrades out.2) in
  length (MetricsCalculator.recentTrades out.2) = 10%nat
  ∧ Math_max (price <$> window) - Math_min (price <$> window) = 2 * num 1 4
  ∧ MetricsCalculator.largePrintThreshold m * num 5 1 < sum_list (size <$> window)
  ∧ (MetricsCalculator.absorption <$> out.1) = Some None.
Proof.
  intros m out window. split; [|split; [|split]].
  - vm_compute; reflexivity.
  - apply Qc_is_canon. vm_compute. reflexivity.
  - vm_compute; reflexivity.
  - vm_compute; reflexivity.
Qed.

(** On the same tape the detector of the engine reports an absorption, with
    its bias. *)
Lemma AggregationEngine_detects_boundary_tape :
  let feed e (t : Tick) :=
    AggregationEngine.onTrade e
      (AggregationEngine.mkRawTick (ts t) (price t) (size t) (Some (side t))) 0 in
  AggregationEngine._detectAbsorption
    (foldl feed AggregationEngine.create boundary_tape)
  = Some (AggregationEngine.Detected (num 1 2) (num 300 1) (num 300 1) 0 buy).
Proof. by_decide. Qed.

(** ** Footprint bars *)

Section footprint.
Import FootprintAggregator.

Lemma Math_max_pair a b : a ≤ Math_max [a; b] ∧ b ≤ Math_max [a; b].
Proof.
  unfold Math_max. simpl. cmp_cases; split; try apply Qcle_refl; try done.
  by apply Qclt_le_weak.
Qed.

Lemma Math_max_pair_cases a b : Math_max [a; b] = a ∨ Math_max [a; b] = b.
Proof. unfold Math_max. simpl. destruct (gtb b a); auto. Qed.

(** Inside the range, both forms of the price invariant hold. *)
Lemma ohlc_ok_bounds b :
  ohlc_ok b →
  Math_max [open b; close b] ≤ high b ∧ low b ≤ Math_max [open b; close b].
Proof.
  intros (Hlo & Hoh & Hlc & Hch).
  destruct (Math_max_pair_cases (open b) (close b)) as [-> | ->]; auto.
Qed.

Lemma add_to_level_ok l sd sz : level_ok l → level_ok (add_to_level l sd sz).
Proof.
  unfold level_ok. intros Hl. destruct sd; simpl; rewrite Hl; ring.
Qed.

Lemma divide_guarded a b : gtb b 0 = true → divide a b = Some (a / b).
Proof.
  intros Hb%gtb_true. unfold divide.
  rewrite bool_decide_eq_false_2; [done|].
  intros ->. by apply Qclt_not_eq in Hb.
Qed.

(** No division of [pair_imbalances] meets a zero divisor. *)
Lemma pair_imbalances_total fa pl pu lower upper :
  is_Some (pair_imbalances fa pl pu lower upper).
Proof.
  unfold pair_imbalances.
  destruct (gtb (bidVol upper) 0) eqn:E1; destruct (gtb (askVol lower) 0) eqn:E2;
    rewrite ?(divide_guarded _ _ E1), ?(divide_guarded _ _ E2); simpl;
    repeat case_match; simpl; eauto.
Qed.

(** The equation of [scan] on a list with an adjacent pair at its head. *)
Lemma scan_pair fa lv p p' rest :
  scan fa lv (p :: p' :: rest)
  = here ← match lv !! p, lv !! p' with
           | Some lower, Some upper => pair_imbalances fa p p' lower upper
           | _, _ => Some []
           end;
    later ← scan fa lv (p' :: rest);
    Some (here ++ later).
Proof. reflexivity. Qed.

Lemma scan_total fa lv prices : is_Some (scan fa lv prices).
Proof.
  induction prices as [|p rest IH]; [by eexists|].
  destruct rest as [|p' rest]; [by eexists|].
  rewrite scan_pair. destruct IH as [later ->].
  destruct (lv !! p) as [lower|], (lv !! p') as [upper|]; simpl; eauto.
  destruct (pair_imbalances_total fa p p' lower upper) as [here ->]. simpl. eauto.
Qed.

(** [_finalizeBar] always completes, and touches the imbalances only. *)
Lemma _finalizeBar_total fa bar :
  ∃ imbs, scan fa (levels bar) (sorted_prices (levels bar)) = Some imbs
          ∧ _finalizeBar fa bar = Some (with_imbalances bar imbs).
Proof.
  unfold _finalizeBar.
  destruct (scan_total fa (levels bar) (sorted_prices (levels bar))) as [imbs ->].
  eauto.
Qed.

Lemma _newBar_inv fa t p : bar_inv (_newBar fa t p).
Proof.
  split; [|split].
  - apply map_Forall_empty.
  - simpl. ring.
  - repeat split; apply Qcle_refl.
Qed.

Lemma with_imbalances_inv b imbs : bar_inv b → bar_inv (with_imbalances b imbs).
Proof. intros (Hl & Ht & Ho). repeat split; simpl; auto; apply Ho. Qed.

Lemma add_to_bar_inv fa b tick : bar_inv b → bar_inv (add_to_bar fa b tick).
Proof.
  intros (Hl & Ht & (Hlo & Hoh & Hlc & Hch)). split; [|split].
  - simpl. apply map_Forall_insert_2; [|done].
    apply add_to_level_ok.
    destruct (levels b !! _) as [l|] eqn:El; simpl.
    + by apply (Hl _ _ El).
    + unfold level_ok. simpl. ring.
  - simpl. destruct (side tick); rewrite Ht; ring.
  - unfold ohlc_ok. simpl. cmp_cases; repeat split; qc_order.
Qed.

Lemma push_capped_elem_of {A} cap (l : list A) x y :
  y ∈ push_capped cap l x → y ∈ l ∨ y = x.
Proof.
  unfold push_capped. case_bool_decide.
  - intros Hy. assert (Hy' : y ∈ l ++ [x]).
    { destruct l; simpl in *; [by apply elem_of_nil in Hy|].
      by apply elem_of_cons; right. }
    apply elem_of_app in Hy' as [? | Hy']; [by left|].
    apply list_elem_of_singleton in Hy'. by right.
  - intros [? | Hy]%elem_of_app; [by left|].
    apply list_elem_of_singleton in Hy. by right.
Qed.

(** The rotation completes; it leaves [landing_bar] as the current bar and
    keeps the invariants. *)
Lemma rotate_spec fa tick :
  ∃ fa', rotate fa (ts tick) (price tick) = Some fa'
         ∧ currentBar fa' = Some (landing_bar fa tick)
         ∧ tickSize fa' = tickSize fa
         ∧ (inv fa → inv fa').
Proof.
  unfold rotate, landing_bar.
  destruct (currentBar fa) as [cb|] eqn:Ecb.
  - case_bool_decide as Hts.
    + destruct (_finalizeBar_total fa cb) as (imbs & _ & ->). simpl.
      rewrite bool_decide_eq_false_2 by done.
      eexists. split; [reflexivity|]. simpl.
      split; [done|]. split; [done|].
      intros Hinv bar [Hb | Hb]; simpl in *.
      * injection Hb as <-. apply _newBar_inv.
      * apply push_capped_elem_of in Hb as [Hb | ->].
        -- apply Hinv. by right.
        -- apply with_imbalances_inv, Hinv. by left.
    + rewrite bool_decide_eq_true_2 by done.
      exists fa. by rewrite Ecb.
  - eexists. split; [reflexivity|]. simpl.
    split; [done|]. split; [done|].
    intros Hinv bar [Hb | Hb]; simpl in *.
    + injection Hb as <-. apply _newBar_inv.
    + apply Hinv. by right.
Qed.

(** [ingest] completes on every tick: the tick is added to its landing
    bar, which becomes (or stays) the current bar. *)
Lemma ingest_spec fa tick :
  ∃ fa', ingest fa tick = Some fa'
         ∧ currentBar fa' = Some (add_to_bar fa (landing_bar fa tick) tick)
         ∧ (inv fa → inv fa').
Proof.
  destruct (rotate_spec fa tick) as (fa0 & Hrot & Hcur & Hts & Hinv).
  unfold ingest. rewrite Hrot. simpl. rewrite Hcur. simpl.
  eexists. split; [reflexivity|]. simpl. split.
  - unfold add_to_bar, _roundToTick. by rewrite Hts.
  - intros Hfa bar [Hb | Hb]; simpl in *.
    + injection Hb as <-. apply add_to_bar_inv, (Hinv Hfa). by left.
    + apply (Hinv Hfa). by right.
Qed.

(* The invariants of the footprint bars rest on the sums the code
   computes: they are settled in Part IV, on doubles. *)

End footprint.

(** ** The unknown side: footprint split, CVD untouched *)

Section unknown_side.
Import FootprintAggregator.




End unknown_side.

(** ** CVD: what a session reset keeps *)

(** [resetSession] zeroes the session value and empties the history; the
    per-bar delta, the current bar key and the configuration are kept. *)
Lemma CvdCalculator_resetSession_frame c now :
  let r := CvdCalculator.resetSession c now in
  CvdCalculator.sessionCvd r = 0
  ∧ CvdCalculator.history r = []
  ∧ CvdCalculator.barCvd r = CvdCalculator.barCvd c
  ∧ CvdCalculator.currentBarTs r = CvdCalculator.currentBarTs c
  ∧ CvdCalculator.barDurationMs r = CvdCalculator.barDurationMs c
  ∧ CvdCalculator.maxHistory r = CvdCalculator.maxHistory c.
Proof. done. Qed.

(** After [ingest] the bar key is the bucket of the tick and the per-bar
    delta is the one the point reports. *)
Lemma CvdCalculator_ingest_bar c tick :
  let out := CvdCalculator.ingest c tick in
  CvdCalculator.currentBarTs out.2
  = Some (bucket (ts tick) (CvdCalculator.barDurationMs c))
  ∧ CvdCalculator.barCvd out.2 = CvdCalculator.barDelta out.1
  ∧ CvdCalculator.barDurationMs out.2 = CvdCalculator.barDurationMs c.
Proof.
  simpl. split; [|done]. by case_bool_decide as H.
Qed.

(** C10.  [resetSession] sets the cumulative session value to 0 and empties
    the history, and leaves the per-bar delta and the current bar key as
    they were.  So a tick [t] ingested right after the reset, when it falls
    in the bucket of the current bar key, gets a point whose cumulative
    value is the signed size of [t] alone but whose [barDelta] is the
    per-bar delta from before the reset plus the signed size of [t]; in
    particular, when [t] falls in the bucket of the last tick [t0] ingested
    before the reset, its [barDelta] is the one reported for [t0] plus the
    signed size of [t]. *)
Theorem C10_reset_keeps_bar_delta (c : CvdCalculator.t) (now : Z) :
  let r := CvdCalculator.resetSession c now in
  CvdCalculator.sessionCvd r = 0
  ∧ CvdCalculator.history r = []
  ∧ CvdCalculator.barCvd r = CvdCalculator.barCvd c
  ∧ CvdCalculator.currentBarTs r = CvdCalculator.currentBarTs c
  ∧ (∀ t,
       CvdCalculator.currentBarTs c
       = Some (bucket (ts t) (CvdCalculator.barDurationMs c)) →
       CvdCalculator.p_cvd (CvdCalculator.ingest r t).1
       = CvdCalculator.tick_delta t
       ∧ CvdCalculator.barDelta (CvdCalculator.ingest r t).1
         = CvdCalculator.barCvd c + CvdCalculator.tick_delta t)
  ∧ (∀ c0 t0 t,
       c = (CvdCalculator.ingest c0 t0).2 →
       bucket (ts t) (CvdCalculator.barDurationMs c0)
       = bucket (ts t0) (CvdCalculator.barDurationMs c0) →
       CvdCalculator.barDelta (CvdCalculator.ingest r t).1
       = CvdCalculator.barDelta (CvdCalculator.ingest c0 t0).1
         + CvdCalculator.tick_delta t).
Proof.
  intros r.
  assert (Hsame : ∀ t,
            CvdCalculator.currentBarTs c
            = Some (bucket (ts t) (CvdCalculator.barDurationMs c)) →
            CvdCalculator.p_cvd (CvdCalculator.ingest r t).1
            = CvdCalculator.tick_delta t
            ∧ CvdCalculator.barDelta (CvdCalculator.ingest r t).1
              = CvdCalculator.barCvd c + CvdCalculator.tick_delta t).
  { intros t Hkey. subst r. unfold CvdCalculator.ingest. simpl.
    rewrite bool_decide_eq_false_2 by (by intros Hne; apply Hne).
    split; [ring | reflexivity]. }
  repeat (split; [done|]).
  intros c0 t0 t -> Hbucket.
  destruct (CvdCalculator_ingest_bar c0 t0) as (Hkey & Hbar & Hdur).
  destruct (Hsame t) as [_ ->].
  - rewrite Hkey, Hdur, Hbucket. done.
  - by rewrite Hbar.
Qed.

(** Buy 50 at 1000 ms, reset, buy 1 at 3000 ms (same one-minute bucket): the
    point after the reset has cumulative value 1 and bar delta 51. *)
Lemma C10_reset_keeps_bar_delta_witness :
  let c0 := CvdCalculator.create 0 in
  let t0 := mkTick 1000 (num 100 1) (num 50 1) buy in
  let t := mkTick 3000 (num 100 1) 1 buy in
  let c := (CvdCalculator.ingest c0 t0).2 in
  let after := CvdCalculator.ingest (CvdCalculator.resetSession c 2000) t in
  bucket 3000 60000 = bucket 1000 60000
  ∧ CvdCalculator.barDelta (CvdCalculator.ingest c0 t0).1 = num 50 1
  ∧ CvdCalculator.p_cvd after.1 = 1
  ∧ CvdCalculator.barDelta after.1 = num 51 1.
Proof.
  intros c0 t0 t c after.
  assert (Hbucket : bucket 3000 60000 = bucket 1000 60000) by reflexivity.
  destruct (C10_reset_keeps_bar_delta c 2000)
    as (_ & _ & _ & _ & Hkey & Hlast).
  split; [exact Hbucket|]. split; [qc_compute|]. split.
  - exact (proj1 (Hkey t eq_refl)).
  - etrans; [exact (Hlast c0 t0 t eq_refl Hbucket)|]. qc_compute.
Defined.

(** ** The ring buffer *)

Lemma mod_shift_inj (C c i j : nat) :
  (i < C → j < C → (c + i) mod C = (c + j) mod C → i = j)%nat.
Proof.
  intros Hi Hj H.
  pose proof (Nat.div_mod_eq (c + i) C) as H1.
  pose proof (Nat.div_mod_eq (c + j) C) as H2.
  rewrite H in H1.
  set (q1 := ((c + i) / C)%nat) in *. set (q2 := ((c + j) / C)%nat) in *.
  set (r := ((c + j) mod C)%nat) in *.
  destruct (Nat.lt_trichotomy q1 q2) as [Hq|[Hq|Hq]]; nia.
Qed.

Section ring_buffer.
Context {A : Type}.
Implicit Types (rb : RingBuffer.t A) (xs : list A).
Import RingBuffer.

Lemma create_wf (C : nat) : (0 < C)%nat → wf (create (A:=A) C).
Proof. intros HC. repeat split; simpl; [done| by rewrite length_replicate | done]. Qed.

Lemma push_wf rb x : wf rb → wf (push rb x).
Proof.
  intros (HC & Hlen & Hhead). repeat split; simpl.
  - done.
  - by rewrite length_insert.
  - apply Nat.mod_upper_bound. lia.
Qed.

Lemma clear_wf rb : wf rb → wf (clear rb).
Proof. intros (HC & Hlen & Hhead). by repeat split. Qed.

(** After a run of pushes: the shape is kept, the head has advanced by the
    number of pushes (modulo the capacity). *)
Lemma pushes_shape rb xs :
  wf rb →
  wf (foldl push rb xs)
  ∧ capacity (foldl push rb xs) = capacity rb
  ∧ head (foldl push rb xs) = ((head rb + length xs) mod capacity rb)%nat.
Proof.
  intros Hwf. induction xs as [|x xs IH] using rev_ind.
  - simpl. split; [done|]. split; [done|].
    rewrite Nat.add_0_r, Nat.mod_small; [done | apply Hwf].
  - destruct IH as (Hwf' & Hcap & Hhead).
    rewrite foldl_snoc. split; [by apply push_wf|]. split; [done|].
    simpl. rewrite Hcap, Hhead, length_app. simpl.
    rewrite Nat.Div0.add_mod_idemp_l. f_equal. lia.
Qed.

(** As long as no more items were pushed than the buffer holds, the [i]-th
    pushed item sits [i] slots after the old head. *)
Lemma pushes_lookup rb xs i x :
  wf rb → (length xs ≤ capacity rb)%nat → xs !! i = Some x →
  buffer (foldl push rb xs) !! ((head rb + i) mod capacity rb)%nat
  = Some (Some x).
Proof.
  intros Hwf. revert i x.
  induction xs as [|y xs IH] using rev_ind; intros i x Hlen Hi; [done|].
  rewrite length_app in Hlen. simpl in Hlen.
  destruct (pushes_shape rb xs Hwf) as (Hwf' & Hcap & Hhead).
  rewrite foldl_snoc. simpl. rewrite Hhead.
  destruct (decide (i = length xs)) as [-> | Hne].
  - rewrite lookup_app_r, Nat.sub_diag in Hi by lia. injection Hi as ->.
    apply list_lookup_insert_eq.
    destruct Hwf' as (_ & -> & _). rewrite Hcap.
    apply Nat.mod_upper_bound. lia.
  - assert (Hi' : (i < length xs)%nat).
    { apply lookup_lt_Some in Hi. rewrite length_app in Hi. simpl in Hi. lia. }
    rewrite lookup_app_l in Hi by done.
    rewrite list_lookup_insert_ne; [apply IH; [lia | done]|].
    intros Heq. apply mod_shift_inj in Heq; lia.
Qed.

(** The loop of [drainSince], started [j] slots after the cursor, collects
    the pushed items from the [j]-th on. *)
Lemma drainSince_loop_pushed rb xs :
  wf rb → (length xs < capacity rb)%nat →
  ∀ n j fuel,
    (j + n = length xs)%nat → (n ≤ fuel)%nat →
    drainSince_loop (foldl push rb xs) fuel ((head rb + j) mod capacity rb)%nat
    = Some (drop j xs).
Proof.
  intros Hwf Hlen.
  destruct (pushes_shape rb xs Hwf) as (Hwf' & Hcap & Hhead).
  induction n as [|n IH]; intros j fuel Hj Hfuel.
  - assert (j = length xs) as -> by lia.
    rewrite drop_all.
    destruct fuel; simpl; by rewrite Hhead, bool_decide_eq_true_2.
  - destruct fuel as [|fuel]; [lia|]. simpl.
    rewrite bool_decide_eq_false_2.
    2:{ rewrite Hhead. intros Heq. apply mod_shift_inj in Heq; lia. }
    destruct (lookup_lt_is_Some_2 xs j) as [x Hx]; [lia|].
    rewrite (pushes_lookup rb xs j x) by (done || lia).
    rewrite Hcap, Nat.Div0.add_mod_idemp_l.
    replace (head rb + j + 1)%nat with (head rb + S j)%nat by lia.
    rewrite (IH (S j) fuel) by lia. simpl.
    by rewrite (drop_S _ _ _ Hx).
Qed.

(** The loop of [drainSince] ends within [capacity] iterations from any
    cursor inside the buffer. *)
Lemma drainSince_loop_total rb :
  wf rb →
  ∀ n pos fuel,
    (pos < capacity rb)%nat → ((pos + n) mod capacity rb = head rb)%nat →
    (n ≤ fuel)%nat →
    is_Some (drainSince_loop rb fuel pos).
Proof.
  intros (HC & Hlen & Hhead).
  induction n as [|n IH]; intros pos fuel Hpos Hn Hfuel.
  - rewrite Nat.add_0_r, Nat.mod_small in Hn by done.
    destruct fuel; simpl; rewrite bool_decide_eq_true_2 by done; eauto.
  - destruct fuel as [|fuel]; [lia|]. simpl.
    case_bool_decide; [eauto|].
    destruct (IH ((pos + 1) mod capacity rb)%nat fuel) as [rest ->].
    + apply Nat.mod_upper_bound. lia.
    + rewrite Nat.Div0.add_mod_idemp_l, <- Hn. f_equal. lia.
    + lia.
    + simpl. eauto.
Qed.

Lemma drainSince_total rb cursor :
  wf rb → (cursor < capacity rb)%nat → is_Some (drainSince rb cursor).
Proof.
  intros Hwf Hc. unfold drainSince. case_bool_decide; [eauto|].
  pose proof Hwf as (HC & Hlen & Hhead).
  apply (drainSince_loop_total rb Hwf
           ((head rb + capacity rb - cursor) mod capacity rb)%nat); [done| |].
  - rewrite Nat.Div0.add_mod_idemp_r.
    replace (cursor + (head rb + capacity rb - cursor))%nat
      with (head rb + 1 * capacity rb)%nat by lia.
    rewrite Nat.Div0.mod_add. by apply Nat.mod_small.
  - pose proof (Nat.mod_upper_bound (head rb + capacity rb - cursor)
                  (capacity rb)). lia.
Qed.

(** C8 (amended).  For a ring buffer of capacity [C] in its regular shape,
    a cursor taken with [getHead], and fewer than [C] items pushed after
    it, [drainSince] of that cursor terminates and returns exactly the
    pushed items, in the order of the pushes. *)
Theorem C8_drainSince_fewer_than_capacity rb xs :
  wf rb → (length xs < capacity rb)%nat →
  drainSince (foldl push rb xs) (getHead rb) = Some xs.
Proof.
  intros Hwf Hlen. unfold drainSince, getHead.
  destruct (pushes_shape rb xs Hwf) as (Hwf' & Hcap & Hhead).
  case_bool_decide as Hsame.
  - rewrite Hhead in Hsame.
    assert (length xs = 0%nat) as Hnil.
    { symmetry. apply (mod_shift_inj (capacity rb) (head rb)); [lia | done |].
      rewrite Nat.add_0_r, Nat.mod_small; [done | apply Hwf]. }
    by apply nil_length_inv in Hnil as ->.
  - rewrite Hcap.
    pose proof (drainSince_loop_pushed rb xs Hwf Hlen (length xs) 0
                  (capacity rb) eq_refl ltac:(lia)) as Hloop.
    rewrite Nat.add_0_r, Nat.mod_small in Hloop by apply Hwf.
    by rewrite Hloop.
Qed.

End ring_buffer.

(** Two items pushed into a fresh buffer of capacity 3 after the cursor 0. *)
Lemma C8_drainSince_fewer_than_capacity_witness :
  RingBuffer.wf (RingBuffer.create (A:=nat) 3)
  ∧ (length [1%nat; 2%nat] < RingBuffer.capacity (RingBuffer.create (A:=nat) 3))%nat
  ∧ RingBuffer.drainSince
      (foldl RingBuffer.push (RingBuffer.create 3) [1%nat; 2%nat])
      (RingBuffer.getHead (RingBuffer.create (A:=nat) 3))
    = Some [1%nat; 2%nat].
Proof.
  assert (Hwf : RingBuffer.wf (RingBuffer.create (A:=nat) 3))
    by (repeat split; simpl; lia).
  assert (Hlen : (length [1%nat; 2%nat]
                  < RingBuffer.capacity (RingBuffer.create (A:=nat) 3))%nat)
    by (simpl; lia).
  split; [exact Hwf|]. split; [exact Hlen|].
  exact (C8_drainSince_fewer_than_capacity _ _ Hwf Hlen).
Defined.

(** C8 (counterexample).  Capacity 3, cursor taken on the fresh buffer, then
    three pushes: the head is back on the cursor and [drainSince] returns the
    empty list, not the three items pushed; with four pushes it returns the
    last one only. *)
Lemma C8_drainSince_full_lap_counterexample :
  let rb := RingBuffer.create (A:=nat) 3 in
  let cursor := RingBuffer.getHead rb in
  RingBuffer.wf rb
  ∧ RingBuffer.drainSince (foldl RingBuffer.push rb [1; 2; 3]%nat) cursor = Some []
  ∧ RingBuffer.drainSince (foldl RingBuffer.push rb [1; 2; 3]%nat) cursor
    ≠ Some [1; 2; 3]%nat
  ∧ RingBuffer.drainSince (foldl RingBuffer.push rb [1; 2; 3; 4]%nat) cursor
    = Some [4]%nat.
Proof.
  intros rb cursor. split; [repeat split; simpl; lia|].
  split; [reflexivity|]. split; [discriminate | reflexivity].
Qed.

(** ** Footprint imbalances *)

Section imbalances.
Import FootprintAggregator.










End imbalances.

(** ** The order book *)

Section dom.
Import DomBuilder.

(** The book built from an input: a price is absent exactly when the input
    has no entry of positive size for it, and a price that is present
    carries the size of one of its positive entries. *)
Lemma fill_from (input : list (Qc * Qc)) (m : gmap Qc Qc) (p : Qc) :
  (foldl (λ book e, if gtb e.2 0 then <[e.1 := e.2]> book else book) m input !! p
   = None
   ↔ m !! p = None ∧ ∀ sz, (p, sz) ∈ input → ¬ 0 < sz)
  ∧ (∀ sz, foldl (λ book e, if gtb e.2 0 then <[e.1 := e.2]> book else book)
             m input !! p = Some sz →
           m !! p = Some sz ∨ ((p, sz) ∈ input ∧ 0 < sz)).
Proof.
  revert m. induction input as [|[q s] input IH]; intros m; simpl.
  - split; [|by auto]. split; [intros H; split; [done|]|by intros [? _]].
    by intros sz ?%elem_of_nil.
  - destruct (IH (if gtb s 0 then <[q := s]> m else m)) as [IH1 IH2].
    destruct (gtb s 0) eqn:Es;
      [apply gtb_true in Es | apply gtb_false in Es]; split.
    + rewrite IH1. destruct (decide (q = p)) as [-> | Hne].
      * rewrite lookup_insert_eq. split; [by intros [? _]|].
        intros [_ H]. exfalso. apply (H s); [by left | done].
      * rewrite lookup_insert_ne by done. split.
        -- intros [Hm H]. split; [done|].
           intros sz [[= <- <-] | Hin]%elem_of_cons; [done | by apply H].
        -- intros [Hm H]. split; [done|]. intros sz Hin. apply H. by right.
    + intros sz [Hm | [Hin Hpos]]%IH2.
      * destruct (decide (q = p)) as [-> | Hne].
        -- rewrite lookup_insert_eq in Hm. injection Hm as <-.
           right. split; [by left | done].
        -- rewrite lookup_insert_ne in Hm by done. by left.
      * right. split; [by right | done].
    + rewrite IH1. split.
      * intros [Hm H]. split; [done|].
        intros sz [[= <- <-] | Hin]%elem_of_cons; [by apply Qcle_not_lt | by apply H].
      * intros [Hm H]. split; [done|]. intros sz Hin. apply H. by right.
    + intros sz [Hm | [Hin Hpos]]%IH2; [by left|].
      right. split; [by right | done].
Qed.

Lemma fill_None input p :
  fill input !! p = None ↔ ∀ sz, (p, sz) ∈ input → ¬ 0 < sz.
Proof.
  unfold fill. destruct (fill_from input ∅ p) as [-> _].
  rewrite lookup_empty. split; [by intros [_ H] | by intros H; split].
Qed.

Lemma fill_Some input p sz :
  fill input !! p = Some sz → (p, sz) ∈ input ∧ 0 < sz.
Proof.
  unfold fill. destruct (fill_from input ∅ p) as [_ H].
  intros [Hm | ?]%H; [|done]. by rewrite lookup_empty in Hm.
Qed.

(** The two comparisons of [classify] amount to one test for equality. *)
Lemma classify_spec size prev :
  classify size prev
  = match prev with
    | None => added
    | Some ps => if bool_decide (size = ps) then unchanged else modified
    end.
Proof.
  unfold classify. destruct prev as [ps|]; [|done].
  case_bool_decide as Heq.
  - subst. rewrite (proj2 (gtb_false ps ps)), (proj2 (ltb_false ps ps));
      [done | apply Qcle_refl | apply Qcle_refl].
  - cmp_cases; try done. exfalso. apply Heq. by apply Qcle_antisym.
Qed.

(** The levels of a ranked view are levels of the current map, annotated
    against the previous map. *)
Lemma buildLevels_elem n cur prev sd l :
  l ∈ buildLevels n cur prev sd →
  cur !! dl_price l = Some (dl_size l)
  ∧ dl_side l = sd
  ∧ prevSize l = prev !! dl_price l
  ∧ change l = classify (dl_size l) (prev !! dl_price l).
Proof.
  unfold buildLevels. intros ([p sz] & -> & Hin)%list_elem_of_fmap. simpl.
  split; [|done].
  apply elem_of_take in Hin as (i & Hi & _).
  apply list_elem_of_lookup_2 in Hi.
  rewrite merge_sort_Permutation in Hi.
  by apply elem_of_map_to_list in Hi.
Qed.


Lemma pulled_elem thr prev cur sd l :
  l ∈ pulled thr prev cur sd
  ↔ ∃ p sz, l = {| dl_price := p; dl_size := sz; dl_side := sd;
                   change := removed; prevSize := None |}
            ∧ prev !! p = Some sz ∧ thr ≤ sz ∧ cur !! p = None.
Proof.
  unfold pulled. rewrite list_elem_of_fmap. split.
  - intros ([p sz] & -> & [[Hthr Hcur] Hin]%list_elem_of_filter). simpl in *.
    exists p, sz. by apply elem_of_map_to_list in Hin.
  - intros (p & sz & -> & Hprev & Hthr & Hcur). exists (p, sz).
    split; [done|]. apply list_elem_of_filter. split; [done|].
    by apply elem_of_map_to_list.
Qed.

Lemma snapshot_view sd d :
  view sd (snapshot d) = buildLevels (maxLevels d) (book sd d) (prevBook sd d) sd.
Proof. by destruct sd. Qed.

Lemma snapshot_pulled sd d :
  pulledOf sd (snapshot d)
  = pulled (_calcLargeThreshold d) (prevBook sd d) (book sd d) sd.
Proof. by destruct sd. Qed.

Lemma update_books sd d bidsIn asksIn :
  book sd (update d bidsIn asksIn) = fill (input sd bidsIn asksIn)
  ∧ prevBook sd (update d bidsIn asksIn) = book sd d.
Proof. by destruct sd. Qed.



End dom.

(** ** Alert throttling *)

Section alerts.
Import AlertEvaluator.

Lemma fired_nil type : fired type [] = false.
Proof. unfold fired. apply bool_decide_eq_false_2. by intros ?%Exists_nil. Qed.

Lemma fired_snoc type alerts a :
  fired type (alerts ++ [a]) = fired type alerts || bool_decide (a_type a = type).
Proof.
  unfold fired. apply eq_true_iff_eq.
  rewrite orb_true_iff, !bool_decide_eq_true, Exists_app, Exists_cons, Exists_nil.
  tauto.
Qed.

(** Every alert is stamped with the type of the check that pushes it. *)
Lemma alert_of_type ctx type now : a_type (alert_of ctx type now) = type.
Proof. unfold alert_of. by repeat case_bool_decide. Qed.

(** Whether an evaluation qualifies depends on the thresholds only. *)
Lemma qualifies_config ae ae' ctx type :
  config ae = config ae' → qualifies ae ctx type = qualifies ae' ctx type.
Proof. unfold qualifies. by intros ->. Qed.

Lemma _canAlert_spec ae type now :
  (_canAlert ae type now).1 = window_open ae type now
  ∧ config (_canAlert ae type now).2 = config ae
  ∧ throttleMs (_canAlert ae type now).2 = throttleMs ae
  ∧ recentAlerts (_canAlert ae type now).2
    = if window_open ae type now then <[type := now]> (recentAlerts ae)
      else recentAlerts ae.
Proof. unfold _canAlert, window_open. by case_match. Qed.

(** One check: it fires exactly when the evaluation qualifies and the
    throttle window of its type is open, it then stamps its own type, and it
    leaves the other types alone. *)
Lemma check_spec ctx now type alerts ae :
  let go := qualifies ae ctx type && window_open ae type now in
  let out := check ctx now type (alerts, ae) in
  out.1 = alerts ++ (if go then [alert_of ctx type now] else [])
  ∧ config out.2 = config ae
  ∧ throttleMs out.2 = throttleMs ae
  ∧ recentAlerts out.2
    = if go then <[type := now]> (recentAlerts ae) else recentAlerts ae.
Proof.
  simpl. unfold check.
  destruct (qualifies ae ctx type); simpl; [|by rewrite app_nil_r].
  destruct (_canAlert_spec ae type now) as (Hok & Hc & Ht & Hr).
  destruct (_canAlert ae type now) as [ok ae']. simpl in *. subst ok.
  destruct (window_open ae type now); simpl; [done | by rewrite app_nil_r].
Qed.

Lemma checks_cons ctx now ty types acc :
  checks ctx now (ty :: types) acc = checks ctx now types (check ctx now ty acc).
Proof. reflexivity. Qed.

(** A sequence of checks over distinct types, seen from one of them. *)
Lemma checks_spec ctx now type types : ∀ alerts ae,
  NoDup types →
  let out := checks ctx now types (alerts, ae) in
  let go := qualifies ae ctx type && window_open ae type now in
  config out.2 = config ae
  ∧ throttleMs out.2 = throttleMs ae
  ∧ (type ∉ types →
     fired type out.1 = fired type alerts
     ∧ recentAlerts out.2 !! type = recentAlerts ae !! type)
  ∧ (type ∈ types →
     fired type out.1 = fired type alerts || go
     ∧ recentAlerts out.2 !! type
       = if go then Some now else recentAlerts ae !! type).
Proof.
  induction types as [|ty types IH]; intros alerts ae Hnd out go.
  { subst out go. simpl.
    split; [done|]. split; [done|]. split; [done|]. by intros ?%elem_of_nil. }
  apply list.NoDup_cons in Hnd as [Hty Hnd].
  subst out. rewrite checks_cons.
  destruct (check_spec ctx now ty alerts ae) as (Ha & Hc & Ht & Hr).
  destruct (check ctx now ty (alerts, ae)) as [alerts1 ae1].
  simpl in Ha, Hc, Ht, Hr.
  destruct (IH alerts1 ae1 Hnd) as (Hc' & Ht' & Hout & Hin).
  split; [congruence|]. split; [congruence|].
  assert (Hfired : fired type alerts1
                   = fired type alerts
                     || (qualifies ae ctx ty && window_open ae ty now
                         && bool_decide (ty = type))).
  { rewrite Ha. destruct (qualifies ae ctx ty && window_open ae ty now); simpl.
    - by rewrite fired_snoc, alert_of_type.
    - by rewrite app_nil_r, orb_false_r. }
  assert (Hother : ty ≠ type →
            recentAlerts ae1 !! type = recentAlerts ae !! type).
  { intros Hne. rewrite Hr.
    destruct (qualifies ae ctx ty && window_open ae ty now);
      [by rewrite lookup_insert_ne | done]. }
  split.
  - intros Hnotin. apply not_elem_of_cons in Hnotin as [Hne Hnotin].
    destruct (Hout Hnotin) as [-> ->]. rewrite Hfired.
    rewrite (bool_decide_eq_false_2 (ty = type)) by done.
    rewrite andb_false_r, orb_false_r. split; [done|]. by apply Hother.
  - intros [<- | Hin']%elem_of_cons.
    + destruct (Hout Hty) as [-> ->]. rewrite Hfired, Hr.
      rewrite bool_decide_eq_true_2, andb_true_r by done. split; [done|].
      subst go. destruct (qualifies ae ctx type && window_open ae type now);
        [by rewrite lookup_insert_eq | done].
    + assert (ty ≠ type) as Hne by (by intros ->).
      destruct (Hin Hin') as [-> ->]. rewrite Hfired.
      rewrite (bool_decide_eq_false_2 (ty = type)) by done.
      rewrite andb_false_r, orb_false_r.
      rewrite <- (qualifies_config ae ae1 ctx type) by done.
      assert (Hw : window_open ae1 type now = window_open ae type now).
      { unfold window_open. by rewrite Ht, (Hother Hne). }
      rewrite Hw, (Hother Hne). done.
Qed.

Lemma alert_types_NoDup : NoDup alert_types.
Proof. apply (bool_decide_unpack _). vm_compute. exact I. Qed.

(** [evaluate], seen from one alert type: the alert fires exactly when the
    evaluation qualifies and the window of the type is open; the stamp of the
    type becomes [now] when it fires and is kept otherwise. *)
Lemma evaluate_spec ae ctx now type :
  type ∈ alert_types →
  let out := evaluate ae ctx now in
  let go := qualifies ae ctx type && window_open ae type now in
  fired type out.1 = go
  ∧ recentAlerts out.2 !! type = (if go then Some now else recentAlerts ae !! type)
  ∧ config out.2 = config ae
  ∧ throttleMs out.2 = throttleMs ae.
Proof.
  intros Hin.
  destruct (checks_spec ctx now type alert_types [] ae alert_types_NoDup)
    as (Hc & Ht & _ & H).
  destruct (H Hin) as [Hf Hr]. rewrite fired_nil in Hf.
  change (checks ctx now alert_types ([], ae)) with (evaluate ae ctx now) in *.
  done.
Qed.

Lemma run_cons ae ctx now rest :
  run ae ((ctx, now) :: rest)
  = ((evaluate ae ctx now).1 :: (run (evaluate ae ctx now).2 rest).1,
     (run (evaluate ae ctx now).2 rest).2).
Proof.
  simpl. destruct (evaluate ae ctx now) as [alerts ae']. simpl.
  by destruct (run ae' rest).
Qed.

(** While every evaluation comes within [throttleMs] of the stamp of a type,
    none of them fires the type, and the stamp stays. *)
Lemma run_within_window type t0 calls : ∀ ae,
  recentAlerts ae !! type = Some t0 → t0 ≠ 0%Z →
  type ∈ alert_types →
  Forall (λ c : Context * Z, (c.2 - t0 ≤ throttleMs ae)%Z) calls →
  Forall (λ alerts, fired type alerts = false) (run ae calls).1
  ∧ recentAlerts (run ae calls).2 !! type = Some t0
  ∧ config (run ae calls).2 = config ae
  ∧ throttleMs (run ae calls).2 = throttleMs ae.
Proof.
  induction calls as [|[ctx now] calls IH]; intros ae Hlast Ht0 Hty Hcalls.
  { simpl. by repeat split. }
  apply list.Forall_cons in Hcalls as [Hnow Hcalls]. simpl in Hnow.
  rewrite run_cons. simpl.
  destruct (evaluate_spec ae ctx now type Hty) as (Hf & Hr & Hc & Ht).
  assert (Hclosed : window_open ae type now = false).
  { unfold window_open. rewrite Hlast. simpl.
    rewrite bool_decide_eq_false_2 by done.
    rewrite bool_decide_eq_false_2 by lia. done. }
  rewrite Hclosed, andb_false_r in Hf, Hr.
  destruct (IH (evaluate ae ctx now).2) as (Hall & Hlast' & Hc' & Ht').
  - by rewrite Hr.
  - done.
  - done.
  - by rewrite Ht.
  - split; [by constructor|]. split; [done|]. split; congruence.
Qed.

(** C9.  Take an evaluation at time [now] (not the zero of the clock) that
    fires an alert of one of the four types.  Then every evaluation that
    follows while at most [throttleMs] have passed since [now], qualifying or
    not, returns no alert of that type; and the first qualifying evaluation
    that comes more than [throttleMs] after [now] fires the type again.  The
    dropped evaluations leave no trace: nothing is queued.  One evaluation
    never returns two alerts of one type. *)
Theorem C9_alert_throttle (ae : t) (ctx : Context) (now : Z) (type : string) :
  type ∈ alert_types → now ≠ 0%Z →
  fired type (evaluate ae ctx now).1 = true →
  let ae1 := (evaluate ae ctx now).2 in
  ∀ calls : list (Context * Z),
    Forall (λ c, (c.2 - now ≤ throttleMs ae)%Z) calls →
    Forall (λ alerts, fired type alerts = false) (run ae1 calls).1
    ∧ recentAlerts (run ae1 calls).2 !! type = Some now
    ∧ (∀ ctx' now',
         (throttleMs ae < now' - now)%Z → qualifies ae ctx' type = true →
         fired type (evaluate (run ae1 calls).2 ctx' now').1 = true
         ∧ recentAlerts (evaluate (run ae1 calls).2 ctx' now').2 !! type
           = Some now')
    ∧ (∀ ae' ctx' now',
         (length (filter (λ a, a_type a = type) (evaluate ae' ctx' now').1)
          ≤ 1)%nat).
Proof.
  intros Hty Hnow Hfired ae1 calls Hcalls.
  destruct (evaluate_spec ae ctx now type Hty) as (Hf & Hr & Hc & Ht).
  fold ae1 in Hr, Hc, Ht. rewrite Hfired in Hf. rewrite <- Hf in Hr.
  destruct (run_within_window type now calls ae1 Hr Hnow Hty)
    as (Hnone & Hlast & Hc' & Ht').
  { by rewrite Ht. }
  split; [done|]. split; [done|]. split.
  - intros ctx' now' Hlate Hq.
    destruct (evaluate_spec (run ae1 calls).2 ctx' now' type Hty)
      as (Hf' & Hr' & _).
    assert (Hgo : qualifies (run ae1 calls).2 ctx' type
                  && window_open (run ae1 calls).2 type now' = true).
    { rewrite <- (qualifies_config ae _ ctx' type) by congruence.
      rewrite Hq. unfold window_open. rewrite Hlast, Ht', Ht. simpl.
      rewrite (bool_decide_eq_true_2 (throttleMs ae < now' - now)%Z) by done.
      by rewrite orb_true_r. }
    rewrite Hgo in Hf', Hr'. done.
  - intros ae' ctx' now'. unfold evaluate.
    repeat match goal with
    | |- context [check ?c ?n ?ty (?al, ?a)] =>
        let H := fresh in
        destruct (check_spec c n ty al a) as (H & _);
        destruct (check c n ty (al, a)); simpl in H; subst
    | |- context [check ?c ?n ?ty ?acc] =>
        let al := fresh "al" in let a := fresh "a" in
        destruct acc as [al a] eqn:?
    end.
    simpl.
    rewrite !list.filter_app.
    repeat match goal with
    | |- context [if ?b then _ else _] => destruct b
    end;
    rewrite ?filter_cons, ?filter_nil; simpl;
    rewrite ?alert_of_type;
    repeat case_decide; simpl; try lia; congruence.
Qed.

End alerts.

(** ** Instances of the theorems on concrete inputs *)

(** A large print fires at 1000 ms; two more large prints at 2000 ms and at
    4000 ms, inside the default 3000 ms window, return nothing; the one at
    4001 ms fires again. *)
Lemma C9_alert_throttle_witness :
  let ae := AlertEvaluator.create None None None None in
  let ctx :=
    {| AlertEvaluator.c_tick := mkTick 0 (num 100 1) (num 50 1) buy;
       AlertEvaluator.cvdPoint := Some (CvdCalculator.mkPoint 0 0 0);
       AlertEvaluator.metrics := Some (MetricsCalculator.mkResult 1 true None);
       AlertEvaluator.dom := None |} in
  let ae1 := (AlertEvaluator.evaluate ae ctx 1000).2 in
  let calls := [(ctx, 2000%Z); (ctx, 4000%Z)] in
  "large_print" ∈ AlertEvaluator.alert_types
  ∧ 1000%Z ≠ 0%Z
  ∧ AlertEvaluator.fired "large_print" (AlertEvaluator.evaluate ae ctx 1000).1 = true
  ∧ Forall (λ alerts, AlertEvaluator.fired "large_print" alerts = false)
           (AlertEvaluator.run ae1 calls).1
  ∧ AlertEvaluator.fired "large_print"
      (AlertEvaluator.evaluate (AlertEvaluator.run ae1 calls).2 ctx 4001).1 = true.
Proof.
  intros ae ctx ae1 calls.
  assert (Hty : "large_print" ∈ AlertEvaluator.alert_types)
    by (apply (bool_decide_unpack _); vm_compute; exact I).
  assert (Hnow : 1000%Z ≠ 0%Z) by discriminate.
  assert (Hfired : AlertEvaluator.fired "large_print"
                     (AlertEvaluator.evaluate ae ctx 1000).1 = true)
    by (vm_compute; reflexivity).
  assert (Hcalls : Forall (λ c : AlertEvaluator.Context * Z,
                             (c.2 - 1000 ≤ AlertEvaluator.throttleMs ae)%Z) calls).
  { repeat constructor; simpl; lia. }
  destruct (C9_alert_throttle ae ctx 1000 "large_print" Hty Hnow Hfired calls Hcalls)
    as (Hnone & _ & Hagain & _).
  split; [exact Hty|]. split; [exact Hnow|]. split; [exact Hfired|].
  split; [exact Hnone|].
  apply Hagain; [simpl; lia | vm_compute; reflexivity].
Defined.


(** ** The samples of the test suite, replayed on the embedding *)

Section samples.

(** A tick with integer price and size. *)
Let tk (t : Z) (p s : Z) (sd : Side) : Tick := mkTick t (num p 1) (num s 1) sd.
Let fa0 := FootprintAggregator.create 60000 (num 1 2) (num 3 1).

Example RingBuffer_last_sample :
  RingBuffer.last (foldl RingBuffer.push (RingBuffer.create 5) [1; 2; 3]%nat) 2 false
  = [Some 2; Some 3]%nat.
Proof. reflexivity. Qed.

Example RingBuffer_overwrite_sample :
  RingBuffer.last
    (foldl RingBuffer.push (RingBuffer.create 3) [1; 2; 3; 4; 5; 6]%nat) 3 false
  = [Some 4; Some 5; Some 6]%nat.
Proof. reflexivity. Qed.

Example RingBuffer_drainSince_sample :
  let rb := RingBuffer.push (RingBuffer.create 100) 1%nat in
  RingBuffer.drainSince (foldl RingBuffer.push rb [2; 3]%nat) (RingBuffer.getHead rb)
  = Some [2; 3]%nat.
Proof. vm_compute. reflexivity. Qed.

Example Footprint_accumulate_sample :
  (FootprintAggregator.bar_after fa0
     [tk 100 100 10 buy; tk 200 100 5 sell; tk 300 100 3 buy]
   ≫= λ bar, FootprintAggregator.levels bar !! num 100 1)
  = Some {| FootprintAggregator.bidVol := num 5 1;
            FootprintAggregator.askVol := num 13 1;
            FootprintAggregator.delta := num 8 1 |}.
Proof. by_decide. Qed.

Example Footprint_totals_sample :
  (λ bar, (FootprintAggregator.totalDelta bar,
           FootprintAggregator.totalAskVol bar,
           FootprintAggregator.totalBidVol bar))
    <$> FootprintAggregator.bar_after fa0
          [tk 100 100 20 buy; mkTick 200 (num 201 2) (num 15 1) sell]
  = Some (num 5 1, num 20 1, num 15 1).
Proof. by_decide. Qed.

Example Footprint_ohlc_sample :
  (λ bar, (FootprintAggregator.open bar, FootprintAggregator.high bar,
           FootprintAggregator.low bar, FootprintAggregator.close bar))
    <$> FootprintAggregator.bar_after fa0
          [tk 10 100 1 buy; tk 20 105 1 buy; tk 30 98 1 sell; tk 40 102 1 buy]
  = Some (num 100 1, num 105 1, num 98 1, num 102 1).
Proof. by_decide. Qed.

Example Footprint_imbalance_sample :
  FootprintAggregator.imbalances
    <$> FootprintAggregator.bar_after fa0
          (((λ i : nat, mkTick (Z.of_nat i * 10) (num 201 2) 1 sell) <$> seq 0 30)
           ++ ((λ i : nat, tk (300 + Z.of_nat i * 10) 100 1 buy) <$> seq 0 5))
  = Some [ {| FootprintAggregator.i_price := num 201 2;
              FootprintAggregator.ratio := num 6 1;
              FootprintAggregator.i_side := bid |} ].
Proof. by_decide. Qed.

Example Footprint_rotation_sample :
  (λ fa, (length (FootprintAggregator.getCompletedBars fa 5),
          FootprintAggregator.open <$> FootprintAggregator.currentBar fa))
    <$> FootprintAggregator.ingest_all fa0 [tk 100 100 5 buy; tk 60100 101 3 sell]
  = Some (1%nat, Some (num 101 1)).
Proof. by_decide. Qed.

Example Cvd_samples :
  let c0 := CvdCalculator.create 0 in
  CvdCalculator.sessionCvd
    (CvdCalculator.ingest_all c0 [tk 0 100 10 buy; tk 0 100 5 buy]) = num 15 1
  ∧ CvdCalculator.sessionCvd (CvdCalculator.ingest_all c0 [tk 0 100 8 sell])
    = num (-8) 1
  ∧ CvdCalculator.sessionCvd
      (CvdCalculator.ingest_all c0 [tk 0 100 10 buy; tk 0 100 10 sell]) = 0
  ∧ CvdCalculator.sessionCvd (CvdCalculator.ingest_all c0 [tk 0 100 100 unknown])
    = 0
  ∧ length (CvdCalculator.getHistory
              (CvdCalculator.ingest_all c0
                 ((λ i : nat, tk (Z.of_nat i) 100 1 buy) <$> seq 0 600)) 1000)
    = 500%nat.
Proof. repeat split; by_decide. Qed.

Example Dom_snapshot_sample :
  let s := DomBuilder.snapshot
             (DomBuilder.update (DomBuilder.create 10)
                [(num 100 1, num 50 1); (num 199 2, num 30 1)]
                [(num 201 2, num 40 1); (num 101 1, num 20 1)]) in
  DomBuilder.bestBid s = Some (num 100 1)
  ∧ DomBuilder.bestAsk s = Some (num 201 2)
  ∧ DomBuilder.spread s = Some (num 1 2)
  ∧ (DomBuilder.change <$> DomBuilder.s_bids s)
    = [DomBuilder.added; DomBuilder.added].
Proof. repeat split; by_decide. Qed.

Example Dom_zero_size_sample :
  DomBuilder.dl_price
    <$> DomBuilder.s_bids
          (DomBuilder.snapshot
             (DomBuilder.update (DomBuilder.create 10)
                [(num 100 1, 0); (num 99 1, num 30 1)] []))
  = [num 99 1].
Proof. by_decide. Qed.

Example Dom_pulled_sample :
  let d := DomBuilder.update
             (DomBuilder.update (DomBuilder.create 10)
                [(num 100 1, num 500 1); (num 99 1, num 10 1)] [])
             [(num 99 1, num 10 1)] [] in
  DomBuilder._calcLargeThreshold d = num 30 1
  ∧ DomBuilder.pulledBids (DomBuilder.snapshot d)
    = [ {| DomBuilder.dl_price := num 100 1; DomBuilder.dl_size := num 500 1;
           DomBuilder.dl_side := bid; DomBuilder.change := DomBuilder.removed;
           DomBuilder.prevSize := None |} ]
  ∧ (DomBuilder.change <$> DomBuilder.s_bids (DomBuilder.snapshot d))
    = [DomBuilder.unchanged].
Proof. repeat split; by_decide. Qed.

Example Alert_throttle_sample :
  let ctx :=
    {| AlertEvaluator.c_tick := tk 0 100 50 buy;
       AlertEvaluator.cvdPoint := Some (CvdCalculator.mkPoint 0 0 0);
       AlertEvaluator.metrics := Some (MetricsCalculator.mkResult 1 true None);
       AlertEvaluator.dom := None |} in
  let ae := AlertEvaluator.create None (Some (num 10 1)) None None in
  length <$> (AlertEvaluator.run ae [(ctx, 1000%Z); (ctx, 1001%Z)]).1
  = [1; 0]%nat.
Proof. by_decide. Qed.

End samples.

(* ===================================================================== *)
(** * Part III: further properties of the code *)
(* ===================================================================== *)

(** ** The ring buffer: reads after writes *)

Section ring_buffer_reads.
Context {A : Type}.
Implicit Types (rb : RingBuffer.t A) (xs : list A).
Import RingBuffer.

(** The fill level after a run of pushes. *)
Lemma pushes_size rb xs :
  (size rb ≤ capacity rb)%nat →
  size (foldl push rb xs) = ((size rb + length xs) `min` capacity rb)%nat.
Proof.
  intros Hsz. induction xs as [|x xs IH] using rev_ind; simpl; [lia|].
  rewrite foldl_snoc, length_app. simpl.
  assert (Hcap : capacity (foldl push rb xs) = capacity rb).
  { clear. induction xs as [|y ys IH] using rev_ind; [done|].
    by rewrite foldl_snoc. }
  rewrite Hcap, IH. case_bool_decide; lia.
Qed.

(** The slot of a pushed item that no later push has overwritten. *)
Lemma pushes_recent rb xs j x :
  wf rb → xs !! j = Some x → (length xs - j ≤ capacity rb)%nat →
  buffer (foldl push rb xs) !! ((head rb + j) mod capacity rb)%nat
  = Some (Some x).
Proof.
  intros Hwf Hj Hrecent.
  pose proof (lookup_lt_Some _ _ _ Hj) as Hlt.
  set (c := (length xs `min` capacity rb)%nat).
  set (ys := take (length xs - c) xs). set (zs := drop (length xs - c) xs).
  assert (Hsplit : xs = ys ++ zs) by (symmetry; apply take_drop).
  assert (Hys : length ys = (length xs - c)%nat)
    by (unfold ys; rewrite length_take; lia).
  assert (Hzs : length zs = c) by (unfold zs; rewrite length_drop; lia).
  destruct (pushes_shape rb ys Hwf) as (Hwf' & Hcap & Hhead).
  rewrite Hsplit, foldl_app.
  assert (Hz : zs !! (j - length ys)%nat = Some x).
  { rewrite Hsplit, lookup_app_r in Hj by lia. done. }
  pose proof (pushes_lookup (foldl push rb ys) zs (j - length ys) x Hwf') as Hl.
  rewrite Hcap, Hhead, Nat.Div0.add_mod_idemp_l in Hl.
  replace (head rb + length ys + (j - length ys))%nat with (head rb + j)%nat
    in Hl by lia.
  apply Hl; [lia | done].
Qed.

(** X1.  Starting from an empty buffer in its regular shape, fresh or just
    cleared, [last(n)] after a run of pushes returns the most recent
    [min(n, pushes, capacity)] pushed items, oldest first; older items and
    whatever the slots held before are never returned. *)
Theorem X1_last_returns_most_recent rb xs (n : nat) :
  wf rb → size rb = 0%nat →
  let m := (n `min` (length xs `min` capacity rb))%nat in
  last (foldl push rb xs) n false = Some <$> drop (length xs - m) xs.
Proof.
  intros Hwf Hempty m.
  destruct (pushes_shape rb xs Hwf) as (Hwf' & Hcap & Hhead).
  pose proof Hwf as (HC & _ & Hh).
  unfold last. rewrite pushes_size, Hempty by lia. simpl.
  fold m. rewrite Hcap, Hhead.
  apply (inj reverse). rewrite reverse_involutive.
  apply list_eq. intros t.
  destruct (decide (t < m)%nat) as [Ht | Ht].
  - rewrite list_lookup_fmap, lookup_seq_lt by done. simpl.
    rewrite reverse_lookup by (rewrite length_fmap, length_drop; lia).
    rewrite length_fmap, length_drop, list_lookup_fmap, lookup_drop.
    replace (length xs - m + (length xs - (length xs - m) - S t))%nat
      with (length xs - S t)%nat by lia.
    destruct (lookup_lt_is_Some_2 xs (length xs - S t)) as [x Hx]; [lia|].
    rewrite Hx. simpl.
    replace (((head rb + length xs) mod capacity rb + capacity rb - S t)
               mod capacity rb)%nat
      with ((head rb + (length xs - S t)) mod capacity rb)%nat.
    + rewrite (pushes_recent rb xs _ x) by (done || lia). done.
    + replace ((head rb + length xs) mod capacity rb + capacity rb - S t)%nat
        with ((head rb + length xs) mod capacity rb + (capacity rb - S t))%nat
        by lia.
      rewrite Nat.Div0.add_mod_idemp_l.
      replace (head rb + length xs + (capacity rb - S t))%nat
        with (head rb + (length xs - S t) + 1 * capacity rb)%nat by lia.
      by rewrite Nat.Div0.mod_add.
  - rewrite !lookup_ge_None_2; [done| |].
    + rewrite length_reverse, length_fmap, length_drop. lia.
    + rewrite length_fmap, length_seq. lia.
Qed.

(** X4.  The fill level counts the pushes and saturates at the capacity:
    it never exceeds it, whatever is pushed. *)
Theorem X4_size_saturates rb xs :
  (size rb ≤ capacity rb)%nat →
  getSize (foldl push rb xs) = ((size rb + length xs) `min` capacity rb)%nat
  ∧ (getSize (foldl push rb xs) ≤ capacity rb)%nat.
Proof.
  intros Hsz. unfold getSize. rewrite (pushes_size rb xs Hsz). lia.
Qed.

(** A run of pushes whose length is a multiple of the capacity brings the
    head back to where it was. *)
Lemma pushes_full_laps rb xs q :
  wf rb → length xs = (q * capacity rb)%nat →
  wf (foldl push rb xs)
  ∧ capacity (foldl push rb xs) = capacity rb
  ∧ head (foldl push rb xs) = head rb.
Proof.
  intros Hwf Hlen. destruct (pushes_shape rb xs Hwf) as (Hwf' & Hcap & Hhead).
  split; [done|]. split; [done|].
  rewrite Hhead, Hlen, Nat.Div0.mod_add. apply Nat.mod_small, Hwf.
Qed.

(** X2.  Whatever the number [k] of items pushed after a cursor was taken,
    [drainSince] of that cursor terminates and returns the last
    [k mod capacity] of them, in push order: everything pushed when fewer
    than [capacity] items came, nothing after exactly one lap, and only the
    items of the lap in progress after more. *)
Theorem X2_drainSince_returns_lap_in_progress rb xs :
  wf rb →
  drainSince (foldl push rb xs) (getHead rb)
  = Some (drop (length xs - length xs mod capacity rb) xs).
Proof.
  intros Hwf. pose proof Hwf as (HC & _ & Hh).
  set (j := (length xs mod capacity rb)%nat).
  assert (Hj : (j < capacity rb)%nat)
    by (apply Nat.mod_upper_bound; lia).
  assert (Hjle : (j ≤ length xs)%nat) by (apply Nat.Div0.mod_le).
  set (ys := take (length xs - j) xs). set (zs := drop (length xs - j) xs).
  assert (Hys : length ys = (length xs / capacity rb * capacity rb)%nat).
  { unfold ys. rewrite length_take.
    pose proof (Nat.div_mod_eq (length xs) (capacity rb)). fold j in H. lia. }
  destruct (pushes_full_laps rb ys _ Hwf Hys) as (Hwf' & Hcap & Hhead).
  assert (Hzs : length zs = j) by (unfold zs; rewrite length_drop; lia).
  replace xs with (ys ++ zs) at 1 by apply take_drop.
  rewrite foldl_app. unfold getHead. rewrite <- Hhead.
  set (rb' := foldl push rb ys) in *.
  destruct (pushes_shape rb' zs Hwf') as (_ & Hcap' & Hhead').
  unfold drainSince. case_bool_decide as Hsame.
  - rewrite Hhead' in Hsame.
    assert (length zs = 0%nat) as Hnil.
    { symmetry. apply (mod_shift_inj (capacity rb') (head rb'));
        [lia | lia |].
      rewrite Nat.add_0_r, Nat.mod_small; [done | apply Hwf']. }
    by apply nil_length_inv in Hnil as ->.
  - rewrite Hcap'.
    pose proof (drainSince_loop_pushed rb' zs Hwf' ltac:(lia) (length zs) 0
                  (capacity rb') eq_refl ltac:(lia)) as Hloop.
    rewrite Nat.add_0_r, Nat.mod_small in Hloop by apply Hwf'.
    by rewrite Hloop.
Qed.

(** The loop of [drainSince] collects at most one item per iteration. *)
Lemma drainSince_loop_bound rb :
  wf rb →
  ∀ n pos fuel,
    (pos < capacity rb)%nat → ((pos + n) mod capacity rb = head rb)%nat →
    (n ≤ fuel)%nat →
    ∃ items, drainSince_loop rb fuel pos = Some items ∧ (length items ≤ n)%nat.
Proof.
  intros (HC & Hlen & Hhead).
  induction n as [|n IH]; intros pos fuel Hpos Hn Hfuel.
  - rewrite Nat.add_0_r, Nat.mod_small in Hn by done.
    exists []. split; [|done].
    destruct fuel; simpl; by rewrite bool_decide_eq_true_2.
  - destruct fuel as [|fuel]; [lia|]. simpl.
    case_bool_decide; [exists []; split; [done | simpl; lia]|].
    destruct (IH ((pos + 1) mod capacity rb)%nat fuel) as (rest & -> & Hrest).
    + apply Nat.mod_upper_bound. lia.
    + rewrite Nat.Div0.add_mod_idemp_l, <- Hn. f_equal. lia.
    + lia.
    + simpl. destruct (mjoin (buffer rb !! pos));
        eexists; (split; [reflexivity|]); simpl; lia.
Qed.

(** X3.  For every buffer in its regular shape and every cursor inside it,
    taken from this buffer or not, the loop of [drainSince] ends within
    [capacity] iterations and returns fewer than [capacity] items. *)
Theorem X3_drainSince_terminates rb (cursor : nat) :
  wf rb → (cursor < capacity rb)%nat →
  ∃ items, drainSince rb cursor = Some items
           ∧ (length items < capacity rb)%nat.
Proof.
  intros Hwf Hc. pose proof Hwf as (HC & Hlen & Hhead).
  unfold drainSince. case_bool_decide; [exists []; split; [done | simpl; lia]|].
  set (n := ((head rb + capacity rb - cursor) mod capacity rb)%nat).
  assert (Hn : (n < capacity rb)%nat)
    by (apply Nat.mod_upper_bound; lia).
  destruct (drainSince_loop_bound rb Hwf n cursor (capacity rb))
    as (items & Hitems & Hl); [done| |lia|].
  - unfold n. rewrite Nat.Div0.add_mod_idemp_r.
    replace (cursor + (head rb + capacity rb - cursor))%nat
      with (head rb + 1 * capacity rb)%nat by lia.
    rewrite Nat.Div0.mod_add. by apply Nat.mod_small.
  - exists items. split; [done | lia].
Qed.

End ring_buffer_reads.

(** A buffer of capacity 3 that held three items, cleared, then given 4, 5:
    the last three are 4 and 5 only. *)
Lemma X1_last_returns_most_recent_witness :
  let rb := RingBuffer.clear
              (foldl RingBuffer.push (RingBuffer.create 3) [1; 2; 3]%nat) in
  RingBuffer.wf rb ∧ RingBuffer.size rb = 0%nat
  ∧ RingBuffer.last (foldl RingBuffer.push rb [4; 5]%nat) 3 false
    = [Some 4; Some 5]%nat.
Proof.
  intros rb.
  assert (Hwf : RingBuffer.wf rb) by (repeat split; simpl; lia).
  assert (Hsz : RingBuffer.size rb = 0%nat) by reflexivity.
  split; [exact Hwf|]. split; [exact Hsz|].
  exact (X1_last_returns_most_recent rb [4; 5]%nat 3 Hwf Hsz).
Defined.

(** Four pushes into a buffer of capacity 3 after the cursor 0: one lap and
    one item, and the drain returns that item. *)
Lemma X2_drainSince_returns_lap_in_progress_witness :
  RingBuffer.wf (RingBuffer.create (A:=nat) 3)
  ∧ RingBuffer.drainSince
      (foldl RingBuffer.push (RingBuffer.create 3) [1; 2; 3; 4]%nat)
      (RingBuffer.getHead (RingBuffer.create (A:=nat) 3))
    = Some [4]%nat.
Proof.
  assert (Hwf : RingBuffer.wf (RingBuffer.create (A:=nat) 3))
    by (repeat split; simpl; lia).
  split; [exact Hwf|].
  exact (X2_drainSince_returns_lap_in_progress _ [1; 2; 3; 4]%nat Hwf).
Defined.

Lemma X3_drainSince_terminates_witness :
  let rb := foldl RingBuffer.push (RingBuffer.create 3) [1; 2; 3; 4]%nat in
  RingBuffer.wf rb ∧ (2 < RingBuffer.capacity rb)%nat
  ∧ ∃ items, RingBuffer.drainSince rb 2 = Some items
             ∧ (length items < RingBuffer.capacity rb)%nat.
Proof.
  intros rb.
  assert (Hwf : RingBuffer.wf rb) by (repeat split; simpl; lia).
  assert (Hc : (2 < RingBuffer.capacity rb)%nat) by (simpl; lia).
  split; [exact Hwf|]. split; [exact Hc|].
  exact (X3_drainSince_terminates rb 2 Hwf Hc).
Defined.

Lemma X4_size_saturates_witness :
  let rb := RingBuffer.create (A:=nat) 3 in
  (RingBuffer.size rb ≤ RingBuffer.capacity rb)%nat
  ∧ RingBuffer.getSize (foldl RingBuffer.push rb [1; 2; 3; 4; 5]%nat) = 3%nat.
Proof.
  intros rb.
  assert (Hsz : (RingBuffer.size rb ≤ RingBuffer.capacity rb)%nat) by (simpl; lia).
  split; [exact Hsz|].
  exact (proj1 (X4_size_saturates rb [1; 2; 3; 4; 5]%nat Hsz)).
Defined.

(** ** The order book: ranking, best prices, repeated and empty updates *)

Section dom_views.
Import DomBuilder.

Global Instance before_trans sd : Transitive (before sd).
Proof.
  intros a b c. destruct sd; simpl; intros H1 H2.
  - by apply Qcle_trans with b.1.
  - by apply Qcle_trans with b.1.
Qed.

Global Instance before_total sd : Total (before sd).
Proof.
  intros a b. destruct sd; simpl.
  - destruct (Qc_le_total b.1 a.1); auto.
  - destruct (Qc_le_total a.1 b.1); auto.
Qed.

(** The entries of a map, sorted for a side: ordered, all there, each price
    once. *)
Lemma sorted_entries sd (cur : gmap Qc Qc) :
  let es := merge_sort (before sd) (map_to_list cur) in
  StronglySorted (before sd) es ∧ NoDup es.*1
  ∧ (∀ p sz, (p, sz) ∈ es ↔ cur !! p = Some sz)
  ∧ length es = base.size cur.
Proof.
  simpl. split; [|split; [|split]].
  - apply StronglySorted_merge_sort; apply _.
  - rewrite merge_sort_Permutation. apply NoDup_fst_map_to_list.
  - intros p sz. rewrite merge_sort_Permutation. apply elem_of_map_to_list.
  - rewrite merge_sort_Permutation. apply length_map_to_list.
Qed.

(** Distinct prices turn the order of the comparator into a strict one. *)
Lemma sorted_strict sd (es : list (Qc * Qc)) :
  StronglySorted (before sd) es → NoDup es.*1 →
  StronglySorted (λ a b, match sd with
                         | bid => b.1 < a.1
                         | ask => a.1 < b.1
                         end) es.
Proof.
  induction es as [|e es IH]; intros Hs Hnd; [constructor|].
  apply StronglySorted_cons in Hs as [Hall Hs].
  rewrite fmap_cons in Hnd. apply list.NoDup_cons in Hnd as [Hnotin Hnd].
  apply StronglySorted_cons. split; [|by apply IH].
  apply list.Forall_forall. intros y Hy.
  rewrite list.Forall_forall in Hall. specialize (Hall y Hy).
  assert (Hne : e.1 ≠ y.1).
  { intros Heq. apply Hnotin. rewrite Heq. apply list_elem_of_fmap. by exists y. }
  destruct sd; simpl in *.
  - destruct (Qcle_lt_or_eq _ _ Hall) as [? | ?]; [done | congruence].
  - destruct (Qcle_lt_or_eq _ _ Hall) as [? | ?]; [done | congruence].
Qed.

(** X5.  The ranked view of either side never holds more than [maxLevels]
    levels (it holds the whole side when that fits), and it is strictly
    ordered by price, bids from the highest down and asks from the lowest
    up, so no price appears twice. *)
Theorem X5_view_is_ranked (d : DomBuilder.t) (sd : BookSide) :
  let v := view sd (snapshot d) in
  length v = (maxLevels d `min` base.size (book sd d))%nat
  ∧ StronglySorted (better sd) v
  ∧ ∀ l, l ∈ v → dl_side l = sd.
Proof.
  intros v. subst v. rewrite snapshot_view. unfold buildLevels.
  destruct (sorted_entries sd (book sd d)) as (Hs & Hnd & _ & Hlen).
  split; [|split].
  - rewrite length_fmap, length_take, Hlen. done.
  - pose proof (sorted_strict sd _ Hs Hnd) as Hstrict.
    rewrite <- (take_drop (maxLevels d)) in Hstrict.
    apply StronglySorted_app_1_l in Hstrict.
    eapply StronglySorted_fmap; [|exact Hstrict].
    intros x y Hxy. by destruct sd.
  - by intros l (e & -> & _)%list_elem_of_fmap.
Qed.

Lemma snapshot_best sd d :
  bestOf sd (snapshot d) = dl_price <$> head (view sd (snapshot d)).
Proof. by destruct sd. Qed.

(** X6.  With room for at least one level in the view, the best bid of a
    snapshot is the highest bid price of the book and the best ask the
    lowest ask price; a side has no best price exactly when it is empty; and
    the spread is the best ask minus the best bid, present exactly when both
    are. *)
Theorem X6_best_prices (d : DomBuilder.t) :
  (0 < maxLevels d)%nat →
  let s := snapshot d in
  (∀ sd p, bestOf sd s = Some p ↔ best_of sd (book sd d) p)
  ∧ (∀ sd, bestOf sd s = None ↔ book sd d = ∅)
  ∧ spread s = match bestBid s, bestAsk s with
               | Some b, Some a => Some (a - b)
               | _, _ => None
               end.
Proof.
  intros Hmax s.
  assert (Hhead : ∀ sd,
            head (view sd s)
            = (λ e, {| dl_price := e.1; dl_size := e.2; dl_side := sd;
                       change := classify e.2 (prevBook sd d !! e.1);
                       prevSize := prevBook sd d !! e.1 |})
                <$> head (merge_sort (before sd) (map_to_list (book sd d)))).
  { intros sd. subst s. rewrite snapshot_view. unfold buildLevels.
    destruct (merge_sort _ _) as [|e es]; [by rewrite take_nil|].
    destruct (maxLevels d); [lia | done]. }
  split; [|split].
  - intros sd p. unfold s. rewrite snapshot_best. fold s. rewrite Hhead.
    destruct (sorted_entries sd (book sd d)) as (Hs & Hnd & Hin & _).
    destruct (merge_sort (before sd) (map_to_list (book sd d)))
      as [|[p0 s0] es] eqn:Esorted; simpl.
    + split; [done|]. intros [[sz Hp] _].
      apply Hin in Hp. by apply elem_of_nil in Hp.
    + apply StronglySorted_cons in Hs as [Hall _].
      rewrite list.Forall_forall in Hall.
      assert (Hbest : best_of sd (book sd d) p0).
      { split; [exists s0; apply Hin; by left|].
        intros q [sq Hq]. apply Hin in Hq.
        apply elem_of_cons in Hq as [[= -> ->] | Hq].
        - destruct sd; apply Qcle_refl.
        - specialize (Hall _ Hq). by destruct sd. }
      split; [by intros [= <-]|].
      intros [Hp Hmaxp]. f_equal.
      destruct Hbest as [Hp0 Hmax0].
      specialize (Hmaxp _ Hp0). specialize (Hmax0 _ Hp).
      destruct sd; by apply Qcle_antisym.
  - intros sd. unfold s. rewrite snapshot_best. fold s. rewrite Hhead.
    rewrite <- (map_to_list_empty_iff (book sd d)).
    destruct (merge_sort (before sd) (map_to_list (book sd d))) as [|e es] eqn:E.
    + split; [|done]. intros _.
      apply Permutation_nil_r. by rewrite <- E, merge_sort_Permutation.
    + split; [done|]. intros Hnil.
      pose proof (merge_sort_Permutation (before sd) (map_to_list (book sd d)))
        as Hperm.
      rewrite E, Hnil in Hperm. by apply Permutation_nil_r in Hperm.
  - subst s. simpl.
    by destruct (head (buildLevels _ (bids d) _ _)),
                (head (buildLevels _ (asks d) _ _)).
Qed.

Lemma X6_best_prices_witness :
  let d := update (create 10)
             [(num 100 1, num 50 1); (num 199 2, num 30 1)]
             [(num 201 2, num 40 1); (num 101 1, num 20 1)] in
  (0 < maxLevels d)%nat
  ∧ best_of bid (bids d) (num 100 1)
  ∧ best_of ask (asks d) (num 201 2)
  ∧ spread (snapshot d) = Some (num 1 2).
Proof.
  intros d.
  assert (Hmax : (0 < maxLevels d)%nat) by (simpl; lia).
  destruct (X6_best_prices d Hmax) as (Hbest & _ & _).
  split; [exact Hmax|]. split; [|split].
  - apply (Hbest bid). by_decide.
  - apply (Hbest ask). by_decide.
  - by_decide.
Defined.

(** X7.  When the same depth input is sent twice in a row, the second
    snapshot reports every level of its views as [unchanged], with its own
    size as previous size, and reports nothing as pulled. *)
Theorem X7_repeated_update_is_quiet (d : DomBuilder.t)
    (bidsIn asksIn : list (Qc * Qc)) (sd : BookSide) :
  let s := snapshot (update (update d bidsIn asksIn) bidsIn asksIn) in
  (∀ l, l ∈ view sd s →
        change l = unchanged ∧ prevSize l = Some (dl_size l))
  ∧ pulledOf sd s = [].
Proof.
  intros s. subst s.
  set (d1 := update d bidsIn asksIn).
  destruct (update_books sd d1 bidsIn asksIn) as [Hbook Hprev].
  destruct (update_books sd d bidsIn asksIn) as [Hbook1 _]. fold d1 in Hbook1.
  rewrite snapshot_view, snapshot_pulled, Hprev, Hbook, Hbook1.
  split.
  - intros l (Hcur & _ & Hps & Hch)%buildLevels_elem.
    rewrite Hch, Hps, Hcur, classify_spec.
    by rewrite bool_decide_eq_true_2.
  - apply elem_of_nil_inv. intros l (p & sz & _ & Hp & _ & Hgone)%pulled_elem.
    congruence.
Qed.

Lemma fill_no_positive input :
  (∀ e, e ∈ input → ¬ 0 < e.2) → fill input = ∅.
Proof.
  intros Hin. apply map_eq. intros p. rewrite lookup_empty.
  apply fill_None. intros sz Hp. by apply (Hin (p, sz)).
Qed.

(** X8.  An update that brings no entry of positive size on either side, the
    empty update for one, is not an error: the snapshot after it has empty
    views, no best bid, no best ask and no spread; its large-size threshold
    is the constant 100, and its pulled lists hold exactly the levels of the
    previous book whose size was at least 100. *)
Theorem X8_empty_update (d : DomBuilder.t) (bidsIn asksIn : list (Qc * Qc)) :
  (∀ e, e ∈ bidsIn ++ asksIn → ¬ 0 < e.2) →
  let d' := update d bidsIn asksIn in
  let s := snapshot d' in
  s_bids s = [] ∧ s_asks s = []
  ∧ bestBid s = None ∧ bestAsk s = None ∧ spread s = None
  ∧ stackedBids s = [] ∧ stackedAsks s = []
  ∧ _calcLargeThreshold d' = num 100 1
  ∧ ∀ sd l, l ∈ pulledOf sd s
            ↔ ∃ p sz, l = {| dl_price := p; dl_size := sz; dl_side := sd;
                             change := removed; prevSize := None |}
                      ∧ book sd d !! p = Some sz ∧ num 100 1 ≤ sz.
Proof.
  intros Hin d' s.
  assert (Hb : bids d' = ∅).
  { apply fill_no_positive. intros e He. apply Hin, elem_of_app. by left. }
  assert (Ha : asks d' = ∅).
  { apply fill_no_positive. intros e He. apply Hin, elem_of_app. by right. }
  assert (Hthr : _calcLargeThreshold d' = num 100 1).
  { unfold _calcLargeThreshold. by rewrite Hb, Ha, map_to_list_empty. }
  assert (Hv : ∀ prev sd, buildLevels (maxLevels d') ∅ prev sd = []).
  { intros prev sd. unfold buildLevels.
    rewrite map_to_list_empty. cbn. by rewrite take_nil. }
  assert (Hview : ∀ sd, view sd s = []).
  { intros sd. subst s. rewrite snapshot_view.
    assert (book sd d' = ∅) as -> by (by destruct sd). apply Hv. }
  pose proof (Hview bid) as Hvb. pose proof (Hview ask) as Hva.
  change (view bid s) with (s_bids s) in Hvb.
  change (view ask s) with (s_asks s) in Hva.
  split; [exact Hvb|]. split; [exact Hva|].
  split; [change (bestBid s) with (dl_price <$> head (s_bids s)); by rewrite Hvb|].
  split; [change (bestAsk s) with (dl_price <$> head (s_asks s)); by rewrite Hva|].
  split.
  { change (spread s) with (match head (s_bids s), head (s_asks s) with
                            | Some b, Some a => Some (dl_price a - dl_price b)
                            | _, _ => None
                            end). by rewrite Hvb. }
  split.
  { change (stackedBids s) with (stacked (_calcLargeThreshold d') (s_bids s)).
    by rewrite Hvb. }
  split.
  { change (stackedAsks s) with (stacked (_calcLargeThreshold d') (s_asks s)).
    by rewrite Hva. }
  split; [exact Hthr|].
  intros sd l. subst s.
  rewrite snapshot_pulled, Hthr, pulled_elem.
  destruct (update_books sd d bidsIn asksIn) as [_ Hprev]. fold d' in Hprev.
  rewrite Hprev.
  assert (Hcur : book sd d' = ∅) by (by destruct sd).
  rewrite Hcur. split.
  - intros (p & sz & -> & Hp & Hle & _). by exists p, sz.
  - intros (p & sz & -> & Hp & Hle). exists p, sz. by rewrite lookup_empty.
Qed.

Lemma X8_empty_update_witness :
  let d := update (create 10)
             [(num 100 1, num 500 1); (num 99 1, num 10 1)] [] in
  (∀ e : Qc * Qc, e ∈ [] ++ [] → ¬ 0 < e.2)
  ∧ s_bids (snapshot (update d [] [])) = []
  ∧ bestBid (snapshot (update d [] [])) = None
  ∧ {| dl_price := num 100 1; dl_size := num 500 1; dl_side := bid;
       change := removed; prevSize := None |}
    ∈ pulledBids (snapshot (update d [] [])).
Proof.
  intros d.
  assert (Hin : ∀ e : Qc * Qc, e ∈ [] ++ [] → ¬ 0 < e.2)
    by (by intros e ?%elem_of_nil).
  destruct (X8_empty_update d [] [] Hin)
    as (Hb & _ & Hbb & _ & _ & _ & _ & _ & Hpulled).
  split; [exact Hin|]. split; [exact Hb|]. split; [exact Hbb|].
  apply (Hpulled bid). exists (num 100 1), (num 500 1).
  split; [reflexivity|]. split; [by_decide | by_decide].
Defined.

End dom_views.

(** ** Footprint bars: accounting, history, buckets *)

Section footprint_more.
Import FootprintAggregator.

Lemma sum_levels_insert (f : Level → Qc) (lv : gmap Qc Level) p (l' : Level) :
  sum_levels f (<[p := l']> lv)
  = sum_levels f lv - (if lv !! p is Some l then f l else 0) + f l'.
Proof.
  unfold sum_levels.
  assert (Hcomm : ∀ (m : gmap Qc Level) (j1 j2 : Qc) (z1 z2 : Level) (y : Qc),
            j1 ≠ j2 → m !! j1 = Some z1 → m !! j2 = Some z2 →
            y + f z2 + f z1 = y + f z1 + f z2) by (intros; ring).
  destruct (lv !! p) as [l|] eqn:El.
  - rewrite <- (insert_delete_eq lv).
    rewrite map_fold_insert_L; [|by eauto|by rewrite lookup_delete_eq].
    rewrite (map_fold_delete_L _ _ p l lv); [ring|by eauto|done].
  - rewrite map_fold_insert_L; [ring|by eauto|done].
Qed.

(** A property of bars that new bars have and that adding a trade and
    recomputing the imbalances keep holds of every bar an aggregator of a
    fixed bar duration ever holds. *)
Lemma bars_invariant (d : Z) (P : Bar → Prop) :
  (∀ fa t p, barDurationMs fa = d → P (_newBar fa t p)) →
  (∀ fa b tick, P b → P (add_to_bar fa b tick)) →
  (∀ b imbs, P b → P (with_imbalances b imbs)) →
  ∀ ticks fa,
    barDurationMs fa = d → (∀ b, bar_of fa b → P b) →
    ∃ fa', ingest_all fa ticks = Some fa' ∧ barDurationMs fa' = d
           ∧ maxBars fa' = maxBars fa
           ∧ ∀ b, bar_of fa' b → P b.
Proof.
  intros Hnew Hadd Himb.
  induction ticks as [|tick ticks IH]; intros fa Hd Hfa.
  { exists fa. by repeat split. }
  assert (Hstep : ∃ fa1, ingest fa tick = Some fa1 ∧ barDurationMs fa1 = d
                         ∧ maxBars fa1 = maxBars fa
                         ∧ ∀ b, bar_of fa1 b → P b).
  { unfold ingest, rotate.
    destruct (currentBar fa) as [cb|] eqn:Ecb.
    - case_bool_decide as Hts.
      + destruct (_finalizeBar_total fa cb) as (imbs & _ & ->). simpl.
        eexists. split; [reflexivity|]. simpl. split; [done|]. split; [done|].
        intros b [Hb | Hb]; simpl in *.
        * injection Hb as <-. apply Hadd, Hnew, Hd.
        * apply push_capped_elem_of in Hb as [Hb | ->].
          -- apply Hfa. by right.
          -- apply Himb, Hfa. by left.
      + simpl. rewrite Ecb. simpl.
        eexists. split; [reflexivity|]. simpl. split; [done|]. split; [done|].
        intros b [Hb | Hb]; simpl in *.
        * injection Hb as <-. apply Hadd, Hfa. by left.
        * apply Hfa. by right.
    - simpl. eexists. split; [reflexivity|]. simpl. split; [done|]. split; [done|].
      intros b [Hb | Hb]; simpl in *.
      + injection Hb as <-. apply Hadd, Hnew, Hd.
      + apply Hfa. by right. }
  destruct Hstep as (fa1 & Hing & Hd1 & Hm1 & Hfa1).
  destruct (IH fa1 Hd1 Hfa1) as (fa' & Hrun & Hd' & Hm' & Hfa').
  exists fa'. unfold ingest_all in *. simpl. rewrite Hing.
  split; [done|]. split; [done|]. split; [congruence | done].
Qed.

Lemma ingest_all_snoc fa ticks tick :
  ingest_all fa (ticks ++ [tick]) = ingest_all fa ticks ≫= λ fa', ingest fa' tick.
Proof. unfold ingest_all. by rewrite foldl_snoc. Qed.

Lemma finalized_spec fa bar :
  _finalizeBar fa bar = Some (finalized fa bar)
  ∧ levels (finalized fa bar) = levels bar
  ∧ (open (finalized fa bar), high (finalized fa bar),
     low (finalized fa bar), close (finalized fa bar))
    = (open bar, high bar, low bar, close bar)
  ∧ (totalVolume (finalized fa bar), totalDelta (finalized fa bar),
     totalBidVol (finalized fa bar), totalAskVol (finalized fa bar))
    = (totalVolume bar, totalDelta bar, totalBidVol bar, totalAskVol bar)
  ∧ (openTs (finalized fa bar), closeTs (finalized fa bar))
    = (openTs bar, closeTs bar).
Proof.
  unfold finalized.
  destruct (_finalizeBar_total fa bar) as (imbs & _ & ->). by simpl.
Qed.

(** X10.  One call of [ingest], whatever the tick and the state, the bar
    duration being other than 0 (where [Math.floor(ts / 0) * 0] is no
    number): it completes; the configuration is kept; the tick is added to the bar it
    lands in, which is then the current bar; and the completed bars are left
    alone when the tick stays in the bucket of the current bar or there is no
    current bar, while a tick of another bucket pushes exactly one bar on the
    capped history, the bar that was current, with its levels, prices and
    totals as they stood and its imbalances computed. *)
Theorem X10_ingest_step (fa : t) (tick : Tick) :
  barDurationMs fa ≠ 0%Z →
  ∃ fa',
    ingest fa tick = Some fa'
    ∧ (barDurationMs fa', tickSize fa', imbalanceRatio fa', maxBars fa')
      = (barDurationMs fa, tickSize fa, imbalanceRatio fa, maxBars fa)
    ∧ currentBar fa' = Some (add_to_bar fa (landing_bar fa tick) tick)
    ∧ completedBars fa' = completed_after fa tick
    ∧ ∀ cb, currentBar fa = Some cb →
            _finalizeBar fa cb = Some (finalized fa cb)
            ∧ levels (finalized fa cb) = levels cb
            ∧ (open (finalized fa cb), high (finalized fa cb),
               low (finalized fa cb), close (finalized fa cb))
              = (open cb, high cb, low cb, close cb)
            ∧ (totalVolume (finalized fa cb), totalDelta (finalized fa cb),
               totalBidVol (finalized fa cb), totalAskVol (finalized fa cb))
              = (totalVolume cb, totalDelta cb, totalBidVol cb, totalAskVol cb).
Proof.
  intros _.
  assert (Hfin : ∀ cb, _finalizeBar fa cb = Some (finalized fa cb))
    by (intros cb; apply finalized_spec).
  unfold ingest, rotate, landing_bar, completed_after.
  destruct (currentBar fa) as [cb|] eqn:Ecb.
  - case_bool_decide as Hts.
    + rewrite Hfin. simpl. rewrite bool_decide_eq_false_2 by done.
      eexists. split; [reflexivity|]. simpl.
      do 3 (split; [done|]).
      intros ? [= <-]. destruct (finalized_spec fa cb) as (? & ? & ? & ? & _).
      done.
    + simpl. rewrite Ecb. simpl. rewrite bool_decide_eq_true_2 by done.
      eexists. split; [reflexivity|]. simpl.
      do 3 (split; [done|]).
      intros ? [= <-]. destruct (finalized_spec fa cb) as (? & ? & ? & ? & _).
      done.
  - simpl. eexists. split; [reflexivity|]. simpl.
    do 3 (split; [done|]). by intros ? [=].
Qed.

Lemma X10_ingest_step_witness :
  let fa0 := create 60000 1 (num 3 1) in
  let t1 := mkTick 1000 (num 100 1) (num 2 1) buy in
  let t2 := mkTick 61000 (num 101 1) (num 3 1) sell in
  barDurationMs fa0 ≠ 0%Z
  ∧ ∃ fa1 fa2, ingest fa0 t1 = Some fa1 ∧ barDurationMs fa1 ≠ 0%Z
               ∧ ingest fa1 t2 = Some fa2
               ∧ totalVolume <$> completedBars fa2 = [num 2 1]
               ∧ totalVolume <$> currentBar fa2 = Some (num 3 1).
Proof.
  intros fa0 t1 t2.
  assert (H0 : barDurationMs fa0 ≠ 0%Z) by done.
  split; [exact H0|].
  destruct (X10_ingest_step fa0 t1 H0) as (fa1 & Hing1 & Hcfg1 & Hcur1 & Hdone1 & _).
  assert (H1 : barDurationMs fa1 ≠ 0%Z).
  { injection Hcfg1 as -> _ _ _. exact H0. }
  destruct (X10_ingest_step fa1 t2 H1) as (fa2 & Hing2 & Hcfg2 & Hcur2 & Hdone2 & _).
  pose proof Hing1 as Hc1. vm_compute in Hc1. injection Hc1 as <-.
  pose proof Hing2 as Hc2. vm_compute in Hc2. injection Hc2 as <-.
  eexists _, _. split; [exact Hing1|]. split; [exact H1|].
  split; [exact Hing2|].
  split; by_decide.
Defined.

Lemma push_capped_length {A} cap (l : list A) x :
  (length l ≤ cap)%nat → (length (push_capped cap l x) ≤ cap)%nat.
Proof.
  intros Hl. unfold push_capped. case_bool_decide as Hc.
  - rewrite length_app in Hc. simpl in Hc.
    destruct l; simpl in *; [lia|]. rewrite length_app. simpl. lia.
  - lia.
Qed.

(** X11.  The history of completed bars is capped: if it holds at most
    [maxBars] bars, it holds at most [maxBars] bars after any sequence of
    trades, the oldest bar leaving first. *)
Theorem X11_completed_bars_capped (fa : t) (ticks : list Tick) :
  (length (completedBars fa) ≤ maxBars fa)%nat →
  ∃ fa', ingest_all fa ticks = Some fa'
         ∧ maxBars fa' = maxBars fa
         ∧ (length (completedBars fa') ≤ maxBars fa)%nat.
Proof.
  revert fa. induction ticks as [|tick ticks IH]; intros fa Hlen.
  { by exists fa. }
  assert (Hstep : ∃ fa1, ingest fa tick = Some fa1
                         ∧ maxBars fa1 = maxBars fa
                         ∧ (length (completedBars fa1) ≤ maxBars fa)%nat).
  { unfold ingest, rotate.
    destruct (currentBar fa) as [cb|] eqn:Ecb.
    - case_bool_decide as Hts.
      + destruct (_finalizeBar_total fa cb) as (imbs & _ & ->). simpl.
        eexists. split; [reflexivity|]. simpl. split; [done|].
        by apply push_capped_length.
      + simpl. rewrite Ecb. simpl. eexists. by split.
    - simpl. eexists. by split. }
  destruct Hstep as (fa1 & Hing & Hm & Hl).
  destruct (IH fa1) as (fa' & Hrun & Hm' & Hl'); [by rewrite Hm|].
  exists fa'. unfold ingest_all in *. simpl. rewrite Hing.
  split; [done|]. split; [congruence|]. by rewrite <- Hm.
Qed.

Lemma X11_completed_bars_capped_witness :
  let fa := {| barDurationMs := 1000; tickSize := 1; imbalanceRatio := num 3 1;
               currentBar := None; completedBars := []; maxBars := 2 |} in
  let ticks := (λ i : nat, mkTick (Z.of_nat i * 1000) (num 100 1) 1 buy)
                 <$> seq 0 6 in
  (length (completedBars fa) ≤ maxBars fa)%nat
  ∧ (length <$> (completedBars <$> ingest_all fa ticks)) = Some 2%nat.
Proof.
  intros fa ticks.
  assert (Hlen : (length (completedBars fa) ≤ maxBars fa)%nat) by (simpl; lia).
  split; [exact Hlen|].
  destruct (X11_completed_bars_capped fa ticks Hlen) as (fa' & Hrun & _ & Hle).
  by_decide.
Defined.

Lemma bucket_bounds (t d : Z) :
  (0 < d)%Z →
  (bucket t d ≤ t < bucket t d + d)%Z ∧ (bucket t d mod d = 0)%Z.
Proof.
  intros Hd. unfold bucket.
  pose proof (Z.div_mod t d ltac:(lia)) as Hdm.
  pose proof (Z.mod_pos_bound t d Hd) as Hb.
  split; [lia|]. apply Z.mod_mul. lia.
Qed.

(** X12.  Bars are cut by the timestamps alone.  With a positive bar
    duration [d], the current bar after any trades from a new aggregator is
    the bucket of the last trade: it opens at [floor(ts / d) * d], a multiple
    of [d], closes [d] later, and the timestamp of the last trade lies in
    [openTs, closeTs). *)
Theorem X12_current_bar_is_bucket_of_last_tick
    (d : Z) (tickSize imbalanceRatio : Qc) (ticks : list Tick) (tick : Tick) :
  (0 < d)%Z →
  ∃ fa bar,
    ingest_all (create d tickSize imbalanceRatio) (ticks ++ [tick]) = Some fa
    ∧ currentBar fa = Some bar
    ∧ openTs bar = bucket (ts tick) d
    ∧ closeTs bar = (openTs bar + d)%Z
    ∧ (openTs bar ≤ ts tick < closeTs bar)%Z
    ∧ (openTs bar mod d = 0)%Z.
Proof.
  intros Hd.
  destruct (bars_invariant d (λ b, closeTs b = (openTs b + d)%Z))
    with (ticks := ticks) (fa := create d tickSize imbalanceRatio)
    as (fa0 & Hrun & Hd0 & _ & Hall).
  - intros fa t p <-. done.
  - by intros fa b tk Hb.
  - by intros b imbs Hb.
  - done.
  - intros b [Hb | Hb]; simpl in *; [done | by apply elem_of_nil in Hb].
  - destruct (ingest_spec fa0 tick) as (fa & Hing & Hcur & _).
    exists fa, (add_to_bar fa0 (landing_bar fa0 tick) tick).
    rewrite ingest_all_snoc, Hrun. simpl.
    split; [done|]. split; [done|].
    assert (Hopen : openTs (landing_bar fa0 tick) = bucket (ts tick) d
                    ∧ closeTs (landing_bar fa0 tick)
                      = (openTs (landing_bar fa0 tick) + d)%Z).
    { unfold landing_bar. destruct (currentBar fa0) as [cb|] eqn:Ecb.
      - case_bool_decide as Hts.
        + split; [by rewrite Hts, Hd0|]. apply Hall. by left.
        + simpl. by rewrite Hd0.
      - simpl. by rewrite Hd0. }
    destruct Hopen as [Ho Hc]. simpl. rewrite Hc, Ho.
    destruct (bucket_bounds (ts tick) d Hd) as [? ?]. done.
Qed.

Lemma X12_current_bar_is_bucket_of_last_tick_witness :
  (0 < 60000)%Z
  ∧ ∃ fa bar,
      ingest_all (create 60000 (num 1 2) (num 3 1))
        ([mkTick 100 (num 100 1) 1 buy] ++ [mkTick 125000 (num 101 1) 1 sell])
      = Some fa
      ∧ currentBar fa = Some bar
      ∧ openTs bar = 120000%Z ∧ closeTs bar = 180000%Z.
Proof.
  assert (Hd : (0 < 60000)%Z) by lia.
  split; [exact Hd|].
  destruct (X12_current_bar_is_bucket_of_last_tick 60000 (num 1 2) (num 3 1)
              [mkTick 100 (num 100 1) 1 buy]
              (mkTick 125000 (num 101 1) 1 sell) Hd)
    as (fa & bar & Hrun & Hcur & Ho & Hc & _).
  exists fa, bar. split; [exact Hrun|]. split; [exact Hcur|].
  split; [exact Ho|]. rewrite Hc, Ho. reflexivity.
Defined.

Lemma Math_max_snoc x l y :
  Math_max (x :: l ++ [y])
  = if gtb y (Math_max (x :: l)) then y else Math_max (x :: l).
Proof. unfold Math_max. by rewrite foldl_snoc. Qed.

Lemma Math_min_snoc x l y :
  Math_min (x :: l ++ [y])
  = if ltb y (Math_min (x :: l)) then y else Math_min (x :: l).
Proof. unfold Math_min. by rewrite foldl_snoc. Qed.

Lemma sum_list_snoc x l y :
  sum_list (x :: l ++ [y]) = sum_list (x :: l) + y.
Proof. unfold sum_list. simpl. by rewrite foldl_snoc. Qed.

(** X13.  The bar of a run of trades that fall in one bucket, from a new
    aggregator with a bar duration other than 0: no bar is completed, and the current bar opens at the first
    price, closes at the last one, has the largest price as its high and the
    smallest as its low, and the sum of the sizes as its volume. *)
Theorem X13_single_bucket_bar
    (d : Z) (tickSize imbalanceRatio : Qc) (first : Tick) (rest : list Tick) :
  d ≠ 0%Z →
  Forall (λ t, bucket (ts t) d = bucket (ts first) d) rest →
  ∃ fa bar,
    ingest_all (create d tickSize imbalanceRatio) (first :: rest) = Some fa
    ∧ completedBars fa = []
    ∧ currentBar fa = Some bar
    ∧ openTs bar = bucket (ts first) d
    ∧ open bar = price first
    ∧ close bar = price (default first (list.last rest))
    ∧ high bar = Math_max (price <$> first :: rest)
    ∧ low bar = Math_min (price <$> first :: rest)
    ∧ totalVolume bar = sum_list (size <$> first :: rest).
Proof.
  intros _.
  induction rest as [|tick rest IH] using rev_ind; intros Hb.
  - eexists _, _. split; [reflexivity|]. simpl.
    do 5 (split; [done|]). unfold Math_max, Math_min, sum_list. simpl.
    split; [by cmp_cases|]. split; [by cmp_cases|]. done.
  - apply Forall_app in Hb as [Hrest Htick].
    apply list.Forall_cons in Htick as [Htick _].
    destruct (IH Hrest) as (fa & bar & Hrun & Hdone & Hcur & Hts & Ho & _ & Hh & Hl & Hv).
    destruct (bars_invariant d (λ _, True))
      with (ticks := first :: rest) (fa := create d tickSize imbalanceRatio)
      as (fa0 & Hrun0 & Hd0 & _ & _); try done.
    rewrite Hrun in Hrun0. injection Hrun0 as <-.
    change (first :: rest ++ [tick]) with ((first :: rest) ++ [tick]).
    rewrite ingest_all_snoc, Hrun.
    cbn -[Math_max Math_min sum_list fmap].
    unfold ingest, rotate. rewrite Hcur, Hd0, Hts.
    rewrite bool_decide_eq_false_2 by (intros Hne; by apply Hne).
    cbn -[Math_max Math_min sum_list fmap].
    rewrite Hcur. cbn -[Math_max Math_min sum_list fmap].
    eexists _, _. split; [reflexivity|].
    cbn -[Math_max Math_min sum_list fmap].
    split; [done|]. split; [done|]. split; [done|]. split; [done|].
    split; [by rewrite last_snoc|].
    rewrite !fmap_cons, !fmap_app.
    change (price <$> [tick]) with [price tick].
    change (size <$> [tick]) with [size tick].
    rewrite sum_list_snoc, Math_max_snoc, Math_min_snoc.
    rewrite !fmap_cons in Hh, Hl, Hv. unfold add_to_bar.
    cbn -[Math_max Math_min sum_list fmap]. by rewrite Hh, Hl, Hv.
Qed.

Lemma X13_single_bucket_bar_witness :
  let first := mkTick 60000 (num 100 1) (num 2 1) buy in
  let rest := [mkTick 60500 (num 99 1) (num 3 1) sell;
               mkTick 119999 (num 101 1) (num 4 1) unknown] in
  60000%Z ≠ 0%Z
  ∧ Forall (λ t, bucket (ts t) 60000 = bucket (ts first) 60000) rest
  ∧ ∃ fa bar,
      ingest_all (create 60000 1 (num 3 1)) (first :: rest) = Some fa
      ∧ currentBar fa = Some bar
      ∧ (open bar, high bar, low bar, close bar, totalVolume bar)
        = (num 100 1, num 101 1, num 99 1, num 101 1, num 9 1).
Proof.
  intros first rest.
  assert (Hb : Forall (λ t, bucket (ts t) 60000 = bucket (ts first) 60000) rest).
  { repeat constructor. }
  assert (Hd : 60000%Z ≠ 0%Z) by done.
  split; [exact Hd|]. split; [exact Hb|].
  destruct (X13_single_bucket_bar 60000 1 (num 3 1) first rest Hd Hb)
    as (fa & bar & Hrun & _ & Hcur & _ & Ho & Hc & Hh & Hl & Hv).
  exists fa, bar. split; [exact Hrun|]. split; [exact Hcur|].
  rewrite Ho, Hc, Hh, Hl, Hv.
  repeat f_equal; qc_compute.
Defined.

Lemma with_imbalances_twice b imbs imbs' :
  with_imbalances (with_imbalances b imbs) imbs' = with_imbalances b imbs'.
Proof. done. Qed.

Lemma similar_bars fa b b' tick :
  with_imbalances b [] = with_imbalances b' [] →
  _finalizeBar fa b = _finalizeBar fa b'
  ∧ with_imbalances (add_to_bar fa b tick) []
    = with_imbalances (add_to_bar fa b' tick) []
  ∧ openTs b = openTs b'.
Proof.
  intros Hbb.
  assert (Hl : levels b = levels b') by exact (f_equal levels Hbb).
  assert (Ho : openTs b = openTs b') by exact (f_equal openTs Hbb).
  split; [|split; [|done]].
  - unfold _finalizeBar. rewrite Hl.
    destruct (scan fa (levels b') (sorted_prices (levels b'))) as [imbs|];
      simpl; [|done].
    by rewrite <- (with_imbalances_twice b [] imbs), Hbb.
  - destruct b, b'. unfold with_imbalances in Hbb. simpl in Hbb.
    injection Hbb as -> -> -> -> -> -> -> -> -> -> ->. done.
Qed.

Lemma _finalizeBar_ratio fa fa' b :
  imbalanceRatio fa = imbalanceRatio fa' → _finalizeBar fa b = _finalizeBar fa' b.
Proof.
  intros Hr. unfold _finalizeBar.
  assert (Hscan : ∀ lv ps, scan fa lv ps = scan fa' lv ps).
  { intros lv ps. induction ps as [|p ps IHps]; [done|].
    destruct ps as [|p' ps]; [done|].
    rewrite !scan_pair, IHps. unfold pair_imbalances. by rewrite Hr. }
  by rewrite Hscan.
Qed.

Lemma ingest_similar fa fa' tick :
  similar fa fa' →
  ∃ fa1 fa1', ingest fa tick = Some fa1 ∧ ingest fa' tick = Some fa1'
              ∧ similar fa1 fa1'.
Proof.
  intros [Hcfg Hcur].
  destruct fa as [d tsz r cur done_ mx], fa' as [d' tsz' r' cur' done' mx'].
  simpl in *. injection Hcfg as <- <- <- <- <-.
  unfold ingest, rotate. simpl.
  destruct cur as [cb|], cur' as [cb'|]; simpl in Hcur; try done.
  - assert (Hbb := inj Some _ _ Hcur).
    set (fa := {| barDurationMs := d; tickSize := tsz; imbalanceRatio := r;
                  currentBar := Some cb; completedBars := done_; maxBars := mx |}).
    set (fa' := {| barDurationMs := d; tickSize := tsz; imbalanceRatio := r;
                   currentBar := Some cb'; completedBars := done_; maxBars := mx |}).
    assert (Hf : _finalizeBar fa' cb' = _finalizeBar fa cb).
    { transitivity (_finalizeBar fa cb'); [by apply _finalizeBar_ratio|].
      symmetry. by apply (similar_bars fa cb cb' tick). }
    destruct (similar_bars fa cb cb' tick Hbb) as (_ & Hadd & Hts).
    rewrite <- Hts, Hf.
    case_bool_decide as Hne.
    + destruct (_finalizeBar_total fa cb) as (imbs & _ & ->). simpl.
      eexists _, _. split; [reflexivity|]. split; [reflexivity|].
      by split.
    + simpl. eexists _, _. split; [reflexivity|]. split; [reflexivity|].
      split; [done|]. simpl. f_equal. exact Hadd.
  - eexists _, _. split; [reflexivity|]. split; [reflexivity|]. by split.
Qed.

Lemma ingest_all_similar ticks : ∀ fa fa',
  similar fa fa' →
  ∃ fa1 fa1', ingest_all fa ticks = Some fa1 ∧ ingest_all fa' ticks = Some fa1'
              ∧ similar fa1 fa1'.
Proof.
  induction ticks as [|tick ticks IH]; intros fa fa' Hs.
  { by exists fa, fa'. }
  destruct (ingest_similar fa fa' tick Hs) as (fa1 & fa1' & H1 & H1' & Hs1).
  destruct (IH fa1 fa1' Hs1) as (fa2 & fa2' & H2 & H2' & Hs2).
  exists fa2, fa2'. unfold ingest_all in *. simpl. by rewrite H1, H1'.
Qed.

(** X14.  Reading the current bar disturbs nothing a later reader can see.
    [getCurrentBar] always answers; called again at once it gives the same
    bar and leaves the aggregator as it is; and whatever trades follow, the
    aggregator that was read and the one that was not end with the same
    completed bars and give the same answer to [getCurrentBar]. *)
Theorem X14_getCurrentBar_is_a_pure_read (fa : t) (ticks : list Tick) :
  ∃ out fa1,
    getCurrentBar fa = Some (out, fa1)
    ∧ getCurrentBar fa1 = Some (out, fa1)
    ∧ ∃ fa2 fa2',
        ingest_all fa ticks = Some fa2
        ∧ ingest_all fa1 ticks = Some fa2'
        ∧ completedBars fa2' = completedBars fa2
        ∧ fst <$> getCurrentBar fa2' = fst <$> getCurrentBar fa2.
Proof.
  assert (Hread : ∃ out fa1, getCurrentBar fa = Some (out, fa1)
                             ∧ getCurrentBar fa1 = Some (out, fa1)
                             ∧ similar fa fa1).
  { unfold getCurrentBar. destruct (currentBar fa) as [cb|] eqn:Ecb.
    - destruct (_finalizeBar_total fa cb) as (imbs & Hscan & Hfin).
      rewrite Hfin. simpl.
      eexists _, _. split; [reflexivity|]. simpl.
      rewrite (_finalizeBar_ratio _ fa) by done.
      unfold _finalizeBar. simpl. rewrite Hscan. simpl.
      split; [done|]. split; [done|]. simpl. by rewrite Ecb.
    - exists None, fa. rewrite Ecb. by split. }
  destruct Hread as (out & fa1 & Hget & Hget1 & Hs).
  exists out, fa1. split; [done|]. split; [done|].
  destruct (ingest_all_similar ticks fa fa1 Hs) as (fa2 & fa2' & H2 & H2' & [Hcfg Hcur]).
  exists fa2, fa2'. split; [done|]. split; [done|].
  injection Hcfg as Hd Ht Hr Hm Hc. split; [done|].
  unfold getCurrentBar.
  destruct (currentBar fa2) as [cb|], (currentBar fa2') as [cb'|];
    simpl in Hcur; try done.
  assert (Hbb := inj Some _ _ Hcur).
  destruct (similar_bars fa2 cb cb' (mkTick 0 0 0 buy) Hbb) as (Hf & _ & _).
  assert (Hf' : _finalizeBar fa2' cb' = _finalizeBar fa2 cb).
  { rewrite Hf. by apply _finalizeBar_ratio. }
  rewrite Hf'.
  destruct (_finalizeBar_total fa2 cb) as (imbs & _ & ->). done.
Qed.

(** X15.  [setBarDuration] throws the bar in progress away: it is not
    pushed on the completed bars, and the next trade, even one of the same
    bucket, opens a bar of the new duration (other than 0) that holds this
    trade alone, at a single price level. *)
Theorem X15_setBarDuration_drops_the_current_bar
    (fa : t) (ms : Z) (tick : Tick) :
  ms ≠ 0%Z →
  ∃ fa' bar,
    ingest (setBarDuration fa ms) tick = Some fa'
    ∧ completedBars fa' = completedBars fa
    ∧ barDurationMs fa' = ms
    ∧ currentBar fa' = Some bar
    ∧ (openTs bar, closeTs bar)
      = (bucket (ts tick) ms, (bucket (ts tick) ms + ms)%Z)
    ∧ (open bar, high bar, low bar, close bar)
      = (price tick, price tick, price tick, price tick)
    ∧ totalVolume bar = size tick
    ∧ base.size (levels bar) = 1%nat.
Proof.
  intros _.
  unfold setBarDuration, ingest, rotate. simpl.
  eexists _, _. split; [reflexivity|].
  unfold add_to_bar, _newBar, _roundToTick.
  cbn [currentBar completedBars barDurationMs tickSize openTs closeTs open high
       low close totalVolume levels].
  do 4 (split; [done|]).
  split; [by destruct (gtb _ _), (ltb _ _)|].
  split; [cbv [totalVolume]; apply Qcplus_0_l|].
  cbv [levels]. by rewrite insert_empty, map_size_singleton.
Qed.

Lemma X15_setBarDuration_drops_the_current_bar_witness :
  let t1 := mkTick 1000 (num 100 1) (num 2 1) buy in
  let t2 := mkTick 2000 (num 101 1) (num 3 1) sell in
  30000%Z ≠ 0%Z
  ∧ ∃ fa1 fa2,
      ingest (create 60000 1 (num 3 1)) t1 = Some fa1
      ∧ ingest (setBarDuration fa1 30000) t2 = Some fa2
      ∧ completedBars fa2 = []
      ∧ totalVolume <$> currentBar fa2 = Some (num 3 1).
Proof.
  intros t1 t2.
  assert (Hms : 30000%Z ≠ 0%Z) by done.
  split; [exact Hms|].
  destruct (ingest (create 60000 1 (num 3 1)) t1) as [fa1|] eqn:E1;
    [|vm_compute in E1; discriminate].
  destruct (X15_setBarDuration_drops_the_current_bar fa1 30000 t2 Hms)
    as (fa2 & bar & Hing & Hdone & _ & Hcur & _ & _ & Hvol & _).
  exists fa1, fa2. split; [reflexivity|]. split; [exact Hing|].
  split.
  - rewrite Hdone. vm_compute in E1. by injection E1 as <-.
  - rewrite Hcur. simpl. f_equal. rewrite Hvol. qc_compute.
Defined.

End footprint_more.

(** ** More on the cumulative volume delta *)

Section cvd_more.
Import CvdCalculator.

Lemma Cvd_ingest_all_snoc c ticks tick :
  CvdCalculator.ingest_all c (ticks ++ [tick])
  = (CvdCalculator.ingest (CvdCalculator.ingest_all c ticks) tick).2.
Proof. unfold CvdCalculator.ingest_all. by rewrite foldl_snoc. Qed.

Lemma Cvd_ingest_all_cons c ticks tick :
  CvdCalculator.ingest_all c (tick :: ticks)
  = CvdCalculator.ingest_all (CvdCalculator.ingest c tick).2 ticks.
Proof. done. Qed.

Lemma sum_list_cons x l : sum_list (x :: l) = x + sum_list l.
Proof.
  unfold sum_list. simpl.
  assert (H : ∀ a, foldl Qcplus a l = a + foldl Qcplus 0 l).
  { induction l as [|y l IH]; intros a; simpl; [ring|].
    rewrite (IH (a + y)), (IH (0 + y)). ring. }
  rewrite (H (0 + x)). ring.
Qed.

Lemma push_capped_slice {A} cap (l : list A) x :
  (length l ≤ cap)%nat → push_capped cap l x = slice_last cap (l ++ [x]).
Proof.
  intros Hl. unfold push_capped, slice_last. rewrite length_app. simpl.
  case_bool_decide as Hc.
  - replace (length l + 1 - cap)%nat with 1%nat by lia. by destruct l.
  - replace (length l + 1 - cap)%nat with 0%nat by lia. done.
Qed.

Lemma slice_last_length {A} cap (l : list A) :
  (length (slice_last cap l) ≤ cap)%nat.
Proof. unfold slice_last. rewrite length_drop. lia. Qed.

Lemma slice_last_snoc {A} cap (l : list A) x :
  slice_last cap (slice_last cap l ++ [x]) = slice_last cap (l ++ [x]).
Proof.
  unfold slice_last. rewrite !length_app, length_drop. simpl.
  destruct (decide (length l ≤ cap)%nat) as [Hl|Hl].
  - replace (length l - cap)%nat with 0%nat by lia. simpl.
    by rewrite Nat.sub_0_r.
  - replace (length l - (length l - cap) + 1 - cap)%nat with 1%nat by lia.
    replace (length l + 1 - cap)%nat with (length l - cap + 1)%nat by lia.
    rewrite <- drop_drop. by rewrite (drop_app_le l [x]) by lia.
Qed.

Lemma slice_last_app {A} cap (h : list A) p0 ps :
  slice_last cap (slice_last cap (h ++ [p0]) ++ ps)
  = slice_last cap (h ++ p0 :: ps).
Proof.
  induction ps as [|p ps IHps] using rev_ind.
  - rewrite !app_nil_r. unfold slice_last at 1.
    pose proof (slice_last_length cap (h ++ [p0])).
    replace (length (slice_last cap (h ++ [p0])) - cap)%nat with 0%nat by lia.
    done.
  - rewrite (app_assoc _ ps [p]).
    rewrite <- (slice_last_snoc cap (slice_last cap (h ++ [p0]) ++ ps) p).
    rewrite IHps, slice_last_snoc.
    by rewrite <- !app_assoc.
Qed.

(** X17.  The history is a window on the points returned: when it starts
    within its cap, after any trades it holds the last [maxHistory] of the
    points it held and the points [ingest] has returned since, oldest first;
    so it never grows beyond [maxHistory]. *)
Theorem X17_history_is_the_last_points
    (c : CvdCalculator.t) (ticks : list Tick) :
  (length (history c) ≤ maxHistory c)%nat →
  history (CvdCalculator.ingest_all c ticks)
  = slice_last (maxHistory c) (history c ++ ingest_points c ticks)
  ∧ maxHistory (CvdCalculator.ingest_all c ticks) = maxHistory c
  ∧ (length (history (CvdCalculator.ingest_all c ticks)) ≤ maxHistory c)%nat.
Proof.
  revert c. induction ticks as [|tick ticks IH]; intros c Hlen.
  - simpl. rewrite app_nil_r. unfold slice_last.
    replace (length (history c) - maxHistory c)%nat with 0%nat by lia. done.
  - rewrite Cvd_ingest_all_cons.
    set (c1 := (CvdCalculator.ingest c tick).2).
    assert (Hm : maxHistory c1 = maxHistory c) by done.
    assert (Hh : history c1
                 = slice_last (maxHistory c)
                     (history c ++ [(CvdCalculator.ingest c tick).1])).
    { by apply push_capped_slice. }
    destruct (IH c1) as (Hhist & Hmax & Hcap).
    { rewrite Hh, Hm. apply slice_last_length. }
    rewrite Hm in *. split; [|by split].
    rewrite Hhist, Hh.
    change (ingest_points c (tick :: ticks))
      with ((CvdCalculator.ingest c tick).1 :: ingest_points c1 ticks).
    apply slice_last_app.
Qed.

Lemma X17_history_is_the_last_points_witness :
  let c := {| sessionCvd := 0; barCvd := 0; history := []; maxHistory := 2;
              sessionStart := 0; currentBarTs := None; barDurationMs := 60000 |} in
  let ticks := [mkTick 1 (num 100 1) 1 buy; mkTick 2 (num 100 1) 1 buy;
                mkTick 3 (num 100 1) 1 sell] in
  (length (history c) ≤ maxHistory c)%nat
  ∧ p_ts <$> history (CvdCalculator.ingest_all c ticks) = [2%Z; 3%Z].
Proof.
  intros c ticks.
  assert (Hlen : (length (history c) ≤ maxHistory c)%nat) by (simpl; lia).
  split; [exact Hlen|].
  rewrite (proj1 (X17_history_is_the_last_points c ticks Hlen)).
  reflexivity.
Defined.

(** X18.  The per-bar delta is the net signed size of the trades of the
    current bar (for a bar duration other than 0): when a trade opens a bucket other than the one the
    calculator is in, and the trades after it stay in that bucket, the bar
    delta is the sum of the signed sizes of this run alone, whatever was
    counted before, and every point of the run reports the sum so far. *)
Theorem X18_bar_delta_is_net_volume_of_the_bar
    (c : CvdCalculator.t) (first : Tick) (rest : list Tick) :
  CvdCalculator.barDurationMs c ≠ 0%Z →
  currentBarTs c ≠ Some (bucket (ts first) (CvdCalculator.barDurationMs c)) →
  Forall (λ t, bucket (ts t) (CvdCalculator.barDurationMs c)
               = bucket (ts first) (CvdCalculator.barDurationMs c)) rest →
  barCvd (CvdCalculator.ingest_all c (first :: rest))
  = sum_list (tick_delta <$> first :: rest)
  ∧ currentBarTs (CvdCalculator.ingest_all c (first :: rest))
    = Some (bucket (ts first) (CvdCalculator.barDurationMs c))
  ∧ ∀ i p, ingest_points c (first :: rest) !! i = Some p →
           barDelta p = sum_list (tick_delta <$> take (S i) (first :: rest)).
Proof.
  intros _ Hroll Hrest.
  assert (Hrun : ∀ ticks c1 acc,
    CvdCalculator.barDurationMs c1 = CvdCalculator.barDurationMs c →
    currentBarTs c1
    = Some (bucket (ts first) (CvdCalculator.barDurationMs c)) →
    barCvd c1 = acc →
    Forall (λ t, bucket (ts t) (CvdCalculator.barDurationMs c)
                 = bucket (ts first) (CvdCalculator.barDurationMs c)) ticks →
    barCvd (CvdCalculator.ingest_all c1 ticks)
    = acc + sum_list (tick_delta <$> ticks)
    ∧ currentBarTs (CvdCalculator.ingest_all c1 ticks)
      = Some (bucket (ts first) (CvdCalculator.barDurationMs c))
    ∧ ∀ i p, ingest_points c1 ticks !! i = Some p →
             barDelta p = acc + sum_list (tick_delta <$> take (S i) ticks)).
  { induction ticks as [|tick ticks IH]; intros c1 acc Hd Hcur Hacc Hall.
    - simpl. split; [unfold sum_list; simpl; rewrite Hacc; ring|].
      split; [done|]. by intros i p.
    - apply list.Forall_cons in Hall as [Htick Hall].
      rewrite Cvd_ingest_all_cons.
      assert (Hstep : barCvd (CvdCalculator.ingest c1 tick).2
                      = acc + tick_delta tick
                      ∧ barDelta (CvdCalculator.ingest c1 tick).1
                        = acc + tick_delta tick
                      ∧ currentBarTs (CvdCalculator.ingest c1 tick).2
                        = Some (bucket (ts first) (CvdCalculator.barDurationMs c))).
      { simpl. rewrite Hd, Htick, Hcur, Hacc.
        rewrite bool_decide_eq_false_2 by (intros Hne; by apply Hne). done. }
      destruct Hstep as (Hb & Hp & Hc).
      destruct (IH (CvdCalculator.ingest c1 tick).2 (acc + tick_delta tick))
        as (Hb' & Hc' & Hpts); [done|done|done|done|].
      rewrite fmap_cons, sum_list_cons.
      split; [rewrite Hb'; ring|]. split; [done|].
      intros [|i] p Hi.
      + injection Hi as <-. etrans; [exact Hp|]. unfold sum_list. simpl. ring.
      + change (ingest_points c1 (tick :: ticks) !! S i)
          with (ingest_points (CvdCalculator.ingest c1 tick).2 ticks !! i) in Hi.
        rewrite (Hpts i p Hi).
        change (take (S (S i)) (tick :: ticks)) with (tick :: take (S i) ticks).
        rewrite fmap_cons, sum_list_cons. ring. }
  assert (Hfirst : barCvd (CvdCalculator.ingest c first).2 = tick_delta first
                   ∧ barDelta (CvdCalculator.ingest c first).1 = tick_delta first
                   ∧ currentBarTs (CvdCalculator.ingest c first).2
                     = Some (bucket (ts first) (CvdCalculator.barDurationMs c))).
  { simpl. rewrite bool_decide_eq_true_2 by done.
    split; [ring|]. split; [ring|done]. }
  destruct Hfirst as (Hb & Hp & Hc).
  destruct (Hrun rest (CvdCalculator.ingest c first).2 (tick_delta first))
    as (Hb' & Hc' & Hpts); [done|done|done|done|].
  rewrite Cvd_ingest_all_cons, fmap_cons, sum_list_cons.
  split; [done|]. split; [done|].
  intros [|i] p Hi.
  - injection Hi as <-. etrans; [exact Hp|]. unfold sum_list. simpl. ring.
  - change (ingest_points c (first :: rest) !! S i)
      with (ingest_points (CvdCalculator.ingest c first).2 rest !! i) in Hi.
    rewrite (Hpts i p Hi).
    change (take (S (S i)) (first :: rest)) with (first :: take (S i) rest).
    by rewrite fmap_cons, sum_list_cons.
Qed.

Lemma X18_bar_delta_is_net_volume_of_the_bar_witness :
  let c := (CvdCalculator.ingest (CvdCalculator.create 0)
              (mkTick 1000 (num 100 1) (num 7 1) buy)).2 in
  let first := mkTick 60000 (num 100 1) (num 5 1) buy in
  let rest := [mkTick 61000 (num 100 1) (num 2 1) sell;
               mkTick 62000 (num 100 1) (num 4 1) unknown] in
  CvdCalculator.barDurationMs c ≠ 0%Z
  ∧ currentBarTs c ≠ Some (bucket (ts first) (CvdCalculator.barDurationMs c))
  ∧ Forall (λ t, bucket (ts t) (CvdCalculator.barDurationMs c)
                 = bucket (ts first) (CvdCalculator.barDurationMs c)) rest
  ∧ barCvd (CvdCalculator.ingest_all c (first :: rest)) = num 3 1.
Proof.
  intros c first rest.
  assert (H1 : currentBarTs c
               ≠ Some (bucket (ts first) (CvdCalculator.barDurationMs c)))
    by (intros [=]).
  assert (H2 : Forall (λ t, bucket (ts t) (CvdCalculator.barDurationMs c)
                            = bucket (ts first) (CvdCalculator.barDurationMs c))
                      rest)
    by (repeat constructor).
  assert (H0 : CvdCalculator.barDurationMs c ≠ 0%Z) by done.
  split; [exact H0|]. split; [exact H1|]. split; [exact H2|].
  rewrite (proj1 (X18_bar_delta_is_net_volume_of_the_bar c first rest H0 H1 H2)).
  qc_compute.
Defined.

End cvd_more.

(** ** More on the tape metrics *)

Section metrics_more.
Import MetricsCalculator.

Lemma Metrics_ingest_all_snoc m ticks tick :
  MetricsCalculator.ingest_all m (ticks ++ [tick])
  = (Some (MetricsCalculator.ingest (MetricsCalculator.ingest_all m ticks).2 tick).1,
     (MetricsCalculator.ingest (MetricsCalculator.ingest_all m ticks).2 tick).2).
Proof.
  unfold MetricsCalculator.ingest_all. rewrite foldl_snoc.
  by destruct (MetricsCalculator.ingest _ tick).
Qed.

Lemma Metrics_ingest_all_config m ticks :
  absorptionWindow (MetricsCalculator.ingest_all m ticks).2 = absorptionWindow m
  ∧ speedWindow (MetricsCalculator.ingest_all m ticks).2 = speedWindow m
  ∧ largePrintThreshold (MetricsCalculator.ingest_all m ticks).2
    = largePrintThreshold m.
Proof.
  induction ticks as [|tick ticks IH] using rev_ind; [done|].
  rewrite Metrics_ingest_all_snoc. simpl. done.
Qed.

Lemma filter_filter_weaker (c c' : Z) (l : list Tick) :
  (c' ≤ c)%Z →
  filter (λ t, (c < ts t)%Z) (filter (λ t, (c' < ts t)%Z) l)
  = filter (λ t, (c < ts t)%Z) l.
Proof.
  intros Hc. induction l as [|t l IH]; [done|].
  rewrite !filter_cons. repeat case_decide; rewrite ?filter_cons;
    repeat case_decide; try lia; by rewrite IH.
Qed.

(** What the buffer keeps of the trades that are newer than a cutoff no
    earlier than any cutoff applied on the way. *)
Lemma Metrics_recent_above c m ticks :
  Forall (λ t, (ts t - absorptionWindow m ≤ c)%Z) ticks →
  filter (λ t, (c < ts t)%Z)
         (recentTrades (MetricsCalculator.ingest_all m ticks).2)
  = filter (λ t, (c < ts t)%Z) (recentTrades m ++ ticks).
Proof.
  induction ticks as [|tick ticks IH] using rev_ind; intros Hall.
  { simpl. by rewrite app_nil_r. }
  apply Forall_app in Hall as [Hall Htick].
  apply list.Forall_cons in Htick as [Htick _].
  rewrite Metrics_ingest_all_snoc. simpl.
  destruct (Metrics_ingest_all_config m ticks) as (-> & _ & _).
  rewrite (app_assoc _ ticks [tick]), !list.filter_app.
  rewrite filter_filter_weaker by done. rewrite IH by done.
  rewrite list.filter_app. by destruct tick.
Qed.

(** X19.  The buffer of recent trades is a sliding window.  When the last
    trade carries the latest timestamp, the buffer holds, in order, exactly
    the trades (buffered before or ingested since) that are newer than that
    timestamp minus the absorption window, the last trade among them; and
    when the speed window is no longer than the absorption window, the tape
    speed is the number of those within the speed window. *)
Theorem X19_recent_trades_is_a_sliding_window
    (m : MetricsCalculator.t) (ticks : list Tick) (tick : Tick) :
  (0 < speedWindow m ≤ absorptionWindow m)%Z →
  Forall (λ t, (ts t ≤ ts tick)%Z) ticks →
  let out := MetricsCalculator.ingest_all m (ticks ++ [tick]) in
  let all := recentTrades m ++ ticks ++ [tick] in
  recentTrades out.2
  = filter (λ t, (ts tick - absorptionWindow m < ts t)%Z) all
  ∧ list.last (recentTrades out.2) = Some tick
  ∧ tapeSpeed out.2
    = length (filter (λ t, (ts tick - speedWindow m < ts t)%Z) all)
  ∧ (r_tapeSpeed <$> out.1) = Some (tapeSpeed out.2).
Proof.
  intros Hw Hlast out all.
  assert (Hrecent : recentTrades out.2
                    = filter (λ t, (ts tick - absorptionWindow m < ts t)%Z) all).
  { subst out all. rewrite Metrics_ingest_all_snoc. simpl.
    destruct (Metrics_ingest_all_config m ticks) as (-> & _ & _).
    rewrite Metrics_recent_above.
    - rewrite (app_assoc _ ticks [tick]), (list.filter_app _ _ [tick]).
      rewrite filter_cons, decide_True by lia. by destruct tick.
    - eapply list.Forall_impl; [exact Hlast|]. simpl. intros t Ht. lia. }
  split; [done|]. split.
  - subst out. rewrite Metrics_ingest_all_snoc. simpl.
    rewrite last_snoc. by destruct tick.
  - assert (Hspeed : tapeSpeed out.2
                     = length (filter (λ t, (ts tick - speedWindow m < ts t)%Z)
                                      (recentTrades out.2))).
    { subst out. rewrite Metrics_ingest_all_snoc. simpl.
      by destruct (Metrics_ingest_all_config m ticks) as (_ & -> & _). }
    split.
    + rewrite Hspeed, Hrecent. by rewrite filter_filter_weaker by lia.
    + subst out. rewrite Metrics_ingest_all_snoc. done.
Qed.

Lemma X19_recent_trades_is_a_sliding_window_witness :
  let m := MetricsCalculator.create None None in
  let ticks := [mkTick 1000 (num 100 1) 1 buy; mkTick 5500 (num 100 1) 1 sell;
                mkTick 6800 (num 100 1) 1 buy] in
  let tick := mkTick 7000 (num 101 1) 1 buy in
  (0 < speedWindow m ≤ absorptionWindow m)%Z
  ∧ Forall (λ t, (ts t ≤ ts tick)%Z) ticks
  ∧ ts <$> recentTrades (MetricsCalculator.ingest_all m (ticks ++ [tick])).2
    = [5500%Z; 6800%Z; 7000%Z]
  ∧ tapeSpeed (MetricsCalculator.ingest_all m (ticks ++ [tick])).2 = 2%nat.
Proof.
  intros m ticks tick.
  assert (Hw : (0 < speedWindow m ≤ absorptionWindow m)%Z) by (simpl; lia).
  assert (Hlast : Forall (λ t, (ts t ≤ ts tick)%Z) ticks)
    by (repeat constructor; simpl; lia).
  split; [exact Hw|]. split; [exact Hlast|].
  destruct (X19_recent_trades_is_a_sliding_window m ticks tick Hw Hlast)
    as (Hr & _ & Hs & _).
  rewrite Hr, Hs. split; reflexivity.
Defined.

End metrics_more.

(** ** More on the alerts *)

Section alerts_more.
Import AlertEvaluator.




Lemma Qcle_div_iff (r a b : Qc) : 0 < a → r ≤ b / a ↔ r * a ≤ b.
Proof.
  intros Ha.
  assert (Hne : a ≠ 0) by (intros ->; by apply Qclt_not_eq in Ha).
  assert (Hb : b / a * a = b) by (by field).
  split; intros H.
  - rewrite <- Hb. apply Qcmult_le_compat_r; [done|]. by apply Qclt_le_weak.
  - apply Qcnot_lt_le. intros Hlt.
    apply (Qcmult_lt_compat_r _ _ a Ha) in Hlt. rewrite Hb in Hlt.
    by apply Qclt_not_le in Hlt.
Qed.

End alerts_more.

(** ** More on the replay engine of [storage/storage.js] *)

Section storage_replay_more.
Context {W : Type}.
Variable getTicksInRange : string → Z → Z → list Tick.
Variable onTick : Tick → W → W.

Import StorageReplayEngine.

Lemma Storage_scheduleNext_step (r : StorageReplayEngine.t) (w : W) :
  _playing r = true → _timer r = None →
  (_pos r < length (_ticks r))%nat →
  ∃ tick,
    _ticks r !! _pos r = Some tick
    ∧ (_scheduleNext onTick r w).2 = onTick tick w
    ∧ _pos (_scheduleNext onTick r w).1 = S (_pos r)
    ∧ _ticks (_scheduleNext onTick r w).1 = _ticks r
    ∧ _speed (_scheduleNext onTick r w).1 = _speed r
    ∧ armed (_scheduleNext onTick r w).1.
Proof.
  intros Hplay Htimer Hpos.
  destruct (lookup_lt_is_Some_2 (_ticks r) (_pos r) Hpos) as [tick Htick].
  exists tick. split; [done|].
  unfold _scheduleNext, armed.
  rewrite Hplay, Htick. simpl.
  rewrite bool_decide_eq_false_2 by lia.
  destruct (_ticks r !! (_pos r + 1)%nat) as [next|] eqn:Hnext; simpl.
  - apply lookup_lt_Some in Hnext.
    do 4 (split; [done|]).
    rewrite bool_decide_eq_true_2 by lia. split; [done|].
    split; [intros _; lia | by eexists].
  - apply lookup_ge_None in Hnext.
    do 4 (split; [done|]).
    rewrite bool_decide_eq_false_2 by lia. split; [done|].
    rewrite Htimer. split; [by intros [? [=]] | lia].
Qed.

Lemma Storage_timers_fire (k : nat) : ∀ (r : StorageReplayEngine.t) (w : W),
  armed r → (_pos r + k ≤ length (_ticks r))%nat →
  let out := timers_fire onTick k r w in
  out.2 = delivered onTick
            (take k (drop (_pos r) (_ticks r))) w
  ∧ _pos out.1 = (_pos r + k)%nat
  ∧ _ticks out.1 = _ticks r
  ∧ _speed out.1 = _speed r
  ∧ armed out.1.
Proof.
  induction k as [|k IH]; intros r w Harmed Hk.
  { simpl. by rewrite Nat.add_0_r. }
  destruct Harmed as [Hplay Htimer].
  assert (Hpos : (_pos r < length (_ticks r))%nat) by lia.
  rewrite bool_decide_eq_true_2 in Hplay by done.
  destruct (proj2 Htimer Hpos) as [d Hd].
  simpl. unfold timer_fires. rewrite Hd.
  set (r0 := {| _timer := None;
                _ticks := _ticks r;
                _pos := _pos r;
                _speed := _speed r;
                _playing := _playing r;
                _startRealTs :=
                  _startRealTs r;
                _startTickTs :=
                  _startTickTs r |}).
  destruct (Storage_scheduleNext_step r0 w) as (tick & Htick & Hw & Hp & Ht & Hs & Ha);
    [done|done|done|].
  destruct (_scheduleNext onTick r0 w) as [r1 w1].
  simpl in Htick, Hw, Hp, Ht, Hs, Ha. subst w1.
  destruct (IH r1 (onTick tick w) Ha) as (Hw' & Hp' & Ht' & Hs' & Ha').
  { rewrite Hp, Ht. lia. }
  rewrite Hp, Ht in Hw'. rewrite Hw', Hp', Ht', Hs', Hp, Ht, Hs.
  split; [by rewrite (drop_S _ _ _ Htick)|].
  split; [lia|]. done.
Qed.

Lemma Storage_replay_spec (r : StorageReplayEngine.t) (speed : Qc) (now : Z) (w : W) (k : nat) :
  _timer r = None → (_pos r + k < length (_ticks r))%nat →
  let out := replay onTick r speed now w k in
  out.2 = delivered onTick
            (take (S k) (drop (_pos r) (_ticks r))) w
  ∧ _pos out.1 = (_pos r + S k)%nat
  ∧ _ticks out.1 = _ticks r
  ∧ _speed out.1 = speed
  ∧ armed out.1.
Proof.
  intros Htimer Hk. unfold replay, play.
  rewrite bool_decide_eq_false_2 by lia.
  set (r1 := {| _timer := _timer r;
                _ticks := _ticks r;
                _pos := _pos r;
                _speed := speed;
                _playing := true;
                _startRealTs := now;
                _startTickTs := _ |}).
  destruct (Storage_scheduleNext_step r1 w) as (tick & Htick & Hw & Hp & Ht & Hs & Ha);
    [done|done|simpl; lia|].
  destruct (_scheduleNext onTick r1 w) as [r2 w2].
  simpl in Htick, Hw, Hp, Ht, Hs, Ha. subst w2.
  destruct (Storage_timers_fire k r2 (onTick tick w) Ha)
    as (Hw' & Hp' & Ht' & Hs' & Ha').
  { rewrite Hp, Ht. simpl. lia. }
  rewrite Hp, Ht in Hw'. simpl in Hw'. simpl.
  rewrite Hw', Hp', Ht', Hs', Hp, Ht, Hs.
  split; [by rewrite (drop_S _ _ _ Htick)|].
  split; [simpl; lia|]. done.
Qed.

(** X22.  A replay hands the recording to [onTick] tick by tick, in order
    and from the cursor on.  With no timeout pending, after [play] and [k]
    timeouts the consumer has received exactly the [k + 1] ticks that follow
    the cursor, the cursor has moved past them, and the engine keeps playing,
    with the next timeout armed, exactly while ticks remain: after the last
    tick it has stopped and no timeout is left. *)
Theorem X22_storage_replay_delivers_in_order
    (r : StorageReplayEngine.t) (speed : Qc) (now : Z) (w : W) (k : nat) :
  _timer r = None → (_pos r + k < length (_ticks r))%nat →
  let out := replay onTick r speed now w k in
  out.2 = delivered onTick
            (take (S k) (drop (_pos r) (_ticks r))) w
  ∧ _pos out.1 = (_pos r + S k)%nat
  ∧ _ticks out.1 = _ticks r
  ∧ _playing out.1 = bool_decide (_pos r + S k < length (_ticks r))%nat
  ∧ (is_Some (_timer out.1) ↔ (_pos r + S k < length (_ticks r))%nat)
  ∧ ((_pos r + S k = length (_ticks r))%nat →
     out.2 = delivered onTick (drop (_pos r) (_ticks r)) w
     ∧ ∀ n, timers_fire onTick n out.1 out.2 = out).
Proof.
  intros Htimer Hk out.
  destruct (Storage_replay_spec r speed now w k Htimer Hk)
    as (Hw & Hp & Ht & _ & [Hplay Harm]).
  fold out in Hw, Hp, Ht, Hplay, Harm. rewrite Hp, Ht in Hplay, Harm.
  do 5 (split; [done|]).
  intros Hend. split.
  - rewrite Hw. f_equal. apply take_ge. rewrite length_drop. lia.
  - assert (Hnone : _timer out.1 = None).
    { destruct (_timer out.1) eqn:E; [|done].
      assert (_pos r + S k < length (_ticks r))%nat; [|lia].
      apply Harm. by eexists. }
    intros n. induction n as [|n IHn]; [by destruct out|].
    simpl. unfold timer_fires. by rewrite Hnone.
Qed.

Lemma Storage_delivered_app ticks ticks' (w : W) :
  delivered onTick (ticks ++ ticks') w
  = delivered onTick ticks' (delivered onTick ticks w).
Proof. unfold delivered. by rewrite foldl_app. Qed.

Lemma Storage_idle (r : StorageReplayEngine.t) (w : W) (n : nat) :
  _timer r = None → timers_fire onTick n r w = (r, w).
Proof.
  intros Hnone. induction n as [|n IH]; [done|].
  simpl. unfold timer_fires. by rewrite Hnone.
Qed.

(** X23.  A pause loses no tick and repeats none.  When a replay is paused
    after [k1] timeouts, nothing more is delivered however long it stays
    paused; and when it is played again, at any speed, and [k2] more timeouts
    elapse, the consumer has received the [k1 + 1 + k2 + 1] ticks that
    followed the cursor where the replay began, each once and in order. *)
Theorem X23_storage_pause_and_resume
    (r : StorageReplayEngine.t) (speed speed' : Qc) (now now' : Z) (w : W)
    (k1 k2 : nat) :
  _timer r = None → (_pos r + S k1 + k2 < length (_ticks r))%nat →
  let mid := replay onTick r speed now w k1 in
  let paused := pause mid.1 in
  let out := replay onTick paused speed' now' mid.2 k2 in
  (∀ n, timers_fire onTick n paused mid.2 = (paused, mid.2))
  ∧ _pos paused = (_pos r + S k1)%nat
  ∧ out.2 = delivered onTick
              (take (S k1 + S k2) (drop (_pos r) (_ticks r))) w
  ∧ _pos out.1 = (_pos r + S k1 + S k2)%nat.
Proof.
  intros Htimer Hk mid paused out.
  destruct (Storage_replay_spec r speed now w k1 Htimer)
    as (Hw & Hp & Ht & _ & _); [lia|].
  fold mid in Hw, Hp, Ht.
  assert (Hpt : _timer paused = None) by done.
  assert (Hpp : _pos paused = _pos mid.1) by done.
  assert (Hpk : _ticks paused = _ticks mid.1) by done.
  split; [intros n; by apply Storage_idle|].
  split; [by rewrite Hpp|].
  destruct (Storage_replay_spec paused speed' now' mid.2 k2 Hpt)
    as (Hw' & Hp' & _); [rewrite Hpp, Hpk, Hp, Ht; lia|].
  fold out in Hw', Hp'. rewrite Hpp, Hpk, Hp, Ht in Hw'.
  split; [|rewrite Hp', Hpp, Hp; lia].
  rewrite Hw', Hw, <- Storage_delivered_app. f_equal.
  rewrite <- (take_take_drop (drop (_pos r) (_ticks r)) (S k1) (S k2)).
  by rewrite drop_drop.
Qed.

(** X24.  [play] does not rewind.  On a replay that has run to its end,
    with a recording loaded, [play] delivers nothing, leaves the engine
    stopped at the end with no timeout armed, and so does every later
    [play]; only after [stop] does [play] start again at the first tick. *)
Theorem X24_storage_play_at_the_end_is_idle
    (r : StorageReplayEngine.t) (speed : Qc) (now : Z) (w : W) :
  _timer r = None → _ticks r ≠ [] → (length (_ticks r) ≤ _pos r)%nat →
  let out := play onTick r speed now w in
  out.1.1 = Returned ()
  ∧ out.2 = w
  ∧ _playing out.1.2 = false
  ∧ _timer out.1.2 = None
  ∧ _pos out.1.2 = _pos r
  ∧ _ticks out.1.2 = _ticks r
  ∧ ∀ k, (k < length (_ticks r))%nat →
         (replay onTick (stop out.1.2) speed now w k).2
         = delivered onTick (take (S k) (_ticks r)) w.
Proof.
  intros Htimer Hticks Hpos out.
  assert (Hout : out = (Returned (),
                        {| _timer := None; _ticks := _ticks r; _pos := _pos r;
                           _speed := speed; _playing := false;
                           _startRealTs := now;
                           _startTickTs :=
                             default now (ts <$> _ticks r !! _pos r) |}, w)).
  { subst out. unfold play.
    rewrite bool_decide_eq_false_2 by (by destruct (_ticks r)).
    unfold _scheduleNext. simpl.
    rewrite bool_decide_eq_true_2 by done. simpl. by rewrite Htimer. }
  rewrite Hout. simpl. do 6 (split; [done|]).
  intros k Hk.
  destruct (Storage_replay_spec
              (stop {| _timer := None; _ticks := _ticks r; _pos := _pos r;
                       _speed := speed; _playing := false;
                       _startRealTs := now;
                       _startTickTs :=
                         default now (ts <$> _ticks r !! _pos r) |})
              speed now w k) as (Hw & _); [done|simpl; lia|].
  exact Hw.
Qed.

(** X25.  No wait of a replay is longer than five seconds.  At a positive
    speed, when a tick is delivered and another follows, the timeout armed
    is the gap between their timestamps divided by the speed, raised to 0
    when the recording steps back in time and cut to 5000 ms when the gap is
    longer. *)
Theorem X25_storage_delay_is_capped
    (r : StorageReplayEngine.t) (w : W) (tick next : Tick) :
  _playing r = true → 0 < _speed r →
  _ticks r !! _pos r = Some tick → _ticks r !! (_pos r + 1)%nat = Some next →
  let gap := Qc_of_Z (ts next - ts tick) / _speed r in
  ∃ d, _timer (_scheduleNext onTick r w).1 = Some d
       ∧ 0 ≤ d ∧ d ≤ num 5000 1
       ∧ (gap ≤ 0 → d = 0)
       ∧ (0 ≤ gap → gap ≤ num 5000 1 → d = gap)
       ∧ (num 5000 1 ≤ gap → d = num 5000 1).
Proof.
  intros Hplay Hspeed Htick Hnext gap.
  assert (H5 : 0 < num 5000 1) by done.
  unfold _scheduleNext. rewrite Hplay, Htick, Hnext. simpl.
  rewrite bool_decide_eq_false_2 by (apply lookup_lt_Some in Htick; lia).
  simpl. fold gap. eexists. split; [reflexivity|].
  cmp_cases; (split; [|split; [|split; [|split]]]); intros; try done;
    try (apply Qcle_antisym; done);
    try (by apply Qclt_le_weak);
    try (exfalso; qc_order).
Qed.

End storage_replay_more.

Lemma X22_storage_replay_delivers_in_order_witness :
  let ticks := [mkTick 1000 (num 100 1) 1 buy; mkTick 1500 (num 101 1) 1 sell;
                mkTick 9000 (num 102 1) 1 buy] in
  let onTick := λ (tick : Tick) (seen : list Z), seen ++ [ts tick] in
  let r := (StorageReplayEngine.load (λ _ _ _, ticks)
              StorageReplayEngine.create "ES" 0 10000).2 in
  StorageReplayEngine._timer r = None
  ∧ (StorageReplayEngine._pos r + 2
     < length (StorageReplayEngine._ticks r))%nat
  ∧ (StorageReplayEngine.replay onTick r 1 0 [] 2).2 = [1000%Z; 1500%Z; 9000%Z]
  ∧ StorageReplayEngine._playing
      (StorageReplayEngine.replay onTick r 1 0 [] 2).1 = false.
Proof.
  intros ticks onTick r.
  assert (H1 : StorageReplayEngine._timer r = None) by reflexivity.
  assert (H2 : (StorageReplayEngine._pos r + 2
                < length (StorageReplayEngine._ticks r))%nat) by (simpl; lia).
  split; [exact H1|]. split; [exact H2|].
  destruct (X22_storage_replay_delivers_in_order onTick r 1 0 [] 2 H1 H2)
    as (Hw & _ & _ & Hp & _).
  split; [exact Hw | exact Hp].
Defined.

Lemma X23_storage_pause_and_resume_witness :
  let ticks := [mkTick 1000 (num 100 1) 1 buy; mkTick 1500 (num 101 1) 1 sell;
                mkTick 9000 (num 102 1) 1 buy; mkTick 9100 (num 102 1) 1 buy] in
  let onTick := λ (tick : Tick) (seen : list Z), seen ++ [ts tick] in
  let r := (StorageReplayEngine.load (λ _ _ _, ticks)
              StorageReplayEngine.create "ES" 0 10000).2 in
  let mid := StorageReplayEngine.replay onTick r 1 0 [] 1 in
  StorageReplayEngine._timer r = None
  ∧ (StorageReplayEngine._pos r + 2 + 1
     < length (StorageReplayEngine._ticks r))%nat
  ∧ mid.2 = [1000%Z; 1500%Z]
  ∧ (StorageReplayEngine.replay onTick
       (StorageReplayEngine.pause mid.1) 2 50 mid.2 1).2
    = [1000%Z; 1500%Z; 9000%Z; 9100%Z].
Proof.
  intros ticks onTick r mid.
  assert (H1 : StorageReplayEngine._timer r = None) by reflexivity.
  assert (H2 : (StorageReplayEngine._pos r + 2 + 1
                < length (StorageReplayEngine._ticks r))%nat) by (simpl; lia).
  split; [exact H1|]. split; [exact H2|].
  destruct (X23_storage_pause_and_resume onTick r 1 2 0 50 [] 1 1 H1 H2)
    as (_ & _ & Hw & _).
  split; [reflexivity | exact Hw].
Defined.

Lemma X24_storage_play_at_the_end_is_idle_witness :
  let ticks := [mkTick 1000 (num 100 1) 1 buy; mkTick 1500 (num 101 1) 1 sell] in
  let onTick := λ (tick : Tick) (seen : list Z), seen ++ [ts tick] in
  let r := (StorageReplayEngine.replay onTick
              (StorageReplayEngine.load (λ _ _ _, ticks)
                 StorageReplayEngine.create "ES" 0 10000).2 1 0 [] 1).1 in
  StorageReplayEngine._timer r = None
  ∧ StorageReplayEngine._ticks r ≠ []
  ∧ (length (StorageReplayEngine._ticks r) ≤ StorageReplayEngine._pos r)%nat
  ∧ (StorageReplayEngine.play onTick r 1 7 [1000%Z; 1500%Z]).2
    = [1000%Z; 1500%Z].
Proof.
  intros ticks onTick r.
  assert (H1 : StorageReplayEngine._timer r = None) by reflexivity.
  assert (H2 : StorageReplayEngine._ticks r ≠ []) by done.
  assert (H3 : (length (StorageReplayEngine._ticks r)
                ≤ StorageReplayEngine._pos r)%nat) by (simpl; lia).
  split; [exact H1|]. split; [exact H2|]. split; [exact H3|].
  exact (proj1 (proj2 (X24_storage_play_at_the_end_is_idle onTick r 1 7
                         [1000%Z; 1500%Z] H1 H2 H3))).
Defined.

Lemma X25_storage_delay_is_capped_witness :
  let tick := mkTick 1000 (num 100 1) 1 buy in
  let next := mkTick 61000 (num 101 1) 1 sell in
  let onTick := λ (tick : Tick) (seen : list Z), seen ++ [ts tick] in
  let r := {| StorageReplayEngine._timer := None;
              StorageReplayEngine._ticks := [tick; next];
              StorageReplayEngine._pos := 0;
              StorageReplayEngine._speed := 2;
              StorageReplayEngine._playing := true;
              StorageReplayEngine._startRealTs := 0;
              StorageReplayEngine._startTickTs := 1000 |} in
  StorageReplayEngine._playing r = true
  ∧ 0 < StorageReplayEngine._speed r
  ∧ StorageReplayEngine._timer
      (StorageReplayEngine._scheduleNext onTick r []).1 = Some (num 5000 1).
Proof.
  intros tick next onTick r.
  assert (H1 : StorageReplayEngine._playing r = true) by reflexivity.
  assert (H2 : 0 < StorageReplayEngine._speed r) by done.
  split; [exact H1|]. split; [exact H2|].
  destruct (X25_storage_delay_is_capped onTick r [] tick next H1 H2
              eq_refl eq_refl) as (d & Hd & _ & _ & _ & _ & Hcap).
  rewrite Hd. f_equal. apply Hcap. by_decide.
Defined.

(** ** More on the replay engine of [engine/ReplayEngine.js] *)

Section engine_replay_more.
Context {E : Type}.
Variable resetSession : E → E.
Variable onTrade : Tick → E → E.

Import ReplayEngine.

Lemma Engine_playNext_step (r : ReplayEngine.t) (e : E) :
  running r = true → _timer r = None →
  (_idx r < length (_ticks r))%nat →
  ∃ tick,
    _ticks r !! _idx r = Some tick
    ∧ (_playNext onTrade r e).2 = onTrade tick e
    ∧ _idx (_playNext onTrade r e).1 = S (_idx r)
    ∧ _ticks (_playNext onTrade r e).1 = _ticks r
    ∧ speed (_playNext onTrade r e).1 = speed r
    ∧ armed (_playNext onTrade r e).1.
Proof.
  intros Hrun Htimer Hidx.
  destruct (lookup_lt_is_Some_2 (_ticks r) (_idx r) Hidx) as [tick Htick].
  exists tick. split; [done|].
  unfold _playNext, armed.
  rewrite Hrun, Htick. simpl.
  rewrite bool_decide_eq_false_2 by lia.
  destruct (_ticks r !! S (_idx r)) as [next|] eqn:Hnext; simpl.
  - apply lookup_lt_Some in Hnext.
    do 4 (split; [done|]).
    rewrite bool_decide_eq_true_2 by lia. split; [done|].
    split; [intros _; lia | by eexists].
  - apply lookup_ge_None in Hnext.
    do 4 (split; [done|]).
    rewrite bool_decide_eq_false_2 by lia. split; [done|].
    rewrite Htimer. split; [by intros [? [=]] | lia].
Qed.

Lemma Engine_timers_fire (k : nat) : ∀ (r : ReplayEngine.t) (e : E),
  armed r → (_idx r + k ≤ length (_ticks r))%nat →
  let out := timers_fire onTrade k r e in
  out.2 = delivered onTrade (take k (drop (_idx r) (_ticks r))) e
  ∧ _idx out.1 = (_idx r + k)%nat
  ∧ _ticks out.1 = _ticks r
  ∧ speed out.1 = speed r
  ∧ armed out.1.
Proof.
  induction k as [|k IH]; intros r e Harmed Hk.
  { simpl. by rewrite Nat.add_0_r. }
  destruct Harmed as [Hrun Htimer].
  assert (Hidx : (_idx r < length (_ticks r))%nat) by lia.
  rewrite bool_decide_eq_true_2 in Hrun by done.
  destruct (proj2 Htimer Hidx) as [d Hd].
  simpl. unfold timer_fires. rewrite Hd.
  set (r0 := {| running := running r; speed := speed r; _timer := None;
                _ticks := _ticks r; _idx := _idx r |}).
  destruct (Engine_playNext_step r0 e) as (tick & Htick & He & Hp & Ht & Hs & Ha);
    [done|done|done|].
  destruct (_playNext onTrade r0 e) as [r1 e1].
  simpl in Htick, He, Hp, Ht, Hs, Ha. subst e1.
  destruct (IH r1 (onTrade tick e) Ha) as (He' & Hp' & Ht' & Hs' & Ha').
  { rewrite Hp, Ht. lia. }
  rewrite Hp, Ht in He'. rewrite He', Hp', Ht', Hs', Hp, Ht, Hs.
  split; [by rewrite (drop_S _ _ _ Htick)|].
  split; [lia|]. done.
Qed.

Lemma Engine_replay_spec (r : ReplayEngine.t) (speed_ : option Qc) (e : E)
    (k : nat) :
  _timer r = None → (_idx r + k < length (_ticks r))%nat →
  let out := replay resetSession onTrade r speed_ e k in
  out.2 = delivered onTrade (take (S k) (drop (_idx r) (_ticks r)))
            (resetSession e)
  ∧ _idx out.1 = (_idx r + S k)%nat
  ∧ _ticks out.1 = _ticks r
  ∧ armed out.1.
Proof.
  intros Htimer Hk. unfold replay, play.
  rewrite bool_decide_eq_false_2 by lia.
  set (r1 := {| running := true; speed := _; _timer := _timer r;
                _ticks := _ticks r; _idx := _idx r |}).
  destruct (Engine_playNext_step r1 (resetSession e))
    as (tick & Htick & He & Hp & Ht & Hs & Ha); [done|done|simpl; lia|].
  destruct (_playNext onTrade r1 (resetSession e)) as [r2 e2].
  simpl in Htick, He, Hp, Ht, Hs, Ha. subst e2.
  destruct (Engine_timers_fire k r2 (onTrade tick (resetSession e)) Ha)
    as (He' & Hp' & Ht' & Hs' & Ha').
  { rewrite Hp, Ht. simpl. lia. }
  rewrite Hp, Ht in He'. simpl in He'. simpl.
  rewrite He', Hp', Ht', Hp, Ht.
  split; [by rewrite (drop_S _ _ _ Htick)|].
  split; [simpl; lia|]. done.
Qed.

Lemma Engine_idle (r : ReplayEngine.t) (e : E) (n : nat) :
  _timer r = None → timers_fire onTrade n r e = (r, e).
Proof.
  intros Hnone. induction n as [|n IH]; [done|].
  simpl. unfold timer_fires. by rewrite Hnone.
Qed.

(** X26.  [play] resets the session of the aggregation engine and then
    hands it the recording tick by tick, in order and from the cursor on.
    With no timeout pending, [play] answers with the status ["playing"] and
    the number of ticks loaded, and after [k] timeouts the engine has been
    reset once and has then received exactly the [k + 1] ticks that follow
    the cursor; the replay runs, with the next timeout armed, exactly while
    ticks remain. *)
Theorem X26_engine_replay_resets_then_delivers_in_order
    (r : ReplayEngine.t) (speed_ : option Qc) (e : E) (k : nat) :
  _timer r = None → (_idx r + k < length (_ticks r))%nat →
  let out := replay resetSession onTrade r speed_ e k in
  (play resetSession onTrade r speed_ e).1.1
  = Returned {| status := "playing"; count := length (_ticks r) |}
  ∧ out.2 = delivered onTrade (take (S k) (drop (_idx r) (_ticks r)))
              (resetSession e)
  ∧ _idx out.1 = (_idx r + S k)%nat
  ∧ running out.1 = bool_decide (_idx r + S k < length (_ticks r))%nat
  ∧ (is_Some (_timer out.1) ↔ (_idx r + S k < length (_ticks r))%nat).
Proof.
  intros Htimer Hk out.
  destruct (Engine_replay_spec r speed_ e k Htimer Hk)
    as (He & Hp & Ht & [Hrun Harm]).
  fold out in He, Hp, Ht, Hrun, Harm. rewrite Hp, Ht in Hrun, Harm.
  split; [|done].
  unfold play. rewrite bool_decide_eq_false_2 by lia.
  by destruct (_playNext onTrade _ _).
Qed.

(** X27.  [play] does not rewind.  On a replay that has run to its end,
    with a recording loaded, [play] still answers ["playing"] and still
    resets the session of the aggregation engine, but hands it no tick: the
    replay is left stopped at the end with no timeout armed. *)
Theorem X27_engine_play_at_the_end_only_resets
    (r : ReplayEngine.t) (speed_ : option Qc) (e : E) :
  _timer r = None → _ticks r ≠ [] → (length (_ticks r) ≤ _idx r)%nat →
  let out := play resetSession onTrade r speed_ e in
  out.1.1 = Returned {| status := "playing"; count := length (_ticks r) |}
  ∧ out.2 = resetSession e
  ∧ running out.1.2 = false
  ∧ _timer out.1.2 = None
  ∧ _idx out.1.2 = _idx r
  ∧ ∀ n, timers_fire onTrade n out.1.2 out.2 = (out.1.2, out.2).
Proof.
  intros Htimer Hticks Hidx out. subst out. unfold play.
  rewrite bool_decide_eq_false_2 by (by destruct (_ticks r)).
  unfold _playNext. simpl.
  rewrite bool_decide_eq_true_2 by done. simpl.
  do 5 (split; [done|]).
  intros n. by apply Engine_idle.
Qed.

End engine_replay_more.

Lemma X26_engine_replay_resets_then_delivers_in_order_witness :
  let ticks := [mkTick 1000 (num 100 1) 1 buy; mkTick 1500 (num 101 1) 1 sell;
                mkTick 9000 (num 102 1) 1 buy] in
  let resetSession := λ _ : list Z, [] in
  let onTrade := λ (tick : Tick) (seen : list Z), seen ++ [ts tick] in
  let r := (ReplayEngine.load (λ _ _ _, ticks) ReplayEngine.create
              "ES" 0 10000).2 in
  ReplayEngine._timer r = None
  ∧ (ReplayEngine._idx r + 2 < length (ReplayEngine._ticks r))%nat
  ∧ (ReplayEngine.replay resetSession onTrade r None [7%Z] 2).2
    = [1000%Z; 1500%Z; 9000%Z].
Proof.
  intros ticks resetSession onTrade r.
  assert (H1 : ReplayEngine._timer r = None) by reflexivity.
  assert (H2 : (ReplayEngine._idx r + 2 < length (ReplayEngine._ticks r))%nat)
    by (simpl; lia).
  split; [exact H1|]. split; [exact H2|].
  exact (proj1 (proj2 (X26_engine_replay_resets_then_delivers_in_order
                         resetSession onTrade r None [7%Z] 2 H1 H2))).
Defined.

Lemma X27_engine_play_at_the_end_only_resets_witness :
  let ticks := [mkTick 1000 (num 100 1) 1 buy; mkTick 1500 (num 101 1) 1 sell] in
  let resetSession := λ _ : list Z, [] in
  let onTrade := λ (tick : Tick) (seen : list Z), seen ++ [ts tick] in
  let done_ := ReplayEngine.replay resetSession onTrade
                 (ReplayEngine.load (λ _ _ _, ticks) ReplayEngine.create
                    "ES" 0 10000).2 None [] 1 in
  ReplayEngine._timer done_.1 = None
  ∧ ReplayEngine._ticks done_.1 ≠ []
  ∧ (length (ReplayEngine._ticks done_.1) ≤ ReplayEngine._idx done_.1)%nat
  ∧ done_.2 = [1000%Z; 1500%Z]
  ∧ (ReplayEngine.play resetSession onTrade done_.1 None done_.2).2 = [].
Proof.
  intros ticks resetSession onTrade done_.
  assert (H1 : ReplayEngine._timer done_.1 = None) by reflexivity.
  assert (H2 : ReplayEngine._ticks done_.1 ≠ []) by done.
  assert (H3 : (length (ReplayEngine._ticks done_.1)
                ≤ ReplayEngine._idx done_.1)%nat) by (simpl; lia).
  split; [exact H1|]. split; [exact H2|]. split; [exact H3|].
  split; [reflexivity|].
  exact (proj1 (proj2 (X27_engine_play_at_the_end_only_resets
                         resetSession onTrade done_.1 None done_.2 H1 H2 H3))).
Defined.

(** ** More on the event-emitter engine *)

Section engine_more.
Import AggregationEngine.

Lemma sum_list_app_one l y : sum_list (l ++ [y]) = sum_list l + y.
Proof. unfold sum_list. by rewrite foldl_snoc. Qed.

Lemma onTrade_recorded e tick random :
  cvd (onTrade e (recorded tick) random) = cvd e + signed tick
  ∧ sessionCvd (onTrade e (recorded tick) random) = sessionCvd e + signed tick
  ∧ trades (onTrade e (recorded tick) random)
    = push_capped RING_BUFFER_SIZE (trades e) tick
  ∧ (lastBid (onTrade e (recorded tick) random),
     lastAsk (onTrade e (recorded tick) random)) = (lastBid e, lastAsk e).
Proof. unfold onTrade, signed. simpl. by destruct tick. Qed.

(** The engine after a run of recorded trades. *)
Lemma delivered_recorded random ticks : ∀ e,
  (length (trades e) ≤ RING_BUFFER_SIZE)%nat →
  let e' := ReplayEngine.delivered
              (λ tick e0, onTrade e0 (recorded tick) random) ticks e in
  cvd e' = cvd e + sum_list (signed <$> ticks)
  ∧ sessionCvd e' = sessionCvd e + sum_list (signed <$> ticks)
  ∧ trades e' = slice_last RING_BUFFER_SIZE (trades e ++ ticks)
  ∧ (lastBid e', lastAsk e') = (lastBid e, lastAsk e).
Proof.
  induction ticks as [|tick ticks IH] using rev_ind; intros e Hlen.
  { simpl. unfold sum_list. simpl. rewrite app_nil_r.
    split; [ring|]. split; [ring|]. split; [|done].
    unfold slice_last.
    by replace (length (trades e) - RING_BUFFER_SIZE)%nat with 0%nat by lia. }
  destruct (IH e Hlen) as (Hc & Hs & Ht & Hq).
  unfold ReplayEngine.delivered in *. rewrite foldl_snoc.
  set (e1 := foldl _ e ticks) in *. cbv zeta in *.
  destruct (onTrade_recorded e1 tick random) as (Hc' & Hs' & Ht' & Hq').
  rewrite Hc', Hs', Ht', Hq', Hc, Hs, Ht, Hq.
  rewrite fmap_app. change (signed <$> [tick]) with [signed tick].
  rewrite sum_list_app_one.
  split; [ring|]. split; [ring|]. split; [|done].
  rewrite push_capped_slice by apply slice_last_length.
  by rewrite slice_last_snoc, app_assoc.
Qed.

(** X28.  A replay into the aggregation engine starts its session over.
    After [play] and [k] timeouts on a recording whose trades carry their
    side, both CVD counters of the engine stand at the net signed size of the
    [k + 1] ticks replayed since this [play], a side other than buy counting
    as a sell, and the trade buffer holds the last 500 of those ticks: what
    the engine had counted before, ticks replayed before a pause included,
    is gone.  The last quote survives. *)
Theorem X28_replay_restarts_the_engine_session
    (r : ReplayEngine.t) (speed_ : option Qc) (e : AggregationEngine.t)
    (random : Qc) (k : nat) :
  ReplayEngine._timer r = None →
  (ReplayEngine._idx r + k < length (ReplayEngine._ticks r))%nat →
  let played := take (S k) (drop (ReplayEngine._idx r) (ReplayEngine._ticks r)) in
  let out := ReplayEngine.replay resetSession
               (λ tick e0, onTrade e0 (recorded tick) random) r speed_ e k in
  cvd out.2 = sum_list (signed <$> played)
  ∧ sessionCvd out.2 = sum_list (signed <$> played)
  ∧ trades out.2 = slice_last RING_BUFFER_SIZE played
  ∧ (lastBid out.2, lastAsk out.2) = (lastBid e, lastAsk e).
Proof.
  intros Htimer Hk played out.
  destruct (Engine_replay_spec resetSession
              (λ tick e0, onTrade e0 (recorded tick) random) r speed_ e k
              Htimer Hk) as (He & _).
  fold out played in He. rewrite He.
  destruct (delivered_recorded random played (resetSession e))
    as (Hc & Hs & Ht & Hq); [simpl; lia|].
  rewrite Hc, Hs, Ht, Hq. simpl.
  split; [ring|]. split; [ring|]. done.
Qed.

Lemma call_invariant e c :
  cvd e = sessionCvd e ∧ (length (trades e) ≤ RING_BUFFER_SIZE)%nat →
  cvd (call e c) = sessionCvd (call e c)
  ∧ (length (trades (call e c)) ≤ RING_BUFFER_SIZE)%nat.
Proof.
  intros [Hc Hl]. destruct c as [tick random | bidP askP |]; simpl.
  - split; [by rewrite Hc | by apply push_capped_length].
  - done.
  - split; [done|lia].
Qed.

(** X29.  Two invariants of the engine, over any run of trades, quotes and
    session resets from a new engine: the counters [cvd] and [sessionCvd]
    are always equal, and the trade buffer never holds more than
    [RING_BUFFER_SIZE] trades. *)
Theorem X29_engine_counters_agree (cs : list Call) :
  cvd (calls create cs) = sessionCvd (calls create cs)
  ∧ (length (trades (calls create cs)) ≤ RING_BUFFER_SIZE)%nat.
Proof.
  induction cs as [|c cs IH] using rev_ind.
  - split; [done | simpl; lia].
  - unfold calls in *. rewrite foldl_snoc. by apply call_invariant.
Qed.

End engine_more.

Lemma X28_replay_restarts_the_engine_session_witness :
  let ticks := [mkTick 1000 (num 100 1) (num 5 1) buy;
                mkTick 1500 (num 101 1) (num 2 1) sell;
                mkTick 9000 (num 102 1) (num 4 1) unknown] in
  let r := (ReplayEngine.load (λ _ _ _, ticks) ReplayEngine.create
              "ES" 0 10000).2 in
  let e := AggregationEngine.onTrade AggregationEngine.create
             (AggregationEngine.mkRawTick 1 (num 99 1) (num 40 1) (Some buy)) 0 in
  let out := ReplayEngine.replay AggregationEngine.resetSession
               (λ tick e0, AggregationEngine.onTrade e0
                             (AggregationEngine.recorded tick) 0)
               r None e 2 in
  ReplayEngine._timer r = None
  ∧ (ReplayEngine._idx r + 2 < length (ReplayEngine._ticks r))%nat
  ∧ AggregationEngine.cvd e = num 40 1
  ∧ AggregationEngine.cvd out.2 = - 1.
Proof.
  intros ticks r e out.
  assert (H1 : ReplayEngine._timer r = None) by reflexivity.
  assert (H2 : (ReplayEngine._idx r + 2 < length (ReplayEngine._ticks r))%nat)
    by (simpl; lia).
  split; [exact H1|]. split; [exact H2|]. split; [qc_compute|].
  etrans; [exact (proj1 (X28_replay_restarts_the_engine_session
                           r None e 0 2 H1 H2))|].
  qc_compute.
Defined.

(** ** More on the DOM: stacked levels *)

Section dom_stacked.
Import DomBuilder.





End dom_stacked.

(* ===================================================================== *)
(** * Part IV: the code on doubles *)
(* ===================================================================== *)

(** The sums of the footprint bars and of the cumulative delta, and the
    quotient of the DOM alert, as the machine computes them.  First the
    rounding itself. *)

(** ** The arithmetic of doubles *)

Section rounding.
Import Binary64.
Local Open Scope Q_scope.

Lemma two_pos k : 0 < 2 ^ k.
Proof. apply Qpower_0_lt. reflexivity. Qed.

Lemma two_add a b : 2 ^ (a + b) == 2 ^ a * 2 ^ b.
Proof. apply Qpower_plus. discriminate. Qed.

Lemma two_Z k : (0 <= k)%Z -> 2 ^ k == inject_Z (2 ^ k).
Proof. intros. symmetry. apply (Zpower_Qpower 2 k). assumption. Qed.

Lemma two_le a b : (a <= b)%Z -> 2 ^ a <= 2 ^ b.
Proof. intros. apply Qpower_le_compat_l; [assumption | discriminate]. Qed.

Lemma two_lt a b : (a < b)%Z -> 2 ^ a < 2 ^ b.
Proof. intros. apply Qpower_lt_compat_l; [assumption | reflexivity]. Qed.

Lemma two_lt_inv a b : 2 ^ a < 2 ^ b -> (a < b)%Z.
Proof. intros. apply (Qpower_lt_compat_l_inv 2); [assumption | reflexivity]. Qed.

Lemma two_log2 (p : Z) :
  (0 < p)%Z -> 2 ^ Z.log2 p <= inject_Z p < 2 ^ (Z.log2 p + 1).
Proof.
  intros Hp. destruct (Z.log2_spec p Hp) as [Hlo Hhi].
  pose proof (Z.log2_nonneg p).
  rewrite !two_Z by lia. rewrite <- Zle_Qle, <- Zlt_Qlt.
  replace (Z.log2 p + 1)%Z with (Z.succ (Z.log2 p)) by lia. split; assumption.
Qed.

Lemma ilog2_spec a : 0 < a -> 2 ^ ilog2 a <= a < 2 ^ (ilog2 a + 1).
Proof.
  intros Ha. unfold ilog2.
  set (p := Qnum a). set (q := Zpos (Qden a)).
  assert (Hp : (0 < p)%Z).
  { subst p. destruct a as [n d]. unfold Qlt in Ha. simpl in *. lia. }
  assert (Hq : (0 < q)%Z) by (subst q; lia).
  destruct (two_log2 p Hp) as [Hp1 Hp2]. destruct (two_log2 q Hq) as [Hq1 Hq2].
  assert (Ha' : inject_Z p == a * inject_Z q).
  { subst p q. destruct a as [n d]. simpl. rewrite (Qmake_Qdiv n d). field.
    intros H. apply (Qeq_eq_bool) in H. discriminate. }
  assert (Hqpos : 0 < inject_Z q) by (rewrite <- (Zlt_Qlt 0); assumption).
  set (lp := Z.log2 p) in *. set (lq := Z.log2 q) in *.
  pose proof (two_pos lq) as Hlq. pose proof (two_pos (lp - lq)) as Hl.
  pose proof (two_pos (lp - lq - 1)) as Hl1.
  assert (E1 : 2 ^ (lp + 1) == 2 ^ (lp - lq + 1) * 2 ^ lq).
  { rewrite <- two_add. f_equiv. lia. }
  assert (E2 : 2 ^ lp == 2 ^ (lp - lq - 1) * 2 ^ (lq + 1)).
  { rewrite <- two_add. f_equiv. lia. }
  destruct (Qle_bool (2 ^ (lp - lq)) a) eqn:E.
  - apply Qle_bool_iff in E. split; [assumption|].
    apply (Qmult_lt_r _ _ (inject_Z q) Hqpos). rewrite <- Ha'.
    eapply Qlt_le_trans; [exact Hp2|]. rewrite E1.
    apply Qmult_le_l; [apply two_pos | assumption].
  - assert (E' : a < 2 ^ (lp - lq)).
    { apply Qnot_le_lt. intros H. apply Qle_bool_iff in H. congruence. }
    replace (lp - lq - 1 + 1)%Z with (lp - lq)%Z by lia.
    split; [|assumption].
    apply Qlt_le_weak. apply (Qmult_lt_r _ _ (inject_Z q) Hqpos). rewrite <- Ha'.
    eapply Qlt_le_trans; [|exact Hp1]. rewrite E2.
    apply Qmult_lt_l; [assumption | assumption].
Qed.

Lemma ilog2_unique a e : 2 ^ e <= a < 2 ^ (e + 1) -> ilog2 a = e.
Proof.
  intros [H1 H2].
  assert (Ha : 0 < a) by (eapply Qlt_le_trans; [apply (two_pos e) | assumption]).
  destruct (ilog2_spec a Ha) as [H3 H4].
  assert (ilog2 a < e + 1)%Z by (apply two_lt_inv; eapply Qle_lt_trans; eassumption).
  assert (e < ilog2 a + 1)%Z by (apply two_lt_inv; eapply Qle_lt_trans; eassumption).
  lia.
Qed.

Lemma ilog2_lt a m : 0 < a -> a < 2 ^ m -> (ilog2 a < m)%Z.
Proof.
  intros Ha Hm. destruct (ilog2_spec a Ha) as [H1 _].
  apply two_lt_inv. eapply Qle_lt_trans; eassumption.
Qed.

Lemma ilog2_le a b : 0 < a -> a <= b -> (ilog2 a <= ilog2 b)%Z.
Proof.
  intros Ha Hab.
  assert (Hb : 0 < b) by (eapply Qlt_le_trans; eassumption).
  destruct (ilog2_spec a Ha) as [H1 _]. destruct (ilog2_spec b Hb) as [_ H2].
  assert (ilog2 a < ilog2 b + 1)%Z; [|lia].
  apply two_lt_inv. eapply Qle_lt_trans; [exact H1|].
  eapply Qle_lt_trans; eassumption.
Qed.


(** The nearest integer lies within one half. *)
Lemma nearest_even_bounds q :
  inject_Z (nearest_even q) - (1 # 2) <= q <= inject_Z (nearest_even q) + (1 # 2).
Proof.
  unfold nearest_even.
  pose proof (Qfloor_le q) as H1. pose proof (Qlt_floor q) as H2.
  rewrite inject_Z_plus in H2. change (inject_Z 1) with 1 in H2.
  destruct (Qcompare_spec (q - inject_Z (Qfloor q)) (1 # 2)) as [E | E | E].
  - destruct (Z.even (Qfloor q)); rewrite ?inject_Z_plus;
      change (inject_Z 1) with 1; lra.
  - lra.
  - rewrite inject_Z_plus. change (inject_Z 1) with 1. lra.
Qed.

Lemma nearest_even_Z q z : q == inject_Z z -> nearest_even q = z.
Proof.
  intros Hq. unfold nearest_even.
  assert (Hf : Qfloor q = z) by (rewrite Hq; apply Qfloor_Z).
  rewrite Hf.
  destruct (Qcompare_spec (q - inject_Z z) (1 # 2)) as [E | E | E]; [lra | reflexivity | lra].
Qed.

Lemma nearest_even_mono a b : a <= b -> (nearest_even a <= nearest_even b)%Z.
Proof.
  intros Hab.
  pose proof (Qfloor_resp_le _ _ Hab) as Hf.
  destruct (Z.eq_dec (Qfloor a) (Qfloor b)) as [E | E].
  - unfold nearest_even. rewrite <- E.
    destruct (Qcompare_spec (a - inject_Z (Qfloor a)) (1 # 2)) as [Ea | Ea | Ea];
      destruct (Qcompare_spec (b - inject_Z (Qfloor a)) (1 # 2)) as [Eb | Eb | Eb];
      try destruct (Z.even (Qfloor a)); try lia; lra.
  - assert (Hlt : (Qfloor a + 1 <= Qfloor b)%Z) by lia.
    assert (Ha : (nearest_even a <= Qfloor a + 1)%Z).
    { unfold nearest_even. destruct (Qcompare _ _); try destruct (Z.even _); lia. }
    assert (Hb : (Qfloor b <= nearest_even b)%Z).
    { unfold nearest_even. destruct (Qcompare _ _); try destruct (Z.even _); lia. }
    lia.
Qed.


Lemma round_unfold x :
  ~ x == 0 -> round x = inject_Z (nearest_even (x / 2 ^ scale x)) * 2 ^ scale x.
Proof.
  intros Hx. unfold round.
  destruct (Qeq_bool x 0) eqn:E; [|reflexivity].
  apply Qeq_bool_iff in E. contradiction.
Qed.

Lemma round_zero x : x == 0 -> round x = 0.
Proof.
  intros Hx. unfold round. apply Qeq_bool_iff in Hx. rewrite Hx. reflexivity.
Qed.

Lemma two_split j k : 2 ^ j == 2 ^ (j - k) * 2 ^ k.
Proof. rewrite <- two_add. f_equiv. lia. Qed.

Lemma Qabs_pos_lt x : ~ x == 0 -> 0 < Qabs x.
Proof.
  intros Hx. destruct (Qlt_le_dec 0 x) as [H | H].
  - rewrite Qabs_pos by lra. assumption.
  - rewrite Qabs_neg by assumption.
    destruct (Qle_lt_or_eq _ _ H) as [? | E]; [lra | contradiction].
Qed.

(** A rational on the grid of its own scale is its own rounding. *)
Lemma round_on_grid x m :
  ~ x == 0 -> x == inject_Z m * 2 ^ scale x -> round x == x.
Proof.
  intros Hx Hm. rewrite (round_unfold x Hx).
  pose proof (two_pos (scale x)) as Hp.
  rewrite (nearest_even_Z _ m).
  - symmetry. exact Hm.
  - rewrite Hm at 1. field. lra.
Qed.

Lemma round_exact x (n j : Z) :
  x == inject_Z n * 2 ^ j -> (Z.abs n < 2 ^ 53)%Z -> (-1074 <= j)%Z ->
  round x == x.
Proof.
  intros Hxn Hn Hj.
  destruct (Qeq_dec x 0) as [Hx | Hx].
  { rewrite (round_zero x Hx). symmetry. exact Hx. }
  pose proof (two_pos j) as Hpj.
  assert (Habs : Qabs x == inject_Z (Z.abs n) * 2 ^ j).
  { rewrite Hxn, Qabs_Qmult. rewrite (Qabs_pos (2 ^ j)) by lra.
    reflexivity. }
  pose proof (Qabs_pos_lt x Hx) as Hpos.
  assert (Hlt : Qabs x < 2 ^ (53 + j)).
  { rewrite Habs, two_add. apply Qmult_lt_r; [assumption|].
    rewrite two_Z by lia. rewrite <- Zlt_Qlt. assumption. }
  pose proof (ilog2_lt _ _ Hpos Hlt) as He.
  assert (Hk : (scale x <= j)%Z) by (unfold scale; lia).
  apply (round_on_grid x (n * 2 ^ (j - scale x))); [assumption|].
  rewrite inject_Z_mult, <- two_Z by lia.
  rewrite Hxn at 1. rewrite (two_split j (scale x)) at 1. ring.
Qed.

Lemma round_le_grid x c m :
  ~ x == 0 -> c == inject_Z m * 2 ^ scale x -> x <= c -> round x <= c.
Proof.
  intros Hx Hc Hxc. rewrite (round_unfold x Hx), Hc.
  pose proof (two_pos (scale x)) as Hp.
  apply Qmult_le_r; [assumption|]. rewrite <- Zle_Qle.
  rewrite <- (nearest_even_Z (c / 2 ^ scale x) m) by (rewrite Hc; field; lra).
  apply nearest_even_mono. apply Qmult_le_r; [apply Qinv_lt_0_compat; assumption | assumption].
Qed.

Lemma round_ge_grid x c m :
  ~ x == 0 -> c == inject_Z m * 2 ^ scale x -> c <= x -> c <= round x.
Proof.
  intros Hx Hc Hxc. rewrite (round_unfold x Hx), Hc.
  pose proof (two_pos (scale x)) as Hp.
  apply Qmult_le_r; [assumption|]. rewrite <- Zle_Qle.
  rewrite <- (nearest_even_Z (c / 2 ^ scale x) m) by (rewrite Hc; field; lra).
  apply nearest_even_mono. apply Qmult_le_r; [apply Qinv_lt_0_compat; assumption | assumption].
Qed.

Lemma round_nonneg x : 0 <= x -> 0 <= round x.
Proof.
  intros Hx. destruct (Qeq_dec x 0) as [E | E].
  - rewrite (round_zero x E). lra.
  - apply (round_ge_grid x 0 0); [assumption | ring | assumption].
Qed.

Lemma round_nonpos x : x <= 0 -> round x <= 0.
Proof.
  intros Hx. destruct (Qeq_dec x 0) as [E | E].
  - rewrite (round_zero x E). lra.
  - apply (round_le_grid x 0 0); [assumption | ring | assumption].
Qed.

Lemma scale_normal x y : (scale y < scale x)%Z -> scale x = (ilog2 (Qabs x) - 52)%Z.
Proof. unfold scale. lia. Qed.

Lemma round_mono_same a b :
  ~ a == 0 -> ~ b == 0 -> scale a = scale b -> a <= b -> round a <= round b.
Proof.
  intros Ha Hb Hs Hab. rewrite (round_unfold a Ha), (round_unfold b Hb), Hs.
  pose proof (two_pos (scale b)) as Hp.
  apply Qmult_le_r; [assumption|]. rewrite <- Zle_Qle.
  apply nearest_even_mono.
  apply Qmult_le_r; [apply Qinv_lt_0_compat; assumption | assumption].
Qed.

Lemma round_mono a b : a <= b -> round a <= round b.
Proof.
  intros Hab.
  destruct (Qeq_dec a 0) as [Ea | Ea].
  { rewrite (round_zero a Ea). apply round_nonneg. lra. }
  destruct (Qeq_dec b 0) as [Eb | Eb].
  { rewrite (round_zero b Eb). apply round_nonpos. lra. }
  destruct (Qlt_le_dec 0 a) as [Ha | Ha]; [|destruct (Qlt_le_dec b 0) as [Hb | Hb]].
  - (* both positive *)
    assert (Hb : 0 < b) by lra.
    assert (Haa : Qabs a == a) by (apply Qabs_pos; lra).
    assert (Hbb : Qabs b == b) by (apply Qabs_pos; lra).
    assert (Hpa : 0 < Qabs a) by lra. assert (Hpb : 0 < Qabs b) by lra.
    assert (Hle : (ilog2 (Qabs a) <= ilog2 (Qabs b))%Z) by (apply ilog2_le; lra).
    destruct (Z.eq_dec (scale a) (scale b)) as [Es | Es].
    { by apply round_mono_same. }
    assert (Hs : (scale a < scale b)%Z) by (unfold scale in *; lia).
    pose proof (scale_normal _ _ Hs) as Hsb.
    destruct (ilog2_spec _ Hpa) as [_ Ha2]. destruct (ilog2_spec _ Hpb) as [Hb1 _].
    set (ea := ilog2 (Qabs a)) in *. set (eb := ilog2 (Qabs b)) in *.
    assert (Hea : (ea < eb)%Z) by (unfold scale in *; fold ea eb in Hs, Hsb |- *; lia).
    assert (Hka : (scale a <= eb)%Z) by (unfold scale in *; fold ea eb in Hs, Hsb |- *; lia).
    apply Qle_trans with (2 ^ eb).
    + apply (round_le_grid a _ (2 ^ (eb - scale a))); [assumption | |].
      * rewrite <- two_Z by lia. apply two_split.
      * pose proof (two_le (ea + 1) eb ltac:(lia)). lra.
    + apply (round_ge_grid b _ (2 ^ 52)); [assumption | |lra].
      rewrite <- (two_Z 52) by lia. rewrite <- two_add. f_equiv. lia.
  - (* both negative *)
    assert (Ha' : a < 0) by lra.
    assert (Haa : Qabs a == - a) by (apply Qabs_neg; lra).
    assert (Hbb : Qabs b == - b) by (apply Qabs_neg; lra).
    assert (Hpa : 0 < Qabs a) by lra. assert (Hpb : 0 < Qabs b) by lra.
    assert (Hle : (ilog2 (Qabs b) <= ilog2 (Qabs a))%Z) by (apply ilog2_le; lra).
    destruct (Z.eq_dec (scale a) (scale b)) as [Es | Es].
    { by apply round_mono_same. }
    assert (Hs : (scale b < scale a)%Z) by (unfold scale in *; lia).
    pose proof (scale_normal _ _ Hs) as Hsa.
    destruct (ilog2_spec _ Hpa) as [Ha1 _]. destruct (ilog2_spec _ Hpb) as [_ Hb2].
    set (ea := ilog2 (Qabs a)) in *. set (eb := ilog2 (Qabs b)) in *.
    assert (Hea : (eb < ea)%Z) by (unfold scale in *; fold ea eb in Hs, Hsa |- *; lia).
    assert (Hkb : (scale b <= ea)%Z) by (unfold scale in *; fold ea eb in Hs, Hsa |- *; lia).
    apply Qle_trans with (- 2 ^ ea).
    + apply (round_le_grid a _ (- 2 ^ 52)); [assumption | |lra].
      rewrite inject_Z_opp, <- (two_Z 52) by lia.
      rewrite (two_split ea (scale a)).
      replace (ea - scale a)%Z with 52%Z by lia. ring.
    + apply (round_ge_grid b _ (- 2 ^ (ea - scale b))); [assumption | |].
      * rewrite inject_Z_opp, <- two_Z by lia.
        rewrite (two_split ea (scale b)) at 1. ring.
      * pose proof (two_le (eb + 1) ea ltac:(lia)). lra.
  - (* a <= 0 <= b *)
    apply Qle_trans with 0; [apply round_nonpos | apply round_nonneg]; assumption.
Qed.


End rounding.

(** *** From [Q] to [Qc] *)

Lemma Qc_this_plus (a b : Qc) : (this (a + b) == this a + this b)%Q.
Proof. unfold Qcplus, Q2Qc. simpl. apply Qred_correct. Qed.

Lemma Qc_this_minus (a b : Qc) : (this (a - b) == this a - this b)%Q.
Proof.
  unfold Qcminus, Qcplus, Qcopp, Q2Qc. simpl. rewrite !Qred_correct. reflexivity.
Qed.

Lemma Qc_this_opp (a : Qc) : (this (- a) == - this a)%Q.
Proof. unfold Qcopp, Q2Qc. simpl. apply Qred_correct. Qed.

Lemma Qc_this_half (a : Qc) : (this (a / 2) == this a * (1 # 2))%Q.
Proof.
  unfold Qcdiv, Qcmult, Qcinv, Q2Qc. simpl. rewrite !Qred_correct. reflexivity.
Qed.

(** Linear arithmetic over [Qc], through [Q]. *)
Ltac qc_lra :=
  repeat match goal with
  | H : @eq Qc ?a ?b |- _ =>
      let H' := fresh "Hq" in
      assert (H' : (this a == this b)%Q) by (rewrite H; reflexivity);
      clear H
  end;
  try apply Qc_is_canon; unfold Qcle, Qclt in *;
  repeat match goal with
  | H : context [this (_ + _)] |- _ => rewrite Qc_this_plus in H
  | H : context [this (_ - _)] |- _ => rewrite Qc_this_minus in H
  | H : context [this (- _)] |- _ => rewrite Qc_this_opp in H
  | H : context [this (_ / 2)] |- _ => rewrite Qc_this_half in H
  | |- context [this (_ + _)] => rewrite Qc_this_plus
  | |- context [this (_ - _)] => rewrite Qc_this_minus
  | |- context [this (- _)] => rewrite Qc_this_opp
  | |- context [this (_ / 2)] => rewrite Qc_this_half
  end;
  change (this (Q2Qc 0)) with 0%Q in *;
  lra.

Section doubles.
Import Binary64.

Lemma rnd_this (x : Qc) : (this (rnd x) == round x)%Q.
Proof. unfold rnd, Q2Qc. simpl. apply Qred_correct. Qed.

(** Rounding is monotone. *)
Lemma rnd_mono (a b : Qc) : a ≤ b → rnd a ≤ rnd b.
Proof.
  intros Hab. unfold Qcle. rewrite !rnd_this. by apply round_mono.
Qed.

(** A rational [n * 2^j] with [|n| < 2^53], in the exponent range, is a
    double. *)
Lemma rnd_exact (x : Qc) (n j : Z) :
  (this x == inject_Z n * 2 ^ j)%Q → (Z.abs n < 2 ^ 53)%Z → (-1074 ≤ j)%Z →
  is_double x.
Proof.
  intros Hx Hn Hj. apply Qc_is_canon. rewrite rnd_this.
  by apply (round_exact x n j).
Qed.

Lemma two52_this : (this two52 == 2 ^ 52)%Q.
Proof. reflexivity. Qed.

(** Below [2^52] in magnitude every multiple of one half is a double. *)
Lemma rnd_half (x : Qc) :
  half_integer x → - two52 < x → x < two52 → rnd x = x.
Proof.
  intros [n Hn] Hlo Hhi.
  assert (Hx : (this x == inject_Z n * 2 ^ (-1))%Q).
  { rewrite Hn, Qc_this_half. reflexivity. }
  apply (rnd_exact x n (-1)); [exact Hx | | lia].
  unfold Qclt in *. rewrite Qc_this_opp in Hlo.
  rewrite Hx, two52_this in *.
  change (2 ^ (-1))%Q with (1 # 2)%Q in *. change (2 ^ 52)%Q with (inject_Z (2 ^ 52)) in *.
  assert (H1 : (inject_Z (- 2 ^ 53) < inject_Z n)%Q).
  { change (inject_Z (- 2 ^ 53)) with (- (2 * inject_Z (2 ^ 52)))%Q. lra. }
  assert (H2 : (inject_Z n < inject_Z (2 ^ 53))%Q).
  { change (inject_Z (2 ^ 53)) with (2 * inject_Z (2 ^ 52))%Q. lra. }
  rewrite <- Zlt_Qlt in H1, H2. lia.
Qed.

Lemma half_integer_0 : half_integer 0.
Proof. exists 0%Z. qc_compute. Qed.

Lemma half_integer_plus a b :
  half_integer a → half_integer b → half_integer (a + b).
Proof.
  intros [n ->] [m ->]. exists (n + m)%Z. rewrite Z2Qc_inj_add. by field.
Qed.

Lemma half_integer_minus a b :
  half_integer a → half_integer b → half_integer (a - b).
Proof.
  intros [n ->] [m ->]. exists (n - m)%Z. rewrite Z2Qc_inj_sub. by field.
Qed.

Lemma whole_spec x : whole x ↔ ∃ n : Z, (0 ≤ n)%Z ∧ x = Qc_of_Z n.
Proof.
  split.
  - intros [Hx Hn]. exists (Qfloor x). split; [|done].
    exact (Qfloor_resp_le 0 x Hx).
  - intros (n & Hn & ->). split.
    + rewrite <- Z2Qc_inj_0. by apply (proj1 (Z2Qc_inj_le _ _)).
    + f_equal. symmetry. apply Qfloor_Z.
Qed.

Lemma whole_half_integer x : whole x → half_integer x ∧ half_integer (x / 2) ∧ 0 ≤ x.
Proof.
  intros Hw. pose proof Hw as [H0 _].
  apply whole_spec in Hw as (n & Hn & ->).
  split; [|split; [|done]].
  - exists (2 * n)%Z. rewrite Z2Qc_inj_mul, Z2Qc_inj_2. by field.
  - by exists n.
Qed.

(** On multiples of one half within [2^52] the sum, the difference and the
    half of the machine are the exact ones. *)
Lemma fadd_exact a b :
  half_integer a → half_integer b → - two52 < a + b → a + b < two52 →
  fadd a b = a + b.
Proof. intros. unfold fadd. apply rnd_half; [by apply half_integer_plus|done..]. Qed.

Lemma fsub_exact a b :
  half_integer a → half_integer b → - two52 < a - b → a - b < two52 →
  fsub a b = a - b.
Proof. intros. unfold fsub. apply rnd_half; [by apply half_integer_minus|done..]. Qed.

Lemma fhalf_exact s : whole s → s < two52 → fdiv s 2 = s / 2.
Proof.
  intros Hw Hs. destruct (whole_half_integer s Hw) as (_ & Hh & H0).
  assert (H52 : 0 < two52) by done.
  unfold fdiv. apply rnd_half; [done | qc_lra | qc_lra].
Qed.

End doubles.

(** ** The footprint on doubles *)

Section footprint64.
Import Binary64.
Import FootprintAggregator.
Import FootprintAggregator64.

Lemma two52_pos : 0 < two52.
Proof. done. Qed.

(** Prices are compared, never added: the range of a bar holds its open and
    its close, whatever the sizes. *)
Lemma add_to_bar64_ohlc fa b tick : ohlc_ok b → ohlc_ok (add_to_bar fa b tick).
Proof.
  intros (Hlo & Hoh & Hlc & Hch). unfold ohlc_ok. simpl.
  cmp_cases; repeat split; qc_order.
Qed.

Lemma level_exact_zero cap :
  0 ≤ cap → level_exact cap {| bidVol := 0; askVol := 0; delta := 0 |}.
Proof.
  intros Hcap. unfold level_exact. simpl.
  split; [apply half_integer_0|]. split; [apply half_integer_0|].
  split; [done|]. split; [done|]. split; qc_lra.
Qed.

Lemma level_exact_weaken cap cap' l :
  cap ≤ cap' → level_exact cap l → level_exact cap' l.
Proof.
  intros Hc (Hb & Ha & Hb0 & Ha0 & Hsum & Hd).
  do 4 (split; [done|]). split; [qc_lra | done].
Qed.

(** On a level within the budget, the update of the machine is the exact
    one, and the level stays within the budget. *)
Lemma add_to_level64_exact cap l sd s :
  level_exact cap l → whole s → cap + s < two52 →
  add_to_level l sd s = FootprintAggregator.add_to_level l sd s
  ∧ level_exact (cap + s) (FootprintAggregator.add_to_level l sd s).
Proof.
  intros (Hb & Ha & Hb0 & Ha0 & Hsum & Hd) Hw Hcap.
  destruct (whole_half_integer s Hw) as (Hs & Hs2 & Hs0).
  pose proof two52_pos as H52.
  assert (Hdh : half_integer (delta l)) by (rewrite Hd; by apply half_integer_minus).
  assert (Hhalf : fdiv s 2 = s / 2) by (apply fhalf_exact; [done | qc_lra]).
  split.
  - unfold add_to_level, FootprintAggregator.add_to_level.
    destruct sd; rewrite ?Hhalf;
      repeat match goal with
      | |- context [fadd ?a ?b] =>
          rewrite (fadd_exact a b); [| try assumption; try qc_lra ..]
      | |- context [fsub ?a ?b] =>
          rewrite (fsub_exact a b); [| try assumption; try qc_lra ..]
      end; reflexivity.
  - unfold level_exact, FootprintAggregator.add_to_level.
    destruct sd; simpl;
      repeat match goal with
      | |- _ ∧ _ => split
      | |- half_integer (_ + _) => apply half_integer_plus; try done
      | |- half_integer _ => done
      end; qc_lra.
Qed.

(** Adding a trade of whole size to a bar within the budget: every sum is
    exact. *)
Lemma add_to_bar64_exact fa budget b tick :
  bar_exact budget b → whole (size tick) → budget + size tick < two52 →
  bar_exact (budget + size tick) (add_to_bar fa b tick).
Proof.
  intros (Hl & Htb & Hta & Htb0 & Hta0 & Hv & Hd & Hsb & Hsa & Hbud) Hw Hcap.
  destruct (whole_half_integer _ Hw) as (Hs & Hs2 & Hs0).
  pose proof two52_pos as H52.
  set (s := size tick) in *.
  assert (Hvh : half_integer (totalVolume b)) by (rewrite Hv; by apply half_integer_plus).
  assert (Hdh : half_integer (totalDelta b)) by (rewrite Hd; by apply half_integer_minus).
  assert (Hhalf : fdiv s 2 = s / 2) by (apply fhalf_exact; [done | qc_lra]).
  assert (Hvol : fadd (totalVolume b) s = totalVolume b + s)
    by (apply fadd_exact; [done | done | qc_lra | qc_lra]).
  set (key := _roundToTick fa (price tick)).
  set (level := default {| bidVol := 0; askVol := 0; delta := 0 |}
                        (levels b !! key)).
  assert (Hlevel : level_exact (totalVolume b) level).
  { subst level. destruct (levels b !! key) as [l|] eqn:El; simpl.
    - by apply (Hl _ _ El).
    - apply level_exact_zero. qc_lra. }
  destruct (add_to_level64_exact (totalVolume b) level (side tick) s Hlevel Hw)
    as [Heq Hnew]; [qc_lra|].
  assert (Hsums :
    sum_levels bidVol (<[key := FootprintAggregator.add_to_level level (side tick) s]> (levels b))
    = sum_levels bidVol (levels b) - bidVol level
      + bidVol (FootprintAggregator.add_to_level level (side tick) s)
    ∧ sum_levels askVol (<[key := FootprintAggregator.add_to_level level (side tick) s]> (levels b))
      = sum_levels askVol (levels b) - askVol level
        + askVol (FootprintAggregator.add_to_level level (side tick) s)).
  { rewrite !sum_levels_insert. subst level.
    destruct (levels b !! key) as [l|]; simpl; split; ring. }
  destruct Hsums as [Hsumb Hsuma].
  unfold bar_exact, add_to_bar. fold s key level. cbn [levels totalVolume totalBidVol totalAskVol totalDelta].
  rewrite Hvol, Heq, Hsumb, Hsuma, <- Hsb, <- Hsa.
  split.
  { apply map_Forall_insert_2; [done|].
    intros p l Hp. apply (level_exact_weaken (totalVolume b)); [qc_lra|].
    by apply (Hl p l). }
  destruct (side tick); rewrite ?Hhalf; simpl;
    rewrite ?(fadd_exact (totalBidVol b)), ?(fadd_exact (totalAskVol b)),
      ?(fsub_exact (totalDelta b)), ?(fadd_exact (totalDelta b))
      by (try done; qc_lra);
    repeat match goal with
    | |- _ ∧ _ => split
    | |- half_integer (_ + _) => apply half_integer_plus; try done
    | |- half_integer _ => done
    end; try qc_lra.
Qed.

Lemma bar_exact_weaken budget budget' b :
  budget ≤ budget' → bar_exact budget b → bar_exact budget' b.
Proof.
  intros Hb (? & ? & ? & ? & ? & ? & ? & ? & ? & Hle).
  do 9 (split; [done|]). qc_lra.
Qed.

Lemma _newBar_exact budget fa t p : 0 ≤ budget → bar_exact budget (_newBar fa t p).
Proof.
  intros Hb. unfold bar_exact, sum_levels. simpl. rewrite !map_fold_empty.
  split; [apply map_Forall_empty|].
  split; [apply half_integer_0|]. split; [apply half_integer_0|].
  split; [done|]. split; [done|]. split; [qc_lra|]. split; [qc_lra|]. done.
Qed.

(** The bars after one [ingest]: a property that new bars have, that
    recomputing the imbalances keeps, and that adding the tick turns into
    [P'], holds as [P'] of every bar afterwards. *)
Lemma ingest64_bars (P P' : Bar → Prop) fa tick :
  (∀ b, bar_of fa b → P b) →
  P (_newBar fa (ts tick) (price tick)) →
  (∀ b imbs, P b → P (with_imbalances b imbs)) →
  (∀ b, P b → P' b) →
  (∀ fa' b, P b → P' (add_to_bar fa' b tick)) →
  ∀ b, bar_of (ingest fa tick) b → P' b.
Proof.
  intros Hfa Hnew Himb Hweak Hadd.
  assert (Hrot : ∀ b, bar_of (rotate fa (ts tick) (price tick)) b → P b).
  { unfold rotate. destruct (currentBar fa) as [cb|] eqn:Ecb.
    - destruct (_ || _).
      + intros b [Hb | Hb]; simpl in *.
        * by injection Hb as <-.
        * apply push_capped_elem_of in Hb as [Hb | ->].
          -- apply Hfa. by right.
          -- apply Himb, Hfa. by left.
      + done.
    - intros b [Hb | Hb]; simpl in *.
      + by injection Hb as <-.
      + apply Hfa. by right. }
  unfold ingest.
  destruct (currentBar (rotate fa (ts tick) (price tick))) as [bar|] eqn:Ecur.
  - intros b [Hb | Hb]; simpl in *.
    + injection Hb as <-. apply Hadd, Hrot. by left.
    + apply Hweak, Hrot. by right.
  - intros b Hb. by apply Hweak, Hrot.
Qed.

Lemma ingest_all64_cons fa tick ticks :
  ingest_all fa (tick :: ticks) = ingest_all (ingest fa tick) ticks.
Proof. done. Qed.

Lemma sum_list_whole (l : list Qc) : Forall whole l → 0 ≤ sum_list l.
Proof.
  induction l as [|x l IH]; intros Hall; [done|].
  apply list.Forall_cons in Hall as [[Hx _] Hall]. specialize (IH Hall).
  rewrite sum_list_cons. qc_lra.
Qed.

(** Every bar stays within the budget of whole sizes ingested so far. *)
Lemma ingest_all64_exact ticks : ∀ fa budget,
  0 ≤ budget →
  (∀ b, bar_of fa b → bar_exact budget b) →
  Forall (λ t, whole (size t)) ticks →
  budget + sum_list (size <$> ticks) < two52 →
  ∀ b, bar_of (ingest_all fa ticks) b →
       bar_exact (budget + sum_list (size <$> ticks)) b.
Proof.
  induction ticks as [|tick ticks IH]; intros fa budget Hb Hfa Hw Hsum b Hbar.
  { simpl in *. apply (bar_exact_weaken budget); [|by apply Hfa].
    unfold sum_list. simpl. qc_lra. }
  apply list.Forall_cons in Hw as [Hs Hw].
  rewrite fmap_cons, sum_list_cons in Hsum |- *.
  assert (Hrest : 0 ≤ sum_list (size <$> ticks)).
  { apply sum_list_whole. by apply Forall_fmap. }
  pose proof Hs as [Hs0 _].
  rewrite ingest_all64_cons in Hbar.
  apply (bar_exact_weaken (budget + size tick + sum_list (size <$> ticks)));
    [qc_lra|].
  apply (IH (ingest fa tick)); [qc_lra | | done | qc_lra | done].
  apply (ingest64_bars (bar_exact budget)); try done.
  - by apply _newBar_exact.
  - intros b' Hb'. apply (bar_exact_weaken budget); [qc_lra | done].
  - intros fa' b' Hb'. apply add_to_bar64_exact; [done | done | qc_lra].
Qed.

(** Within the budget the claimed differences hold, taken exactly and as
    the machine takes them. *)
Lemma bar_exact_delta_ok budget b : budget < two52 → bar_exact budget b → delta_ok b.
Proof.
  intros Hbud (Hl & Htb & Hta & Htb0 & Hta0 & Hv & Hd & _ & _ & Hle).
  pose proof two52_pos as H52.
  split; [|split; [done|]].
  - intros p level Hp.
    destruct (Hl p level Hp) as (Hb & Ha & Hb0 & Ha0 & Hsum & Hdl).
    split; [done|]. rewrite fsub_exact; [done | done | done | qc_lra | qc_lra].
  - rewrite fsub_exact; [done | done | done | qc_lra | qc_lra].
Qed.

Lemma ingest_all64_ohlc ticks : ∀ fa,
  (∀ b, bar_of fa b → ohlc_ok b) →
  ∀ b, bar_of (ingest_all fa ticks) b → ohlc_ok b.
Proof.
  induction ticks as [|tick ticks IH]; intros fa Hfa; [done|].
  rewrite ingest_all64_cons. apply IH.
  apply (ingest64_bars ohlc_ok); try done.
  intros fa' b' Hb'. by apply add_to_bar64_ohlc.
Qed.

(** C3, as stated, fails on the doubles of the code.  A buy of 0.1, a sell
    of 0.2 and a buy of 0.3 at one price leave the level with
    [askVol = 0.4], [bidVol = 0.2] and
    [delta = 0.19999999999999998]: [delta] is not [askVol - bidVol],
    neither exactly nor as the machine subtracts, at the level and for the
    bar. *)
Lemma C3_decimal_sizes_counterexample :
  let ticks := [mkTick 0 (num 100 1) (lit 1 10) buy;
                mkTick 1 (num 100 1) (lit 2 10) sell;
                mkTick 2 (num 100 1) (lit 3 10) buy] in
  let fa := ingest_all (create 60000 (num 1 4) (num 3 1)) ticks in
  let below := Q2Qc (7205759403792793 # 36028797018963968) in
  (currentBar fa ≫= λ bar, levels bar !! num 100 1)
  = Some {| bidVol := lit 2 10; askVol := lit 4 10; delta := below |}
  ∧ (λ bar, (totalDelta bar, totalAskVol bar, totalBidVol bar)) <$> currentBar fa
    = Some (below, lit 4 10, lit 2 10)
  ∧ lit 4 10 - lit 2 10 = lit 2 10
  ∧ fsub (lit 4 10) (lit 2 10) = lit 2 10
  ∧ below ≠ lit 2 10
  ∧ ¬ (∀ bar, bar_of fa bar → delta_ok bar).
Proof.
  intros ticks fa below.
  assert (Hlevel : (currentBar fa ≫= λ bar, levels bar !! num 100 1)
                   = Some {| bidVol := lit 2 10; askVol := lit 4 10;
                             delta := below |}) by by_decide.
  assert (Hexact : lit 4 10 - lit 2 10 = lit 2 10) by by_decide.
  assert (Hne : below ≠ lit 2 10) by by_decide.
  split; [exact Hlevel|]. split; [by_decide|]. split; [exact Hexact|].
  split; [by_decide|]. split; [exact Hne|].
  intros Hall. apply bind_Some in Hlevel as (bar & Hcur & Hlevel).
  destruct (Hall bar (or_introl Hcur)) as (Hl & _).
  destruct (Hl _ _ Hlevel) as [Hd _].
  change (below = lit 4 10 - lit 2 10) in Hd.
  apply Hne. by rewrite Hd.
Qed.

(** C3 (amended).  For every sequence of trades, every bar of the
    aggregator, current or completed, has [high >= max(open, close) >= low],
    with open and close between low and high.  When the sizes are whole
    numbers whose sum stays below [2^52], every bar also has
    [delta = askVol - bidVol] at every price level and
    [totalDelta = totalAskVol - totalBidVol], the differences taken exactly
    or as the machine takes them. *)
Theorem C3_footprint_bar_invariants_on_doubles
    (barDurationMs : Z) (tickSize imbalanceRatio : Qc) (ticks : list Tick) :
  let fa := ingest_all (create barDurationMs tickSize imbalanceRatio) ticks in
  (∀ bar, bar_of fa bar →
      Math_max [open bar; close bar] ≤ high bar
      ∧ low bar ≤ Math_max [open bar; close bar]
      ∧ ohlc_ok bar)
  ∧ (Forall (λ t, whole (size t)) ticks →
     sum_list (size <$> ticks) < two52 →
     ∀ bar, bar_of fa bar →
       (∀ p level, levels bar !! p = Some level →
                   delta level = askVol level - bidVol level
                   ∧ delta level = fsub (askVol level) (bidVol level))
       ∧ totalDelta bar = totalAskVol bar - totalBidVol bar
       ∧ totalDelta bar = fsub (totalAskVol bar) (totalBidVol bar)).
Proof.
  intros fa. split.
  - intros bar Hbar.
    assert (Ho : ohlc_ok bar).
    { apply (ingest_all64_ohlc ticks _) in Hbar; [done|].
      intros b [Hb | Hb]; simpl in *; [done | by apply elem_of_nil in Hb]. }
    destruct (ohlc_ok_bounds bar Ho) as [? ?]. done.
  - intros Hw Hsum bar Hbar.
    apply (bar_exact_delta_ok (0 + sum_list (size <$> ticks))).
    { qc_lra. }
    apply (ingest_all64_exact ticks (create barDurationMs tickSize imbalanceRatio));
      [done | | done | qc_lra | done].
    intros b [Hb | Hb]; simpl in *; [done | by apply elem_of_nil in Hb].
Qed.

Lemma C3_footprint_bar_invariants_on_doubles_witness :
  let ticks := [mkTick 0 (num 100 1) (num 10 1) buy;
                mkTick 1 (num 100 1) (num 5 1) sell;
                mkTick 60000 (num 101 1) (num 3 1) unknown] in
  let fa := ingest_all (create 60000 (num 1 4) (num 3 1)) ticks in
  Forall (λ t, whole (size t)) ticks
  ∧ sum_list (size <$> ticks) < two52
  ∧ (delta <$> ((head (completedBars fa)) ≫= λ bar, levels bar !! num 100 1))
    = Some (num 5 1)
  ∧ ∀ bar, bar_of fa bar → totalDelta bar = totalAskVol bar - totalBidVol bar.
Proof.
  intros ticks fa.
  assert (Hw : Forall (λ t, whole (size t)) ticks) by by_decide.
  assert (Hsum : sum_list (size <$> ticks) < two52) by by_decide.
  split; [exact Hw|]. split; [exact Hsum|]. split; [by_decide|].
  intros bar Hbar.
  destruct (C3_footprint_bar_invariants_on_doubles 60000 (num 1 4) (num 3 1) ticks)
    as [_ Hdelta].
  exact (proj1 (proj2 (Hdelta Hw Hsum bar Hbar))).
Defined.

(** X9.  Volume accounting on the doubles of the code.  When the sizes are
    whole numbers whose sum stays below [2^52], in every bar the aggregator
    holds after them, current or completed, the total bid volume is the sum
    of the bid volumes of its levels, the total ask volume the sum of their
    ask volumes, and the total volume is bid volume plus ask volume, as a
    rational and as the machine adds them; the halves of an unknown side
    lose nothing. *)
Theorem X9_footprint_volume_accounting_on_doubles
    (barDurationMs : Z) (tickSize imbalanceRatio : Qc) (ticks : list Tick) :
  Forall (λ t, whole (size t)) ticks →
  sum_list (size <$> ticks) < two52 →
  ∀ bar,
    bar_of (ingest_all (create barDurationMs tickSize imbalanceRatio) ticks) bar →
    totalBidVol bar = sum_levels bidVol (levels bar)
    ∧ totalAskVol bar = sum_levels askVol (levels bar)
    ∧ totalVolume bar = totalBidVol bar + totalAskVol bar
    ∧ totalVolume bar = fadd (totalBidVol bar) (totalAskVol bar).
Proof.
  intros Hw Hsum bar Hbar.
  pose proof two52_pos as H52.
  destruct (ingest_all64_exact ticks
              (create barDurationMs tickSize imbalanceRatio) 0)
    with (b := bar) as (_ & Htb & Hta & Htb0 & Hta0 & Hv & _ & Hsb & Hsa & Hle);
    [done | | done | qc_lra | done |].
  { intros b [Hb | Hb]; simpl in *; [done | by apply elem_of_nil in Hb]. }
  do 3 (split; [done|]).
  rewrite fadd_exact; [done | done | done | qc_lra | qc_lra].
Qed.

Lemma X9_footprint_volume_accounting_on_doubles_witness :
  let ticks := [mkTick 0 (num 100 1) (num 10 1) buy;
                mkTick 1 (num 401 4) (num 5 1) unknown;
                mkTick 2 (num 100 1) (num 3 1) sell] in
  let fa := ingest_all (create 60000 (num 1 4) (num 3 1)) ticks in
  Forall (λ t, whole (size t)) ticks
  ∧ sum_list (size <$> ticks) < two52
  ∧ (λ bar, (totalBidVol bar, totalAskVol bar, totalVolume bar)) <$> currentBar fa
    = Some (num 11 2, num 25 2, num 18 1)
  ∧ ∀ bar, bar_of fa bar → totalVolume bar = totalBidVol bar + totalAskVol bar.
Proof.
  intros ticks fa.
  assert (Hw : Forall (λ t, whole (size t)) ticks) by by_decide.
  assert (Hsum : sum_list (size <$> ticks) < two52) by by_decide.
  split; [exact Hw|]. split; [exact Hsum|]. split; [by_decide|].
  intros bar Hbar.
  exact (proj1 (proj2 (proj2
    (X9_footprint_volume_accounting_on_doubles 60000 (num 1 4) (num 3 1) ticks
       Hw Hsum bar Hbar)))).
Defined.

End footprint64.

(** ** The cumulative delta on doubles *)

Section cvd64.
Import Binary64.
Import CvdCalculator.
Import CvdCalculator64.

Lemma Cvd64_ingest_all_cons c tick ticks :
  ingest_all c (tick :: ticks) = ingest_all (ingest c tick).2 ticks.
Proof. done. Qed.

Lemma tick_delta_bounds tick :
  whole (size tick) →
  half_integer (tick_delta tick)
  ∧ - size tick ≤ tick_delta tick ∧ tick_delta tick ≤ size tick.
Proof.
  intros Hw. destruct (whole_half_integer _ Hw) as (Hs & _ & Hs0).
  unfold tick_delta. destruct (side tick).
  - split; [done|]. qc_lra.
  - split; [|qc_lra].
    replace (- size tick) with (0 - size tick) by ring.
    apply half_integer_minus; [apply half_integer_0 | done].
  - split; [apply half_integer_0|]. qc_lra.
Qed.

(** While the running sum cannot leave the range of exact halves, every
    machine addition is the exact one. *)
Lemma Cvd64_run_exact ticks : ∀ c,
  half_integer (sessionCvd c) →
  Forall (λ t, whole (size t)) ticks →
  - two52 < sessionCvd c - sum_list (size <$> ticks) →
  sessionCvd c + sum_list (size <$> ticks) < two52 →
  sessionCvd (ingest_all c ticks)
  = sessionCvd c + sum_list (tick_delta <$> ticks).
Proof.
  induction ticks as [|tick ticks IH]; intros c Hc Hw Hlo Hhi.
  { unfold sum_list. simpl. ring. }
  apply list.Forall_cons in Hw as [Hs Hw].
  rewrite fmap_cons, sum_list_cons in Hlo, Hhi.
  assert (Hrest : 0 ≤ sum_list (size <$> ticks)).
  { apply sum_list_whole. by apply Forall_fmap. }
  destruct (tick_delta_bounds tick Hs) as (Hd & Hdlo & Hdhi).
  assert (Hstep : sessionCvd (ingest c tick).2 = sessionCvd c + tick_delta tick).
  { cbn [ingest snd sessionCvd]. apply fadd_exact; [done | done | qc_lra | qc_lra]. }
  rewrite Cvd64_ingest_all_cons, IH, Hstep, fmap_cons, sum_list_cons;
    [ring | | done | |]; rewrite Hstep.
  - by apply half_integer_plus.
  - qc_lra.
  - qc_lra.
Qed.

Lemma sum_tick_delta_split (ticks : list Tick) :
  sum_list (tick_delta <$> ticks)
  = sum_list (size <$> filter (λ t, side t = buy) ticks)
    - sum_list (size <$> filter (λ t, side t = sell) ticks).
Proof.
  induction ticks as [|tick ticks IH]; [unfold sum_list; simpl; ring|].
  rewrite fmap_cons, sum_list_cons, IH, !filter_cons.
  unfold tick_delta.
  destruct (side tick); repeat case_decide; try done;
    rewrite ?fmap_cons, ?sum_list_cons; ring.
Qed.

Lemma Cvd64_last_point ticks : ∀ c p,
  list.last (ingest_points c ticks) = Some p →
  p_cvd p = sessionCvd (ingest_all c ticks).
Proof.
  induction ticks as [|tick ticks IH]; intros c p; [done|].
  rewrite Cvd64_ingest_all_cons. cbn [ingest_points].
  destruct ticks as [|tick' ticks].
  - cbn [ingest_points list.last ingest_all foldl]. by intros [= <-].
  - intros Hp. by apply (IH _ p).
Qed.

Lemma Math_abs_bounds (x : Qc) : - Math_abs x ≤ x ∧ x ≤ Math_abs x.
Proof.
  unfold Math_abs, ltb. case_bool_decide as H.
  - qc_lra.
  - apply Qcnot_lt_le in H. qc_lra.
Qed.

(** X16.  The session CVD on the doubles of the code.  When the running
    value is a multiple of one half, the sizes are whole numbers and the
    magnitude of the value plus the sizes to come stays below [2^52], the
    session CVD after the trades is its old value plus the sizes of the
    buys minus the sizes of the sells, trades of unknown side counting for
    nothing, and the last point returned reports that value. *)
Theorem X16_session_cvd_is_net_volume_on_doubles
    (c : CvdCalculator.t) (ticks : list Tick) :
  half_integer (sessionCvd c) →
  Forall (λ t, whole (size t)) ticks →
  Math_abs (sessionCvd c) + sum_list (size <$> ticks) < two52 →
  sessionCvd (ingest_all c ticks)
  = sessionCvd c
    + sum_list (size <$> filter (λ t, side t = buy) ticks)
    - sum_list (size <$> filter (λ t, side t = sell) ticks)
  ∧ ∀ p, list.last (ingest_points c ticks) = Some p →
         p_cvd p = sessionCvd (ingest_all c ticks).
Proof.
  intros Hc Hw Hsum. split; [|apply Cvd64_last_point].
  destruct (Math_abs_bounds (sessionCvd c)) as [Hlo Hhi].
  rewrite Cvd64_run_exact, sum_tick_delta_split; [ring | done | done | |];
    qc_lra.
Qed.

End cvd64.

Lemma X16_session_cvd_is_net_volume_on_doubles_witness :
  let ticks := [mkTick 0 (num 100 1) (num 10 1) buy;
                mkTick 1 (num 100 1) (num 4 1) sell;
                mkTick 2 (num 100 1) (num 7 1) unknown] in
  let c := CvdCalculator.create 0 in
  Binary64.half_integer (CvdCalculator.sessionCvd c)
  ∧ Forall (λ t, Binary64.whole (size t)) ticks
  ∧ Math_abs (CvdCalculator.sessionCvd c) + sum_list (size <$> ticks)
    < Binary64.two52
  ∧ CvdCalculator.sessionCvd (CvdCalculator64.ingest_all c ticks) = num 6 1.
Proof.
  intros ticks c.
  assert (Hc : Binary64.half_integer (CvdCalculator.sessionCvd c))
    by apply half_integer_0.
  assert (Hw : Forall (λ t, Binary64.whole (size t)) ticks) by by_decide.
  assert (Hsum : Math_abs (CvdCalculator.sessionCvd c)
                 + sum_list (size <$> ticks) < Binary64.two52) by by_decide.
  split; [exact Hc|]. split; [exact Hw|]. split; [exact Hsum|].
  rewrite (proj1 (X16_session_cvd_is_net_volume_on_doubles c ticks Hc Hw Hsum)).
  by_decide.
Defined.

(** With decimal sizes the running sum is not the regrouped one: buys of
    0.1, 0.2 and 0.3 leave the session CVD at 0.6000000000000001, while
    their sum taken exactly and then rounded is 0.6. *)
Example Cvd64_decimal_sizes_sample :
  let ticks := [mkTick 0 (num 100 1) (Binary64.lit 1 10) buy;
                mkTick 1 (num 100 1) (Binary64.lit 2 10) buy;
                mkTick 2 (num 100 1) (Binary64.lit 3 10) buy] in
  let c := CvdCalculator64.ingest_all (CvdCalculator.create 0) ticks in
  CvdCalculator.sessionCvd c
  = Q2Qc (5404319552844596 # 9007199254740992)%Q
  ∧ Binary64.lit 6 10 = Q2Qc (5404319552844595 # 9007199254740992)%Q
  ∧ CvdCalculator.sessionCvd c ≠ Binary64.lit 6 10.
Proof. intros ticks c. split; [by_decide|]. split; by_decide. Qed.

(** ** The DOM imbalance alert on doubles *)

Section alerts64.
Import Binary64.
Import AlertEvaluator.
Import AlertEvaluator64.

Lemma domRatio64_ge (d : DomBuilder.Snapshot) (r : Qc) :
  r ≤ domRatio d
  ↔ r ≤ fdiv (bestSize (DomBuilder.s_bids d)) (bestSize (DomBuilder.s_asks d))
    ∨ r ≤ fdiv (bestSize (DomBuilder.s_asks d)) (bestSize (DomBuilder.s_bids d)).
Proof.
  unfold domRatio.
  set (b := bestSize (DomBuilder.s_bids d)).
  set (a := bestSize (DomBuilder.s_asks d)).
  destruct (gtb (fdiv b a) (fdiv a b)) eqn:E;
    [apply gtb_true in E | apply gtb_false in E]; split.
  - by left.
  - intros [H | H]; [done|]. apply Qclt_le_weak in E. by etrans.
  - by right.
  - intros [H | H]; [by etrans | done].
Qed.

(** X21.  The DOM imbalance check on the doubles of the code.  An
    evaluation qualifies for the alert exactly when the book is given, both
    best sizes are positive, and one of the two rounded quotients reaches
    [domImbalanceRatio].  It is enough that one best size is, exactly, at
    least [domImbalanceRatio] times the other, for a ratio that is a double;
    the rounded quotient can reach the ratio without that, so the converse
    does not hold.  The alert names the bid side when the best bid is the
    larger one and the ask side otherwise, ties included. *)
Theorem X21_dom_imbalance_condition_on_doubles
    (ae : AlertEvaluator.t) (ctx : Context) :
  (qualifies_dom ae ctx = true
   ↔ ∃ d, dom ctx = Some d
          ∧ 0 < bestSize (DomBuilder.s_bids d)
          ∧ 0 < bestSize (DomBuilder.s_asks d)
          ∧ (domImbalanceRatio (config ae)
             ≤ fdiv (bestSize (DomBuilder.s_bids d)) (bestSize (DomBuilder.s_asks d))
             ∨ domImbalanceRatio (config ae)
               ≤ fdiv (bestSize (DomBuilder.s_asks d)) (bestSize (DomBuilder.s_bids d))))
  ∧ (∀ d, dom ctx = Some d →
          is_double (domImbalanceRatio (config ae)) →
          0 < bestSize (DomBuilder.s_bids d) →
          0 < bestSize (DomBuilder.s_asks d) →
          domImbalanceRatio (config ae) * bestSize (DomBuilder.s_asks d)
          ≤ bestSize (DomBuilder.s_bids d)
          ∨ domImbalanceRatio (config ae) * bestSize (DomBuilder.s_bids d)
            ≤ bestSize (DomBuilder.s_asks d) →
          qualifies_dom ae ctx = true)
  ∧ (∀ d, dom_alert_data d
          = DomImbalance (domRatio d)
              (if bool_decide (bestSize (DomBuilder.s_asks d)
                               < bestSize (DomBuilder.s_bids d))
               then bid else ask)).
Proof.
  assert (Hiff : qualifies_dom ae ctx = true
   ↔ ∃ d, dom ctx = Some d
          ∧ 0 < bestSize (DomBuilder.s_bids d)
          ∧ 0 < bestSize (DomBuilder.s_asks d)
          ∧ (domImbalanceRatio (config ae)
             ≤ fdiv (bestSize (DomBuilder.s_bids d)) (bestSize (DomBuilder.s_asks d))
             ∨ domImbalanceRatio (config ae)
               ≤ fdiv (bestSize (DomBuilder.s_asks d)) (bestSize (DomBuilder.s_bids d)))).
  { unfold qualifies_dom. destruct (dom ctx) as [d|].
    - rewrite !andb_true_iff, !gtb_true, geb_true, domRatio64_ge. split.
      + intros [[Hb Ha] Hr]. by exists d.
      + by intros (d' & [= <-] & Hb & Ha & Hr).
    - split; [done|]. by intros (d & [=] & _). }
  split; [exact Hiff|]. split; [|done].
  intros d Hd Hr Hb Ha Hle. apply Hiff. exists d.
  split; [done|]. split; [done|]. split; [done|].
  rewrite <- Hr.
  destruct Hle as [Hle | Hle]; [left | right]; apply rnd_mono;
    by apply Qcle_div_iff.
Qed.

End alerts64.

(** The rounded quotient decides: best sizes of 1.95 and 0.39 reach a ratio
    of 5, their quotient being 5 once rounded, although five times the
    double next to 0.39 exceeds the double next to 1.95. *)
Example Alert64_rounded_quotient_sample :
  let b := Binary64.lit 195 100 in
  let a := Binary64.lit 39 100 in
  Binary64.fdiv b a = num 5 1
  ∧ b < num 5 1 * a
  ∧ Binary64.fmul (num 5 1) a ≠ b.
Proof. intros b a. split; [by_decide|]. split; by_decide. Qed.

(** ** The model of doubles against the machine's

    On the numbers of the examples above the rounding defined here gives
    what the processor's binary64 arithmetic gives. *)

Section binary64_against_primitive_floats.
Import Binary64.
Import PrimFloat.
Local Open Scope float_scope.

Example Binary64_literals_agree :
  of_float 0x1.999999999999ap-4 = lit 1 10
  ∧ of_float 0x1.999999999999ap-3 = lit 2 10
  ∧ of_float 0x1.3333333333333p-2 = lit 3 10
  ∧ of_float 0x1.999999999999ap-2 = lit 4 10
  ∧ of_float 0x1.3333333333333p-1 = lit 6 10
  ∧ of_float 0x1.f333333333333p+0 = lit 195 100
  ∧ of_float 0x1.8f5c28f5c28f6p-2 = lit 39 100.
Proof. repeat split; by_decide. Qed.

Example Binary64_operations_agree :
  let x1 := 0x1.999999999999ap-4 in
  let x2 := 0x1.999999999999ap-3 in
  let x3 := 0x1.3333333333333p-2 in
  of_float (x1 + x2) = fadd (lit 1 10) (lit 2 10)
  ∧ of_float (x1 + x2 + x3) = fadd (fadd (lit 1 10) (lit 2 10)) (lit 3 10)
  ∧ of_float (0 + x1 - x2 + x3)
    = fadd (fsub (fadd 0 (lit 1 10)) (lit 2 10)) (lit 3 10)
  ∧ of_float (x3 / 2) = fdiv (lit 3 10) 2
  ∧ of_float (0x1.f333333333333p+0 / 0x1.8f5c28f5c28f6p-2)
    = fdiv (lit 195 100) (lit 39 100)
  ∧ of_float (5 * 0x1.8f5c28f5c28f6p-2) = fmul (num 5 1) (lit 39 100)
  ∧ of_float (x1 - x3) = fsub (lit 1 10) (lit 3 10)
  ∧ of_float (- x3 / 3) = fdiv (- lit 3 10) (num 3 1)
  ∧ of_float (0x1p+53 + 1) = fadd (Qc_of_Z (2 ^ 53)) 1
  ∧ of_float (0x1p+53 + 3) = fadd (Qc_of_Z (2 ^ 53)) (num 3 1)
  ∧ of_float (0x1p-1074 / 2) = fdiv (Q2Qc (2 ^ (-1074))%Q) 2
  ∧ of_float (0x1.8p-1073 / 2) = fdiv (Q2Qc (3 * 2 ^ (-1074))%Q) 2.
Proof. intros x1 x2 x3. repeat split; by_decide. Qed.

(** The footprint of the three trades of the counterexample to C3, on the
    machine's own numbers: the running delta and the two volumes. *)
Example Binary64_footprint_sums_agree :
  let x1 := 0x1.999999999999ap-4 in
  let x2 := 0x1.999999999999ap-3 in
  let x3 := 0x1.3333333333333p-2 in
  of_float (0 + x1 - x2 + x3) = Q2Qc (7205759403792793 # 36028797018963968)
  ∧ of_float (0 + x1 + x3) = lit 4 10
  ∧ of_float (0 + x2) = lit 2 10
  ∧ of_float ((0 + x1 + x3) - (0 + x2)) = lit 2 10
  ∧ PrimFloat.eqb (0 + x1 - x2 + x3) ((0 + x1 + x3) - (0 + x2)) = false.
Proof. intros x1 x2 x3. repeat split; by_decide. Qed.

End binary64_against_primitive_floats.
